(** * Othello: board engine, Zobrist hashing, evaluation and search

    A shallow embedding of [src/Othello.py].  Cells are the one-character
    strings ["E"], ["W"], ["B"] of the source; the acting colour is always
    one of the two keys ["W"], ["B"] of [possible_moves] and [FLIP_RULE].
    A board is the list of rows [board[y][x]]; positions are pairs [(x, y)]
    of Python integers.  Exceptions are modelled by an explicit outcome next
    to the state that the failed call leaves behind. *)

From Stdlib Require Import List ZArith Lia Bool QArith Qabs Lqa FinFun.
From Stdlib Require Import Ascii String.
From Stdlib Require Import Permutation DecimalString DecimalPos.
Import ListNotations.
Open Scope Z_scope.

(** [length] is the list length throughout. *)
Abbreviation length := Datatypes.length.

(** ** Data model *)

Inductive colour := W | B.

Inductive cell := E | Piece (c : colour).

Definition board := list (list cell).

Definition pos := (Z * Z)%type.

(** A move dictionary [possible_moves[colour]]: destination -> directions,
    kept in insertion order as a Python dict does. *)
Definition move_dict := list (pos * list pos).

Record moves := { moves_W : move_dict; moves_B : move_dict }.

Inductive exn :=
  KeyError | IndexError | BoardError | ZeroDivisionError | TypeError | UnboundLocalError.

Definition colour_eqb (a b : colour) : bool :=
  match a, b with W, W | B, B => true | _, _ => false end.

Definition cell_eqb (a b : cell) : bool :=
  match a, b with
  | E, E => true
  | Piece c, Piece d => colour_eqb c d
  | _, _ => false
  end.

Definition pos_eqb (p q : pos) : bool :=
  (fst p =? fst q) && (snd p =? snd q).

(** ** Constants

    [Constants.py] is not part of the sources at hand; the constants used by
    the modelled functions are written out here. *)

(** Modelled from the spec: [Constants.BOARD_SIZE], the side of the 8x8 grid
    (the source hard-codes the same bound 8 in [line_iterator]). *)
Definition BOARD_SIZE : Z := 8.

(** Modelled from the spec: [Constants.FLIP_RULE], the dictionary sending
    each colour to the opposing one. *)
Definition FLIP_RULE (c : colour) : colour :=
  match c with W => B | B => W end.

(** Modelled from the spec: [Constants.FLIP_LINES], the eight capture
    directions [(step_x, step_y)] of the standard Othello rule. *)
Definition FLIP_LINES : list pos :=
  [(0, 1); (1, 1); (1, 0); (1, -1); (0, -1); (-1, -1); (-1, 0); (-1, 1)].

(** Modelled from the spec: [Constants.START_POS], the fixed four-cell
    opening pattern, keyed by [(x, y)]. *)
Definition START_POS : list (pos * cell) :=
  [((3, 3), Piece W); ((4, 4), Piece W); ((3, 4), Piece B); ((4, 3), Piece B)].

(** ** Python helpers *)

(** [range(lo, hi)]. *)
Definition range (lo hi : Z) : list Z :=
  map (fun n => lo + Z.of_nat n) (seq 0 (Z.to_nat (hi - lo))).

(** Index normalisation of Python sequences: negative indices count from the
    end, anything else out of range raises [IndexError]. *)
Definition py_index (len i : Z) : option nat :=
  if (0 <=? i) && (i <? len) then Some (Z.to_nat i)
  else if (- len <=? i) && (i <? 0) then Some (Z.to_nat (i + len))
  else None.

Fixpoint list_set {A} (l : list A) (n : nat) (v : A) : list A :=
  match l, n with
  | [], _ => []
  | _ :: t, O => v :: t
  | h :: t, S n' => h :: list_set t n' v
  end.

(** [board[y][x]] for indices already checked to lie in [0, 8). *)
Definition cell_at (b : board) (x y : Z) : cell :=
  nth (Z.to_nat x) (nth (Z.to_nat y) b []) E.

(** [board[y][x] = v] for in-range indices. *)
Definition set_cell (b : board) (x y : Z) (v : cell) : board :=
  list_set b (Z.to_nat y) (list_set (nth (Z.to_nat y) b []) (Z.to_nat x) v).

(** [board[y][x] = v] for arbitrary Python integers. *)
Definition py_setitem2 (b : board) (y x : Z) (v : cell) : option board :=
  match py_index (Z.of_nat (length b)) y with
  | None => None
  | Some r =>
      let row := nth r b [] in
      match py_index (Z.of_nat (length row)) x with
      | None => None
      | Some c => Some (list_set b r (list_set row c v))
      end
  end.

(** [board[y][x]] for arbitrary Python integers. *)
Definition py_getitem2 (b : board) (y x : Z) : option cell :=
  match py_index (Z.of_nat (length b)) y with
  | None => None
  | Some r =>
      let row := nth r b [] in
      match py_index (Z.of_nat (length row)) x with
      | None => None
      | Some c => Some (nth c row E)
      end
  end.

(** Every board of the program is an 8x8 grid. *)
Definition wf_board (b : board) : Prop :=
  length b = 8%nat /\ Forall (fun row => length row = 8%nat) b.

Definition in_range (x y : Z) : bool :=
  (0 <=? x) && (x <? 8) && (0 <=? y) && (y <? 8).

(** Dictionary lookup and assignment on an insertion-ordered dict. *)
Fixpoint dict_get {V} (d : list (pos * V)) (k : pos) : option V :=
  match d with
  | [] => None
  | (k', v) :: r => if pos_eqb k k' then Some v else dict_get r k
  end.

Fixpoint dict_set {V} (d : list (pos * V)) (k : pos) (v : V) : list (pos * V) :=
  match d with
  | [] => [(k, v)]
  | (k', v') :: r =>
      if pos_eqb k k' then (k', v) :: r else (k', v') :: dict_set r k v
  end.

Definition keys {V} (d : list (pos * V)) : list pos := map fst d.

(** [possible_moves[colour]]. *)
Definition moves_of (pm : moves) (c : colour) : move_dict :=
  match c with W => moves_W pm | B => moves_B pm end.

Definition set_moves_of (pm : moves) (c : colour) (d : move_dict) : moves :=
  match c with
  | W => {| moves_W := d; moves_B := moves_B pm |}
  | B => {| moves_W := moves_W pm; moves_B := d |}
  end.

(** Boards written as in a Python literal, one string per row. *)
Definition cell_of_ascii (a : Ascii.ascii) : cell :=
  if Ascii.eqb a "W"%char then Piece W
  else if Ascii.eqb a "B"%char then Piece B
  else E.

Definition board_of_strings (rows : list String.string) : board :=
  map (fun s => map cell_of_ascii (String.list_ascii_of_string s)) rows.

(** ** Board engine: class [Othello] *)

(** The scanning loop [for i in range(1, BOARD_SIZE)] of [line_iterator] for
    one direction.  The result is [(flip_line_holds, i)] on leaving the loop;
    [last] is the value of [i] carried so far. *)
Fixpoint line_scan (b : board) (p : pos) (current_colour : colour) (step : pos)
    (done_first_iter : bool) (is_ : list Z) (last : Z) : bool * Z :=
  match is_ with
  | [] => (false, last)
  | i :: rest =>
      let x := fst step * i + fst p in
      let y := snd step * i + snd p in
      if negb (in_range x y) then (false, i)
      else if negb done_first_iter then
        if negb (cell_eqb (cell_at b x y) (Piece (FLIP_RULE current_colour)))
        then (false, i)
        else line_scan b p current_colour step true rest i
      else if cell_eqb (cell_at b x y) (Piece current_colour) then (true, i)
      else if cell_eqb (cell_at b x y) E then (false, i)
      else line_scan b p current_colour step true rest i
  end.

(** What [line_iterator] yields for one direction, read off the board as it
    is when the generator reaches that direction. *)
Definition line_cells (b : board) (p : pos) (current_colour : colour) (step : pos)
    : list (Z * Z * pos) :=
  let '(flip_line_holds, i) :=
    line_scan b p current_colour step false (range 1 BOARD_SIZE) 0 in
  if flip_line_holds
  then map (fun z => (fst step * z + fst p, snd step * z + snd p, step)) (range 1 i)
  else [].

(** [line_iterator] on an unchanging board. *)
Definition line_iterator (b : board) (p : pos) (current_colour : colour)
    (check_lines : list pos) : list (Z * Z * pos) :=
  flat_map (line_cells b p current_colour) check_lines.

(** [check_flip_line]: the direction if the line flips something, else [None]. *)
Definition check_flip_line (b : board) (p : pos) (current_colour : colour)
    (check_line : pos) : option pos :=
  match line_iterator b p current_colour [check_line] with
  | (_, _, step) :: _ => Some step
  | [] => None
  end.

(** [adjacent]: the occupied in-range neighbours with their directions. *)
Definition adjacent (b : board) (p : pos) : list (colour * pos) :=
  flat_map (fun step =>
    let x := fst p + fst step in
    let y := snd p + snd step in
    if (0 <=? x) && (x <? BOARD_SIZE) && (0 <=? y) && (y <? BOARD_SIZE) then
      match cell_at b x y with
      | E => []
      | Piece c => [(c, step)]
      end
    else []) FLIP_LINES.

(** The body of the [for adjacency in self.adjacent((x, y))] loop. *)
Definition board_change_adjacency (b : board) (p : pos) (pm : moves)
    (adjacency : colour * pos) : moves :=
  let mover := FLIP_RULE (fst adjacency) in
  match check_flip_line b p mover (snd adjacency) with
  | Some line =>
      match dict_get (moves_of pm mover) p with
      | Some old =>
          set_moves_of pm mover
            (dict_set (moves_of pm mover) p (old ++ [line]))
      | None =>
          set_moves_of pm mover
            (dict_set (moves_of pm mover) p [line])
      end
  | None => pm
  end.

Definition board_change_cell (b : board) (pm : moves) (p : pos) : moves :=
  match cell_at b (fst p) (snd p) with
  | E => fold_left (board_change_adjacency b p) (adjacent b p) pm
  | Piece _ => pm
  end.

(** The cells in the order of the two nested loops, [x] outermost. *)
Definition all_cells : list pos :=
  flat_map (fun x => map (fun y => (x, y)) (range 0 BOARD_SIZE)) (range 0 BOARD_SIZE).

(** [board_change]: recompute the move index of both colours from the grid. *)
Definition board_change (b : board) : moves :=
  fold_left (board_change_cell b) all_cells {| moves_W := []; moves_B := [] |}.

(** Objects of class [Othello] and of its subclass [HashedLocalVersus] share
    [flip_line]; the subclass overrides [flip] and [place].  An operation
    returns the object as the call leaves it, with the exception raised, if
    any. *)
Class OthelloObject (S : Type) := {
  self_board : S -> board;
  self_possible_moves : S -> moves;
  self_flip : pos -> S -> S * option exn
}.

Definition seq_run {S} (f g : S -> S * option exn) (s : S) : S * option exn :=
  match f s with
  | (s', None) => g s'
  | (s', Some e) => (s', Some e)
  end.

Fixpoint for_each {S A} (body : A -> S -> S * option exn) (l : list A) (s : S)
    : S * option exn :=
  match l with
  | [] => (s, None)
  | a :: rest => seq_run (body a) (for_each body rest) s
  end.

(** [flip_line]: the consumer flips each yielded cell before the generator
    scans the next direction, so every direction is scanned on the board as
    the earlier flips left it. *)
Definition flip_line {S} `{OthelloObject S} (p : pos) (current_colour : colour)
    (s : S) : S * option exn :=
  match dict_get (moves_of (self_possible_moves s) current_colour) p with
  | None => (s, Some KeyError)
  | Some check_lines =>
      for_each (fun step s1 =>
        for_each (fun c => self_flip (fst (fst c), snd (fst c)))
          (line_cells (self_board s1) p current_colour step) s1)
        check_lines s
  end.

Module Othello.

Record t := { board : list (list cell); possible_moves : moves }.

(** [Othello.flip]. *)
Definition flip (p : pos) (s : t) : t * option exn :=
  match cell_at (board s) (fst p) (snd p) with
  | E => (s, Some KeyError)
  | Piece c =>
      ({| board := set_cell (board s) (fst p) (snd p) (Piece (FLIP_RULE c));
          possible_moves := possible_moves s |}, None)
  end.

#[export] Instance object : OthelloObject t :=
  {| self_board := board; self_possible_moves := possible_moves; self_flip := flip |}.

(** [Othello.place]. *)
Definition place (p : pos) (current_colour : colour) (s : t) : t * option exn :=
  match py_setitem2 (board s) (snd p) (fst p) (Piece current_colour) with
  | None => (s, Some IndexError)
  | Some b1 =>
      match flip_line p current_colour
              {| board := b1; possible_moves := possible_moves s |} with
      | (s2, Some e) => (s2, Some e)
      | (s2, None) =>
          ({| board := board s2; possible_moves := board_change (board s2) |}, None)
      end
  end.

(** The grid built by [__init__] when no board is passed. *)
Definition start_board : list (list cell) :=
  map (fun y => map (fun x =>
         match dict_get START_POS (x, y) with Some c => c | None => E end)
       (range 0 BOARD_SIZE)) (range 0 BOARD_SIZE).

(** [__init__]: the grid followed by [board_change]. *)
Definition init (b : option (list (list cell))) : t :=
  let g := match b with Some g => g | None => start_board end in
  {| board := g; possible_moves := board_change g |}.

(** [can_be_placed] on a position whose components are already integers. *)
Definition can_be_placed (p : pos) (current_colour : colour) (s : t) : pos * bool :=
  if (0 <=? fst p) && (fst p <? BOARD_SIZE) && (0 <=? snd p) && (snd p <? BOARD_SIZE)
  then
    if existsb (pos_eqb p) (keys (moves_of (possible_moves s) current_colour))
    then (p, true) else (p, false)
  else (p, false).

(** The body of the replay loops ([load]): a position refused by
    [can_be_placed] raises [BoardError], any other is placed. *)
Definition replay_move (p : pos) (current_colour : colour) (s : t) : t * option exn :=
  let tup := can_be_placed p current_colour s in
  if negb (snd tup) then (s, Some BoardError)
  else place (fst tup) current_colour s.

(** [count_pieces]: the dictionary [{"W": _, "B": _, "E": _}], in that order. *)
Definition count_cell (count : list (cell * Z)) (c : cell) : list (cell * Z) :=
  map (fun kv => if cell_eqb (fst kv) c then (fst kv, snd kv + 1) else kv) count.

Definition count_pieces (b : list (list cell)) : list (cell * Z) :=
  fold_left (fun count x =>
    fold_left (fun count y => count_cell count (cell_at b y x))
      (range 0 BOARD_SIZE) count)
    (range 0 BOARD_SIZE) [(Piece W, 0); (Piece B, 0); (E, 0)].

(** [count[k]]. *)
Definition count_of (count : list (cell * Z)) (k : cell) : Z :=
  match find (fun kv => cell_eqb (fst kv) k) count with
  | Some kv => snd kv
  | None => 0
  end.

(** The generator [end_game_iterator]: the colour it holds and the point
    at which it is suspended. *)
Inductive suspended := NotStarted | YieldedTurn | YieldedAfterPass | Finished.

Record end_game_iterator := { colour_var : colour; at_ : suspended }.

Definition end_game_iterator_start (c : colour) : end_game_iterator :=
  {| colour_var := c; at_ := NotStarted |}.

(** One [next()]: resumes after the last [yield], runs to the following
    [yield] or to the [break]; [pm] is [self.possible_moves] as it is when
    the generator is resumed.  [None] is [StopIteration]. *)
Definition next (g : end_game_iterator) (pm : moves)
    : option colour * end_game_iterator :=
  match at_ g with
  | Finished => (None, g)
  | _ =>
      let c := match at_ g with
               | YieldedTurn => FLIP_RULE (colour_var g)
               | _ => colour_var g
               end in
      if negb (length (moves_of pm c) =? 0)%nat then
        (Some c, {| colour_var := c; at_ := YieldedTurn |})
      else if negb (length (moves_of pm (FLIP_RULE c)) =? 0)%nat then
        (Some (FLIP_RULE c), {| colour_var := FLIP_RULE c; at_ := YieldedAfterPass |})
      else (None, {| colour_var := c; at_ := Finished |})
  end.

(** The replay loop of [load]: [zip] pairs each command with the next
    colour of the turn sequence, rejects it with [BoardError] or places
    it.  The result lists the colours yielded and gives the generator and
    the game object as the loop leaves them. *)
Fixpoint load (commands : list pos) (g : end_game_iterator) (s : t)
    : list colour * end_game_iterator * (t * option exn) :=
  match commands with
  | [] => ([], g, (s, None))
  | line :: rest =>
      match next g (possible_moves s) with
      | (None, g') => ([], g', (s, None))
      | (Some playing_colour, g') =>
          match replay_move line playing_colour s with
          | (s', Some e) => ([playing_colour], g', (s', Some e))
          | (s', None) =>
              let '(colours, g'', r) := load rest g' s' in
              (playing_colour :: colours, g'', r)
          end
      end
  end.

End Othello.

(** ** Position hash: classes [HashedBoard] and [HashedLocalVersus] *)

(** Modelled from the spec: [Constants.XOR_INDICES], the column of the
    Zobrist table that belongs to each cell state. *)
Definition XOR_INDICES (c : cell) : Z :=
  match c with E => 0 | Piece W => 1 | Piece B => 2 end.

(** [table[i][k]] for indices in range. *)
Definition table_at (table : list (list Z)) (i k : Z) : Z :=
  nth (Z.to_nat k) (nth (Z.to_nat i) table []) 0.

(** [table[i][k]] for arbitrary Python integers. *)
Definition py_table (table : list (list Z)) (i k : Z) : option Z :=
  match py_index (Z.of_nat (length table)) i with
  | None => None
  | Some r =>
      let row := nth r table [] in
      match py_index (Z.of_nat (length row)) k with
      | None => None
      | Some c => Some (nth c row 0)
      end
  end.

Module HashedLocalVersus.

Record HashedBoard := { board : list (list cell); hash_num : Z }.

Record t := {
  board_state : HashedBoard;
  possible_moves : moves;
  table : list (list Z)
}.

Definition xor_cell (s : t) (p : pos) (c : cell) (h : Z) : Z :=
  Z.lxor h (table_at (table s) (snd p * BOARD_SIZE + fst p) (XOR_INDICES c)).

(** [HashedLocalVersus.flip], called by [flip_line] on cells of the grid,
    with the 64 x 3 table of the session. *)
Definition flip (p : pos) (s : t) : t * option exn :=
  match cell_at (board (board_state s)) (fst p) (snd p) with
  | E => (s, Some KeyError)
  | Piece current_colour =>
      let b1 := set_cell (board (board_state s)) (fst p) (snd p)
                  (Piece (FLIP_RULE current_colour)) in
      let h1 := xor_cell s p (Piece current_colour) (hash_num (board_state s)) in
      let h2 := xor_cell s p (Piece (FLIP_RULE current_colour)) h1 in
      ({| board_state := {| board := b1; hash_num := h2 |};
          possible_moves := possible_moves s; table := table s |}, None)
  end.

#[export] Instance object : OthelloObject t :=
  {| self_board := fun s => board (board_state s);
     self_possible_moves := possible_moves;
     self_flip := flip |}.

(** [HashedLocalVersus.place]. *)
Definition place (p : pos) (current_colour : colour) (s : t) : t * option exn :=
  match py_setitem2 (board (board_state s)) (snd p) (fst p) (Piece current_colour) with
  | None => (s, Some IndexError)
  | Some b1 =>
      let with_hash h :=
        {| board_state := {| board := b1; hash_num := h |};
           possible_moves := possible_moves s; table := table s |} in
      let i := snd p * BOARD_SIZE + fst p in
      match py_table (table s) i (XOR_INDICES E) with
      | None => (with_hash (hash_num (board_state s)), Some IndexError)
      | Some t1 =>
          let h1 := Z.lxor (hash_num (board_state s)) t1 in
          match py_table (table s) i (XOR_INDICES (Piece current_colour)) with
          | None => (with_hash h1, Some IndexError)
          | Some t2 =>
              match flip_line p current_colour (with_hash (Z.lxor h1 t2)) with
              | (s2, Some e) => (s2, Some e)
              | (s2, None) =>
                  ({| board_state := board_state s2;
                      possible_moves := board_change (board (board_state s2));
                      table := table s2 |}, None)
              end
          end
      end
  end.

(** The loop of [AI.get_hash_version]: the hash recomputed from scratch. *)
Definition zobrist_hash (tbl : list (list Z)) (b : list (list cell)) : Z :=
  fold_left (fun h y =>
    fold_left (fun h x =>
      Z.lxor h (table_at tbl (y * BOARD_SIZE + x) (XOR_INDICES (cell_at b x y))))
      (range 0 BOARD_SIZE) h)
    (range 0 BOARD_SIZE) 0.

(** [AI.get_hash_version] of a game object with the session table [tbl]. *)
Definition get_hash_version (tbl : list (list Z)) (s : Othello.t) : t :=
  {| board_state := {| board := Othello.board s;
                       hash_num := zobrist_hash tbl (Othello.board s) |};
     possible_moves := Othello.possible_moves s;
     table := tbl |}.

End HashedLocalVersus.

(** ** Numbers

    A finite Python number of the program is an integer or a float; floats
    are the rationals they denote.  Integer arithmetic is exact; an
    operation that yields a float rounds its exact result with the rounding
    [fl] of the float format, which evaluation and search take as a
    parameter.  Scores also range over the two float infinities. *)

Inductive number := Int (z : Z) | Float (q : Q).

Inductive num := NegInf | Fin (v : number) | PosInf.

(** The rational that a finite number denotes. *)
Definition value (v : number) : Q :=
  match v with Int z => inject_Z z | Float q => q end.

Definition num_ltb (a b : num) : bool :=
  match a, b with
  | NegInf, NegInf => false
  | NegInf, _ => true
  | _, NegInf => false
  | PosInf, _ => false
  | _, PosInf => true
  | Fin p, Fin q => negb (Qle_bool (value q) (value p))
  end.

Definition num_leb (a b : num) : bool := negb (num_ltb b a).

Definition num_eqb (a b : num) : bool := num_leb a b && num_leb b a.

(** Python's [max(a, b)] and [min(a, b)]: the first argument wins a tie. *)
Definition num_max (a b : num) : num := if num_ltb a b then b else a.
Definition num_min (a b : num) : num := if num_ltb b a then b else a.

(** [a + b] and [a * b] on finite numbers. *)
Definition py_add (fl : Q -> Q) (a b : number) : number :=
  match a, b with
  | Int x, Int y => Int (x + y)
  | _, _ => Float (fl (value a + value b)%Q)
  end.

Definition py_mul (fl : Q -> Q) (a b : number) : number :=
  match a, b with
  | Int x, Int y => Int (x * y)
  | _, _ => Float (fl (value a * value b)%Q)
  end.

(** [a + k] for an integer constant [k]; an infinity stays what it is. *)
Definition num_add (fl : Q -> Q) (a : num) (k : Z) : num :=
  match a with Fin v => Fin (py_add fl v (Int k)) | _ => a end.

Definition of_int (z : Z) : num := Fin (Int z).

Inductive result (A : Type) := Ok (a : A) | Raise (e : exn).
Arguments Ok {A} a.
Arguments Raise {A} e.

(** True division [a / b] of two integers: a float, or [ZeroDivisionError]. *)
Definition py_div (fl : Q -> Q) (a b : Z) : result number :=
  if b =? 0 then Raise ZeroDivisionError
  else Ok (Float (fl (inject_Z a / inject_Z b)%Q)).

(** [sorted(l, key=..., reverse=True)]: descending by key, elements of equal
    key in their original order. *)
Fixpoint insert_desc {A} (key : A -> Z) (x : A) (l : list A) : list A :=
  match l with
  | [] => [x]
  | h :: t => if key h <? key x then x :: h :: t else h :: insert_desc key x t
  end.

Definition sorted_reverse {A} (key : A -> Z) (l : list A) : list A :=
  fold_left (fun acc x => insert_desc key x acc) l [].

(** Sets of cells, as duplicate-free lists. *)
Definition set_add (p : pos) (s : list pos) : list pos :=
  if existsb (pos_eqb p) s then s else s ++ [p].

Definition set_diff (s r : list pos) : list pos :=
  filter (fun p => negb (existsb (pos_eqb p) r)) s.

(** Dictionary equality [d1 == d2]: the same keys with equal values. *)
Definition list_pos_eqb (l1 l2 : list pos) : bool :=
  (length l1 =? length l2)%nat && forallb (fun pq => pos_eqb (fst pq) (snd pq)) (combine l1 l2).

Definition dict_eqb (d1 d2 : move_dict) : bool :=
  (length d1 =? length d2)%nat &&
  forallb (fun kv => match dict_get d2 (fst kv) with
                     | Some v => list_pos_eqb (snd kv) v
                     | None => false
                     end) d1.

Definition board_eqb (b1 b2 : board) : bool :=
  (length b1 =? length b2)%nat &&
  forallb (fun rs =>
    (length (fst rs) =? length (snd rs))%nat &&
    forallb (fun cs => cell_eqb (fst cs) (snd cs)) (combine (fst rs) (snd rs)))
    (combine b1 b2).

(** ** Evaluation and search: class [AI] *)

Module AI.

Import HashedLocalVersus.

(** The list comprehension shared by [check_if_terminal] and
    [terminal_utility]: the two colours' counts, larger first. *)
Definition sorted_counts (b : list (list cell)) : list (Z * cell) :=
  map (fun kv => (snd kv, fst kv))
    (filter (fun kv => negb (cell_eqb (fst kv) E))
       (sorted_reverse (fun item => snd item) (Othello.count_pieces b))).

(** [check_if_terminal]. *)
Definition check_if_terminal (s : t) : bool :=
  let pm := possible_moves s in
  if dict_eqb (moves_B pm) (moves_W pm) && dict_eqb (moves_W pm) [] then true
  else if dict_eqb (moves_B pm) [] || dict_eqb (moves_W pm) [] then
    let count := sorted_counts (board (board_state s)) in
    if fst (nth 1 count (0, E)) =? 0 then true else false
  else false.

(** [terminal_utility]. *)
Definition terminal_utility (s : t) : Z :=
  let count := sorted_counts (board (board_state s)) in
  let c0 := nth 0 count (0, E) in
  let c1 := nth 1 count (0, E) in
  if fst c0 =? fst c1 then 0
  else if cell_eqb (snd c0) (Piece W) then 85 + fst c0 - fst c1
  else -85 - fst c0 + fst c1.

(** [piece_to_heuristic]. *)
Definition piece_to_heuristic (c : cell) : Z :=
  match c with Piece W => 1 | Piece B => -1 | E => 0 end.

(** One block of [stability_iterator]: every line restarts [position] at 1
    unless it is still 2; after a yield it is 0. *)
Fixpoint emit_line (line : list pos) (position : Z) : list (Z * Z * Z) * Z :=
  match line with
  | [] => ([], position)
  | (y, x) :: rest =>
      let '(l, p') := emit_line rest 0 in ((y, x, position) :: l, p')
  end.

Fixpoint emit_lines (lines : list (list pos)) (position : Z) : list (Z * Z * Z) :=
  match lines with
  | [] => []
  | line :: rest =>
      let position := if position =? 0 then 1 else position in
      let '(l, p') := emit_line line position in
      l ++ emit_lines rest p'
  end.

(** The cells [(y, x)] visited by [while y < 8 and x < 8] with both
    coordinates stepping by 1, and by [while y < 8 and x >= 0] with [x]
    stepping by -1. *)
Fixpoint walk (n : nat) (y x dx : Z) : list pos :=
  match n with
  | O => []
  | S n' => (y, x) :: walk n' (y + 1) (x + dx) dx
  end.

Definition left_right_line (start : pos) : list pos :=
  let '(y, x) := start in
  walk (Z.to_nat (Z.min (BOARD_SIZE - y) (BOARD_SIZE - x))) y x 1.

Definition right_left_line (start : pos) : list pos :=
  let '(y, x) := start in
  walk (Z.to_nat (Z.min (BOARD_SIZE - y) (x + 1))) y x (-1).

(** The state of the stability scan of [heuristic_utility]: the tracked
    sets, the last opposing cell seen for each colour (['N'] is [None]) and
    the strands collected since. *)
Record scan_state := {
  tracked_black : list pos;
  tracked_white : list pos;
  last_black_opposing : option cell;
  last_white_opposing : option cell;
  last_black_empty : list pos;
  last_white_empty : list pos
}.

(** The two symmetric halves of the loop body, for the colour [own] whose
    stable cells are tracked in [tracked]. *)
Definition strand_step (own : colour) (here : cell) (p : pos)
    (st : list pos * option cell * list pos) : list pos * option cell * list pos :=
  let '(tracked, last_opposing, last_empty) := st in
  match last_opposing with
  | Some lo =>
      if cell_eqb here E then
        if (0 <? length last_empty)%nat
        then (set_diff tracked last_empty, Some E, [])
        else (tracked, Some E, last_empty)
      else if cell_eqb here (Piece (FLIP_RULE own)) then
        if (0 <? length last_empty)%nat then
          if cell_eqb lo E
          then (set_diff tracked last_empty, last_opposing, [])
          else (tracked, last_opposing, last_empty)
        else (tracked, Some (Piece (FLIP_RULE own)), last_empty)
      else (tracked, last_opposing, set_add p last_empty)
  | None =>
      if cell_eqb here E || cell_eqb here (Piece (FLIP_RULE own))
      then (tracked, Some here, [])
      else (tracked, last_opposing, last_empty)
  end.

Fixpoint stability_loop (b : list (list cell)) (it : list (Z * Z * Z))
    (st : scan_state) : scan_state :=
  match it with
  | [] => st
  | (y, x, position) :: rest =>
      let st1 :=
        if (position =? 1) || (position =? 2) then
          {| tracked_black := tracked_black st; tracked_white := tracked_white st;
             last_black_opposing := None; last_white_opposing := None;
             last_black_empty := last_black_empty st;
             last_white_empty := last_white_empty st |}
        else st in
      if (position =? 2) && (length (tracked_black st1) =? 0)%nat
                         && (length (tracked_white st1) =? 0)%nat
      then st1
      else
        let here := cell_at b x y in
        let '(tb, lbo, lbe) :=
          strand_step B here (y, x)
            (tracked_black st1, last_black_opposing st1, last_black_empty st1) in
        let '(tw, lwo, lwe) :=
          strand_step W here (y, x)
            (tracked_white st1, last_white_opposing st1, last_white_empty st1) in
        stability_loop b rest
          {| tracked_black := tb; tracked_white := tw;
             last_black_opposing := lbo; last_white_opposing := lwo;
             last_black_empty := lbe; last_white_empty := lwe |}
  end.

(** [set((y, x) for x in range(8) for y in range(8) if board[y][x] == c)]. *)
Definition tracked_cells (b : list (list cell)) (c : colour) : list pos :=
  fold_left (fun s p => set_add p s)
    (flat_map (fun x =>
       flat_map (fun y =>
         if cell_eqb (cell_at b x y) (Piece c) then [(y, x)] else [])
         (range 0 BOARD_SIZE)) (range 0 BOARD_SIZE)) [].

Section Tables.

(** The rounding of the float format. *)
Variable fl : Q -> Q.

(** [Constants.LEFT_RIGHT_DIAGONALS], [Constants.RIGHT_LEFT_DIAGONALS]
    (start cells [(y, x)] of the diagonals) and [Constants.BOARD_WEIGHT]
    are not part of the sources at hand: they are parameters. *)
Variable LEFT_RIGHT_DIAGONALS : list pos.
Variable RIGHT_LEFT_DIAGONALS : list pos.
Variable BOARD_WEIGHT : list (list Z).

(** [stability_iterator]: the triples [(y, x, position)] in order. *)
Definition stability_iterator : list (Z * Z * Z) :=
  emit_lines (map (fun y => map (fun x => (y, x)) (range 0 BOARD_SIZE))
                (range 0 BOARD_SIZE)) 0
  ++ emit_lines (map (fun x => map (fun y => (y, x)) (range 0 BOARD_SIZE))
                (range 0 BOARD_SIZE)) 2
  ++ emit_lines (map left_right_line LEFT_RIGHT_DIAGONALS) 2
  ++ emit_lines (map right_left_line RIGHT_LEFT_DIAGONALS) 2.

(** The four features of [heuristic_utility], in the order the source
    computes them. *)
Definition heuristic_piece_count (s : t) : result number :=
  let count := Othello.count_pieces (board (board_state s)) in
  py_div fl (Othello.count_of count (Piece W) - Othello.count_of count (Piece B))
         (Othello.count_of count (Piece W) + Othello.count_of count (Piece B)).

Definition heuristic_mobility (s : t) : result number :=
  let white_move_count := Z.of_nat (length (moves_W (possible_moves s))) in
  let black_move_count := Z.of_nat (length (moves_B (possible_moves s))) in
  py_div fl (white_move_count - black_move_count) (white_move_count + black_move_count).

Definition corners (b : list (list cell)) : list cell :=
  [cell_at b 0 0; cell_at b 0 (BOARD_SIZE - 1);
   cell_at b (BOARD_SIZE - 1) 0; cell_at b (BOARD_SIZE - 1) (BOARD_SIZE - 1)].

Definition total_corners_captured (b : list (list cell)) : Z :=
  fold_left (fun acc c => acc + Z.abs (piece_to_heuristic c)) (corners b) 0.

Definition heuristic_corner_capture (s : t) : result number :=
  let b := board (board_state s) in
  if negb (total_corners_captured b =? 0) then
    py_div fl (fold_left (fun acc c => acc + piece_to_heuristic c) (corners b) 0)
              (total_corners_captured b)
  else Ok (Int 0).

(** [(black_stability, white_stability)]. *)
Definition stability_counts (b : list (list cell)) : Z * Z :=
  if existsb (fun c => negb (cell_eqb c E)) (corners b) then
    let st := stability_loop b stability_iterator
                {| tracked_black := tracked_cells b B;
                   tracked_white := tracked_cells b W;
                   last_black_opposing := None; last_white_opposing := None;
                   last_black_empty := []; last_white_empty := [] |} in
    (Z.of_nat (length (tracked_black st)), Z.of_nat (length (tracked_white st)))
  else (0, 0).

Definition heuristic_stability (s : t) : result number :=
  let '(black_stability, white_stability) :=
    stability_counts (board (board_state s)) in
  if negb (white_stability + black_stability =? 0) then
    py_div fl (white_stability - black_stability) (white_stability + black_stability)
  else Ok (Int 0).

(** [heuristic_utility]. *)
Definition heuristic_utility (s : t) : result number :=
  match heuristic_piece_count s with
  | Raise e => Raise e
  | Ok piece_count =>
  match heuristic_mobility s with
  | Raise e => Raise e
  | Ok mobility =>
  match heuristic_corner_capture s with
  | Raise e => Raise e
  | Ok corner_capture =>
  match heuristic_stability s with
  | Raise e => Raise e
  | Ok stability =>
      Ok (py_add fl
            (py_add fl
               (py_add fl (py_mul fl (Int 30) corner_capture)
                          (py_mul fl mobility (Int 5)))
               (py_mul fl stability (Int 25)))
            (py_mul fl piece_count (Int 25)))
  end end end end.

(** *** The transposition table

    [searched_moves] is a Python dict keyed by [HashedBoard] objects,
    whose [__hash__] is the Zobrist hash and whose [__eq__] compares the
    grids: an entry answers a key of equal hash and equal grid.  A value
    is the tuple [(score, type_of_info, lookahead, action)]. *)
Definition entry := (num * Z * nat * pos)%type.

Definition search_dict := list (HashedBoard * entry).

Definition same_key (k k' : HashedBoard) : bool :=
  (hash_num k =? hash_num k') && board_eqb (board k) (board k').

Fixpoint tt_get (d : search_dict) (k : HashedBoard) : option entry :=
  match d with
  | [] => None
  | (k', e) :: r => if same_key k k' then Some e else tt_get r k
  end.

Fixpoint tt_set (d : search_dict) (k : HashedBoard) (e : entry) : search_dict :=
  match d with
  | [] => [(k, e)]
  | (k', e') :: r =>
      if same_key k k' then (k', e) :: r else (k', e') :: tt_set r k e
  end.

(** What [minimax] returns: a bare score, or the pair [score, action]. *)
Inductive ret := Scalar (v : num) | Pair (v : num) (action : pos).

(** [utility]. *)
Definition utility (s : t) (move : pos) (factor : Z) : Z :=
  if check_if_terminal s then terminal_utility s * 10 * factor
  else nth (Z.to_nat (snd move)) (nth (Z.to_nat (fst move)) BOARD_WEIGHT []) 0.

(** The loop of [sort_actions]: a deep copy of the board per action, with
    the action placed on it. *)
Fixpoint place_each (actions : list pos) (s : t) (player : colour)
    : result (list (t * pos)) :=
  match actions with
  | [] => Ok []
  | action :: rest =>
      match place action player s with
      | (_, Some e) => Raise e
      | (new_board, None) =>
          match place_each rest s player with
          | Raise e => Raise e
          | Ok boards => Ok ((new_board, action) :: boards)
          end
      end
  end.

Definition is_move (check_move_first : option pos) (action : pos) : Z :=
  match check_move_first with
  | Some m => if pos_eqb action m then 1 else 0
  | None => 0
  end.

(** [sort_actions]. *)
Definition sort_actions (actions : list pos) (s : t) (check_move_first : option pos)
    (factor : Z) (player : colour) : result (list (t * pos)) :=
  match place_each actions s player with
  | Raise e => Raise e
  | Ok boards =>
      Ok (sorted_reverse
            (fun x => is_move check_move_first (snd x) * 50000
                      + utility (fst x) (snd x) factor) boards)
  end.

(** The table lookup that opens [minimax]: an early return, or the
    window and the move to try first. *)
Definition lookup (s : t) (alpha beta : num) (initial : bool) (lookahead : nat)
    (searched_moves : search_dict) : ret + (num * num * option pos) :=
  match tt_get searched_moves (board_state s) with
  | Some (value, type_of_info, depth, move) =>
      if (lookahead <=? depth)%nat then
        let answer := if initial then Pair value move else Scalar value in
        if type_of_info =? 1 then inl answer
        else
          let alpha := if type_of_info =? 0 then num_max alpha value else alpha in
          let beta := if negb (type_of_info =? 0) && (type_of_info =? 2)
                      then num_min beta value else beta in
          if num_leb beta alpha then inl answer
          else inr (alpha, beta, Some move)
      else inr (alpha, beta, None)
  | None => inr (alpha, beta, None)
  end.

(** The three stores that close [minimax], and its return value.  The
    local [action] is unbound ([None]) if no candidate was ever taken. *)
Definition store (s : t) (alpha beta score : num) (lookahead : nat)
    (action : option pos) (initial : bool) (searched_moves : search_dict)
    : result (ret * search_dict) :=
  let put (cond : bool) (ty : Z) (r : result search_dict) : result search_dict :=
    match r with
    | Raise e => Raise e
    | Ok d =>
        if cond then
          match action with
          | Some a => Ok (tt_set d (board_state s) (score, ty, lookahead, a))
          | None => Raise UnboundLocalError
          end
        else Ok d
    end in
  match put (num_leb beta score) 0
          (put (num_ltb alpha score && num_ltb score beta) 1
             (put (num_leb score alpha) 2 (Ok searched_moves))) with
  | Raise e => Raise e
  | Ok d =>
      if initial then
        match action with
        | Some a => Ok (Pair score a, d)
        | None => Raise UnboundLocalError
        end
      else Ok (Scalar score, d)
  end.

(** [minimax], by recursion on the remaining [lookahead]. *)
Fixpoint minimax (lookahead : nat) (s : t) (alpha beta : num)
    (maximising_player initial : bool) (searched_moves : search_dict)
    {struct lookahead} : result (ret * search_dict) :=
  match lookup s alpha beta initial lookahead searched_moves with
  | inl answer => Ok (answer, searched_moves)
  | inr (alpha, beta, check_move_first) =>
      if check_if_terminal s then
        Ok (Scalar (of_int (terminal_utility s)), searched_moves)
      else
        match lookahead with
        | O =>
            match heuristic_utility s with
            | Raise e => Raise e
            | Ok h => Ok (Scalar (Fin h), searched_moves)
            end
        | S lookahead' =>
            if maximising_player then
              match sort_actions (keys (moves_W (possible_moves s))) s
                      check_move_first 1 W with
              | Raise e => Raise e
              | Ok sorted_actions =>
                  let fix loop (l : list (t * pos)) (score a : num)
                      (action : option pos) (d : search_dict)
                      : result (num * option pos * search_dict) :=
                    match l with
                    | [] => Ok (score, action, d)
                    | (new_board, possible_action) :: rest =>
                        match minimax lookahead' new_board a beta
                                (length (moves_B (possible_moves new_board)) =? 0)%nat
                                false d with
                        | Raise e => Raise e
                        | Ok (Pair _ _, _) => Raise TypeError
                        | Ok (Scalar evaluation, d') =>
                            let action :=
                              if num_ltb score evaluation
                              then Some possible_action else action in
                            let score := num_max score evaluation in
                            let a := num_max a score in
                            if num_leb beta a then Ok (score, action, d')
                            else loop rest score a action d'
                        end
                    end in
                  match loop sorted_actions NegInf alpha None searched_moves with
                  | Raise e => Raise e
                  | Ok (score, action, d) =>
                      store s alpha beta score lookahead action initial d
                  end
              end
            else
              match sort_actions (keys (moves_B (possible_moves s))) s
                      check_move_first (-1) B with
              | Raise e => Raise e
              | Ok sorted_actions =>
                  let fix loop (l : list (t * pos)) (score b : num)
                      (action : option pos) (d : search_dict)
                      : result (num * option pos * search_dict) :=
                    match l with
                    | [] => Ok (score, action, d)
                    | (new_board, possible_action) :: rest =>
                        match minimax lookahead' new_board alpha b
                                (negb (length (moves_W (possible_moves new_board)) =? 0)%nat)
                                false d with
                        | Raise e => Raise e
                        | Ok (Pair _ _, _) => Raise TypeError
                        | Ok (Scalar evaluation, d') =>
                            let action :=
                              if num_ltb evaluation score
                              then Some possible_action else action in
                            let score := num_min score evaluation in
                            let b := num_min b score in
                            if num_leb b alpha then Ok (score, action, d')
                            else loop rest score b action d'
                        end
                    end in
                  match loop sorted_actions PosInf beta None searched_moves with
                  | Raise e => Raise e
                  | Ok (score, action, d) =>
                      store s alpha beta score lookahead action initial d
                  end
              end
        end
  end.

(** The [while lower_bound < upper_bound] loop of [mtdf]; [None] when
    [fuel] iterations did not bring the bounds together. *)
Fixpoint mtdf_loop (fuel : nat) (s : t) (lookahead : nat)
    (guess upper_bound lower_bound : num) (move : option pos)
    (search_dict_ : search_dict) : option (result (num * pos * search_dict)) :=
  if num_ltb lower_bound upper_bound then
    match fuel with
    | O => None
    | S fuel' =>
        let beta := if num_eqb guess lower_bound then num_add fl guess 1 else guess in
        match minimax lookahead s (num_add fl beta (-1)) beta true true search_dict_ with
        | Raise e => Some (Raise e)
        | Ok (Scalar _, _) => Some (Raise TypeError)
        | Ok (Pair guess move, d) =>
            if num_ltb guess beta
            then mtdf_loop fuel' s lookahead guess guess lower_bound (Some move) d
            else mtdf_loop fuel' s lookahead guess upper_bound guess (Some move) d
        end
    end
  else
    match move with
    | Some m => Some (Ok (guess, m, search_dict_))
    | None => Some (Raise UnboundLocalError)
    end.

(** [mtdf]. *)
Definition mtdf (fuel : nat) (s : t) (first_guess : num) (lookahead : nat)
    (search_dict_ : search_dict) : option (result (num * pos * search_dict)) :=
  mtdf_loop fuel s lookahead first_guess PosInf NegInf None search_dict_.

End Tables.

(** Plain minimax over the same game tree: no window, no table.  The side
    to move at a successor is chosen as [minimax] chooses it. *)
Section Plain.

Variable fl : Q -> Q.
Variable LEFT_RIGHT_DIAGONALS : list pos.
Variable RIGHT_LEFT_DIAGONALS : list pos.

Fixpoint plain_minimax (lookahead : nat) (s : t) (maximising_player : bool)
    {struct lookahead} : result num :=
  if check_if_terminal s then Ok (of_int (terminal_utility s))
  else
    match lookahead with
    | O =>
        match heuristic_utility fl LEFT_RIGHT_DIAGONALS RIGHT_LEFT_DIAGONALS s with
        | Raise e => Raise e
        | Ok h => Ok (Fin h)
        end
    | S lookahead' =>
        let player := if maximising_player then W else B in
        let fix best (actions : list pos) (score : num) : result num :=
          match actions with
          | [] => Ok score
          | action :: rest =>
              match place action player s with
              | (_, Some e) => Raise e
              | (new_board, None) =>
                  let next_max :=
                    if maximising_player
                    then (length (moves_B (possible_moves new_board)) =? 0)%nat
                    else negb (length (moves_W (possible_moves new_board)) =? 0)%nat in
                  match plain_minimax lookahead' new_board next_max with
                  | Raise e => Raise e
                  | Ok v =>
                      best rest (if maximising_player then num_max score v
                                 else num_min score v)
                  end
              end
          end in
        best (keys (moves_of (possible_moves s) player))
             (if maximising_player then NegInf else PosInf)
    end.

End Plain.

(** [dumb_line_iterator], working in [(y, x)]: what at most [fuel] rounds of
    its [while] loop yield. *)
Fixpoint dumb_line_iterator (fuel : nat) (y x : Z) (line_diff : pos) : list pos :=
  match fuel with
  | O => []
  | S fuel' =>
      if ((0 >=? x) && (x >? BOARD_SIZE)) && ((0 >=? y) && (y >? BOARD_SIZE))
      then (y, x) :: dumb_line_iterator fuel' (y + fst line_diff) (x + snd line_diff) line_diff
      else []
  end.

End AI.

(** * Records of games

    [save] appends one line per move to a record file; the loaders read the
    lines back and replay them. *)

(** ** Text

    A Python string is the list of its code points, here below 256.  The
    interpreter's configurable cap on the number of digits of a conversion
    is not modelled. *)
Definition str := list ascii.

(** Python string literals. *)
Definition text (s : String.string) : str := String.list_ascii_of_string s.

(** The exceptions met when a record is read: [ValueError] besides those
    of the board engine. *)
Inductive raised := ValueError | Exn (e : exn).

Inductive outcome (A : Type) := Done (a : A) | Failed (e : raised).
Arguments Done {A} a.
Arguments Failed {A} e.

Definition code (a : ascii) : Z := Z.of_N (N_of_ascii a).

(** The characters that [int] skips at both ends of its argument. *)
Definition is_space (a : ascii) : bool :=
  ((9 <=? code a) && (code a <=? 13)) || (code a =? 32)
  || (code a =? 133) || (code a =? 160).

Definition digit_of (a : ascii) : option Z :=
  if (48 <=? code a) && (code a <=? 57) then Some (code a - 48) else None.

Fixpoint lstrip (s : str) : str :=
  match s with
  | a :: r => if is_space a then lstrip r else s
  | [] => []
  end.

Definition strip (s : str) : str := rev (lstrip (rev (lstrip s))).

(** Decimal digits, single underscores allowed between two digits. *)
Fixpoint parse_digits (acc : Z) (after_digit : bool) (s : str) : option Z :=
  match s with
  | [] => if after_digit then Some acc else None
  | a :: r =>
      match digit_of a with
      | Some d => parse_digits (10 * acc + d) true r
      | None =>
          if Ascii.eqb a "_" && after_digit then parse_digits acc false r else None
      end
  end.

(** [int(s)] for a string [s]; [None] is [ValueError]. *)
Definition py_int (s : str) : option Z :=
  match strip s with
  | a :: r =>
      if Ascii.eqb a "+" then parse_digits 0 false r
      else if Ascii.eqb a "-" then option_map Z.opp (parse_digits 0 false r)
      else parse_digits 0 false (a :: r)
  | [] => None
  end.

(** [str(z)] for an integer [z]. *)
Definition py_str (z : Z) : str :=
  list_ascii_of_string (NilZero.string_of_int (Z.to_int z)).

(** [s.split(sep)] for a one-character separator. *)
Fixpoint py_split (sep : ascii) (s : str) : list str :=
  match s with
  | [] => [[]]
  | a :: r =>
      if Ascii.eqb a sep then [] :: py_split sep r
      else match py_split sep r with
           | h :: t => (a :: h) :: t
           | [] => [[a]]
           end
  end.

(** [get_pos_from_file] and [SavedGamesLoader.get_pos]. *)
Definition get_pos_from_file (line : str) : outcome pos :=
  let fields := py_split "," line in
  match py_int (nth 0 fields []) with
  | None => Failed ValueError
  | Some x =>
      match fields with
      | _ :: f1 :: _ =>
          match py_int f1 with
          | None => Failed ValueError
          | Some y => Done (x, y)
          end
      | _ => Failed (Exn IndexError)
      end
  end.

(** The line that [save] appends for an instruction. *)
Definition save_line (instruction : pos) : str :=
  py_str (fst instruction) ++ ["," % char] ++ py_str (snd instruction) ++ ["010" % char].

(** ** Browsing a saved game: class [SavedGamesLoader]

    The object is an [Othello] game with the fields of the browser.  The
    record file is what [readlines] returns for it. *)
Module SavedGamesLoader.

Record t := {
  game : Othello.t;
  seek_amount : Z;
  current_line : Z;
  commands : option (list str);
  max_line : Z;
  previous_states : list (board * colour);
  self_colour : colour
}.

Definition with_game (s : t) (g : Othello.t) : t :=
  {| game := g; seek_amount := seek_amount s; current_line := current_line s;
     commands := commands s; max_line := max_line s;
     previous_states := previous_states s; self_colour := self_colour s |}.

(** [__init__(save_name, seek_amount)]. *)
Definition init (seek_amount_ : Z) : t :=
  {| game := Othello.init (Some Othello.start_board);
     seek_amount := Z.max seek_amount_ 0;
     current_line := 0; commands := None; max_line := 1;
     previous_states := []; self_colour := W |}.

(** The [for] loop of [load] over [zip(self.commands, end_game_iterator)]. *)
Fixpoint load_loop (lines : list str) (g : Othello.end_game_iterator) (line_count : Z)
    (s : t) : t * option raised :=
  match lines with
  | [] => (s, None)
  | line :: rest =>
      match Othello.next g (Othello.possible_moves (game s)) with
      | (None, _) => (s, None)
      | (Some c, g') =>
          let s1 :=
            {| game := game s; seek_amount := seek_amount s;
               current_line := current_line s; commands := commands s;
               max_line := max_line s;
               previous_states := previous_states s ++ [(Othello.board (game s), c)];
               self_colour := c |} in
          if line_count =? seek_amount s then (s1, None)
          else
            match get_pos_from_file line with
            | Failed e => (s1, Some e)
            | Done p =>
                let tup := Othello.can_be_placed p c (game s1) in
                if negb (snd tup) then (s1, Some (Exn BoardError))
                else
                  match Othello.place (fst tup) c (game s1) with
                  | (gm, Some e) => (with_game s1 gm, Some (Exn e))
                  | (gm, None) => load_loop rest g' (line_count + 1) (with_game s1 gm)
                  end
            end
      end
  end.

(** [load], run before any browsing as its docstring prescribes; [file] is
    the content of the record file, read when [self.commands] is still
    empty. *)
Definition load (file : list str) (s : t) : t * option raised :=
  let s0 :=
    match commands s with
    | Some (_ :: _) => s
    | _ =>
        {| game := game s; seek_amount := seek_amount s;
           current_line := current_line s; commands := Some file;
           max_line := Z.of_nat (length file);
           previous_states := previous_states s; self_colour := self_colour s |}
    end in
  let lines := match commands s0 with Some l => l | None => [] end in
  match load_loop lines (Othello.end_game_iterator_start (FLIP_RULE (self_colour s0))) 0 s0 with
  | (s1, Some e) => (s1, Some e)
  | (s1, None) =>
      ({| game := game s1; seek_amount := seek_amount s1;
          current_line := max_line s1; commands := commands s1;
          max_line := max_line s1;
          previous_states :=
            previous_states s1 ++ [(Othello.board (game s1), self_colour s1)];
          self_colour := self_colour s1 |}, None)
  end.

(** [update_board_state] on the entry [previous_states[line]], after
    [self.current_line] was set to [line]. *)
Definition show_line (line : Z) (s : t) : t * option raised :=
  match py_index (Z.of_nat (length (previous_states s))) line with
  | None =>
      ({| game := game s; seek_amount := seek_amount s; current_line := line;
          commands := commands s; max_line := max_line s;
          previous_states := previous_states s; self_colour := self_colour s |},
       Some (Exn IndexError))
  | Some i =>
      let '(b, c) := nth i (previous_states s) ([], W) in
      ({| game := {| Othello.board := b; Othello.possible_moves := board_change b |};
          seek_amount := seek_amount s; current_line := line;
          commands := commands s; max_line := max_line s;
          previous_states := previous_states s; self_colour := c |}, None)
  end.

(** [line_load_forwards]. *)
Definition line_load_forwards (s : t) : t * option raised :=
  if current_line s <? max_line s then show_line (current_line s + 1) s
  else (s, Some (Exn BoardError)).

(** [line_load_backwards]. *)
Definition line_load_backwards (s : t) : t * option raised :=
  if 0 <? current_line s then show_line (current_line s - 1) s
  else (s, Some (Exn BoardError)).

End SavedGamesLoader.

(** The tags of the messages that [load_othello] puts on the queue. *)
Inductive loader_tag := IO_Fail | IO_Loader.

(** [load_othello]: [games] lists the content of each record file; the
    result is the queue and the exception that escapes, if any. *)
Fixpoint load_othello (games : list (list str))
    : list (loader_tag * SavedGamesLoader.t) * option raised :=
  match games with
  | [] => ([], None)
  | file :: rest =>
      match SavedGamesLoader.load file (SavedGamesLoader.init 64) with
      | (loaded, None) =>
          let '(queue, e) := load_othello rest in ((IO_Loader, loaded) :: queue, e)
      | (loaded, Some (Exn BoardError)) | (loaded, Some ValueError) =>
          let '(queue, e) := load_othello rest in ((IO_Fail, loaded) :: queue, e)
      | (_, Some e) => ([], Some e)
      end
  end.

(** ** Resuming a saved game: [LoadLocalVersus.load] and [LoadAI.load]

    The two methods have the same text.  The record written by [save] is
    represented by the lines appended to it. *)
Module LoadLocalVersus.

Record t := {
  game : Othello.t;
  playing_colour : colour;
  line_count : Z;
  saved : list str
}.

(** The object as [__init__] leaves it before [play] is called. *)
Definition init (line_count_ : Z) : t :=
  {| game := Othello.init None; playing_colour := B;
     line_count := line_count_; saved := [] |}.

(** The [for] loop over [zip(commands, end_game_iterator)]; [count] is the
    local [line_count]. *)
Fixpoint load_loop (commands : list str) (g : Othello.end_game_iterator) (count : Z)
    (s : t) : t * option raised :=
  match commands with
  | [] => (s, None)
  | line :: rest =>
      match Othello.next g (Othello.possible_moves (game s)) with
      | (None, _) => (s, None)
      | (Some c, g') =>
          let s1 := {| game := game s; playing_colour := c;
                       line_count := line_count s; saved := saved s |} in
          if count =? line_count s then (s1, None)
          else
            match get_pos_from_file line with
            | Failed e => (s1, Some e)
            | Done p =>
                let tup := Othello.can_be_placed p c (game s) in
                if negb (snd tup) then (s1, Some (Exn BoardError))
                else
                  let saved' := saved s ++ [save_line (fst tup)] in
                  match Othello.place (fst tup) c (game s) with
                  | (gm, Some e) =>
                      ({| game := gm; playing_colour := c;
                          line_count := line_count s; saved := saved' |},
                       Some (Exn e))
                  | (gm, None) =>
                      load_loop rest g' (count + 1)
                        {| game := gm; playing_colour := c;
                           line_count := line_count s; saved := saved' |}
                  end
            end
      end
  end.

(** [load]; [commands] is what [readlines] returns for the record file. *)
Definition load (commands : list str) (s : t) : t * option raised :=
  match load_loop commands (Othello.end_game_iterator_start (playing_colour s)) 0 s with
  | (s1, Some e) => (s1, Some e)
  | (s1, None) =>
      ({| game := game s1; playing_colour := FLIP_RULE (playing_colour s1);
          line_count := line_count s1; saved := saved s1 |}, None)
  end.

(** The colour that the loop of [play] asks for a move first: the first
    colour of a new turn sequence started with [playing_colour]. *)
Definition first_turn (s : t) : option colour :=
  fst (Othello.next (Othello.end_game_iterator_start (playing_colour s))
         (Othello.possible_moves (game s))).

End LoadLocalVersus.

(** ** The text front end: class [Text] *)
Module Text.

(** [str] of a cell. *)
Definition cell_str (c : cell) : str :=
  match c with E => text "E" | Piece W => text "W" | Piece B => text "B" end.

(** [evaluate_winner]: the text it prints, or [BoardError] if the game has
    not ended. *)
Definition evaluate_winner (s : Othello.t) : outcome str :=
  match fst (Othello.next (Othello.end_game_iterator_start B) (Othello.possible_moves s)) with
  | Some _ => Failed (Exn BoardError)
  | None =>
      let count := AI.sorted_counts (Othello.board s) in
      let c0 := nth 0 count (0, E) in
      let c1 := nth 1 count (0, E) in
      if fst c0 =? fst c1 then
        Done (text "The game ended in a try." ++ text " You both had: "
              ++ py_str (fst c0) ++ text " pieces." ++ ["010"%char])
      else
        Done (cell_str (snd c0) ++ text " has won, with " ++ py_str (fst c0)
              ++ text " pieces. " ++ cell_str (snd c1) ++ text " lost, with "
              ++ py_str (fst c1) ++ text " pieces." ++ ["010"%char])
  end.

End Text.

(** * Specification vocabulary and concrete positions *)

(** The contribution to the hash of the cell in row [fst q], column [snd q]. *)
Definition zobrist_term (tbl : list (list Z)) (b : board) (q : pos) : Z :=
  table_at tbl (fst q * BOARD_SIZE + snd q) (XOR_INDICES (cell_at b (snd q) (fst q))).

(** The hashed board is an 8x8 grid whose stored hash is the hash of the grid. *)
Definition consistent (tbl : list (list Z)) (s : HashedLocalVersus.t) : Prop :=
  wf_board (HashedLocalVersus.board (HashedLocalVersus.board_state s)) /\
  HashedLocalVersus.table s = tbl /\
  HashedLocalVersus.hash_num (HashedLocalVersus.board_state s) =
    HashedLocalVersus.zobrist_hash tbl
      (HashedLocalVersus.board (HashedLocalVersus.board_state s)).

Definition tally (c : cell) (l : list cell) : Z :=
  Z.of_nat (length (filter (cell_eqb c) l)).

(** The cells in the order in which [count_pieces] reads them. *)
Definition counted_cells (b : board) : list cell :=
  map (fun p => cell_at b (snd p) (fst p)) all_cells.

Definition white_count (b : board) : Z := tally (Piece W) (counted_cells b).
Definition black_count (b : board) : Z := tally (Piece B) (counted_cells b).

(** Number of cells of the grid in state [c]. *)
Definition pieces (b : board) (c : cell) : Z := tally c (List.concat b).

(** The [j]-th cell from [p] along [step], and whether it lies on the grid. *)
Definition cell_on (b : board) (p step : pos) (j : Z) : cell :=
  cell_at b (fst step * j + fst p) (snd step * j + snd p).

Definition on_grid (p step : pos) (j : Z) : Prop :=
  0 <= fst step * j + fst p < 8 /\ 0 <= snd step * j + snd p < 8.

(** The standard Othello capture rule along one direction: an unbroken run
    of [k >= 1] opposing pieces next to [p], closed by a piece of the mover. *)
Definition captures (b : board) (p : pos) (c : colour) (step : pos) : Prop :=
  exists k, 1 <= k /\
    (forall j, 1 <= j <= k ->
       on_grid p step j /\ cell_on b p step j = Piece (FLIP_RULE c)) /\
    on_grid p step (k + 1) /\ cell_on b p step (k + 1) = Piece c.

(** The eight compass directions. *)
Definition is_direction (d : pos) : Prop :=
  -1 <= fst d <= 1 /\ -1 <= snd d <= 1 /\ d <> (0, 0).

(** The directions stored under a key, [[]] when the key is absent. *)
Definition entry (pm : moves) (c : colour) (q : pos) : list pos :=
  match dict_get (moves_of pm c) q with Some l => l | None => [] end.

(** No key is bound to an empty direction list. *)
Definition no_empty_entry (pm : moves) : Prop :=
  forall c q, dict_get (moves_of pm c) q <> Some [].

(** What one adjacency contributes to the mover [c]. *)
Definition found_line (b : board) (p : pos) (c : colour) (adjacency : colour * pos)
    : list pos :=
  if colour_eqb (FLIP_RULE (fst adjacency)) c then
    match check_flip_line b p c (snd adjacency) with
    | Some line => [line]
    | None => []
    end
  else [].

Definition cell_lines (b : board) (p : pos) (c : colour) : list pos :=
  flat_map (found_line b p c) (adjacent b p).

Definition lines_at (b : board) (p : pos) (c : colour) : list pos :=
  match cell_at b (fst p) (snd p) with
  | E => cell_lines b p c
  | Piece _ => []
  end.

(** The contribution of one direction to the entry of [p]. *)
Definition direction_lines (b : board) (p : pos) (c : colour) (step : pos) : list pos :=
  flat_map (found_line b p c)
    (let x := fst p + fst step in
     let y := snd p + snd step in
     if (0 <=? x) && (x <? BOARD_SIZE) && (0 <=? y) && (y <? BOARD_SIZE) then
       match cell_at b x y with
       | E => []
       | Piece c' => [(c', step)]
       end
     else []).

(** The Zobrist table of a session: 64 rows of three 64-bit values. *)
Definition wf_table (tbl : list (list Z)) : Prop :=
  length tbl = 64%nat /\
  Forall (fun row => length row = 3%nat /\ Forall (fun z => 0 <= z < 2 ^ 64) row) tbl.

(** The hashed boards reached from the initial position by legal moves,
    each applied by [HashedLocalVersus.place]. *)
Inductive reachable (tbl : list (list Z)) : HashedLocalVersus.t -> Prop :=
| reach_start :
    reachable tbl (HashedLocalVersus.get_hash_version tbl (Othello.init None))
| reach_place (s : HashedLocalVersus.t) (p : pos) (c : colour) :
    reachable tbl s ->
    In p (keys (moves_of (HashedLocalVersus.possible_moves s) c)) ->
    reachable tbl (fst (HashedLocalVersus.place p c s)).

Definition in_unit (q : Q) : Prop := (-1 <= q /\ q <= 1)%Q.

(** What the bounds need of the rounding [fl]: it is monotone and it keeps
    the multiples of 1/64 up to 85, as binary floating point does. *)
Definition float_rounding (fl : Q -> Q) : Prop :=
  (forall x y : Q, (x <= y)%Q -> (fl x <= fl y)%Q) /\
  (forall z : Z, Z.abs z <= 5440 -> (fl (z # 64) == z # 64)%Q).

(** The rounding that changes nothing: exact rational arithmetic. *)
Definition exact (q : Q) : Q := q.

(** [lo <= q <= hi]. *)
Definition between (lo hi q : Q) : Prop := (lo <= q /\ q <= hi)%Q.

(** Two lone pieces: neither colour has a legal move. *)
Definition blocked_board : board :=
  board_of_strings
    ["EEEEEEEE"; "EEEEEEEE"; "EEWEEEEE"; "EEEEEEEE";
     "EEEEEEEE"; "EEEEEBEE"; "EEEEEEEE"; "EEEEEEEE"]%string.

(** A session table: any 64 x 3 table of 64-bit values will do. *)
Definition example_table : list (list Z) :=
  map (fun i => [3 * i + 1; 3 * i + 2; 3 * i + 3]) (range 0 64).

Definition opening : HashedLocalVersus.t :=
  HashedLocalVersus.get_hash_version example_table (Othello.init None).

(** A full board with 33 White and 31 Black cells. *)
Definition full_board_33_31 : board :=
  board_of_strings
    ["WWWWWWWW"; "WWWWWWWW"; "WWWWWWWW"; "WWWWWWWW";
     "WBBBBBBB"; "BBBBBBBB"; "BBBBBBBB"; "BBBBBBBB"]%string.

(** The position after Black's opening move [(2, 3)]. *)
Definition after_first_move : HashedLocalVersus.t :=
  fst (HashedLocalVersus.place (2, 3) B opening).

(** A game of nine legal moves from the opening position. *)
Definition double_turn_game : list pos :=
  [(3, 2); (2, 2); (5, 4); (3, 1); (3, 0); (4, 0); (1, 2); (2, 0); (1, 3)].

(** [BOARD_WEIGHT] with every cell weighted alike: candidates that are not
    terminal keep the order of the move dictionary. *)
Definition zero_weight : list (list Z) := repeat (repeat 0 8%nat) 8%nat.

(** A positional [BOARD_WEIGHT] of the usual shape: corners and edges
    weighted higher, the cells next to a corner penalised. *)
Definition positional_weight : list (list Z) :=
  [[ 4; -3;  2;  2;  2;  2; -3;  4];
   [-3; -4; -1; -1; -1; -1; -4; -3];
   [ 2; -1;  1;  0;  0;  1; -1;  2];
   [ 2; -1;  0;  1;  1;  0; -1;  2];
   [ 2; -1;  0;  1;  1;  0; -1;  2];
   [ 2; -1;  1;  0;  0;  1; -1;  2];
   [-3; -4; -1; -1; -1; -1; -4; -3];
   [ 4; -3;  2;  2;  2;  2; -3;  4]].

(** The hashed board after a sequence of placements. *)
Definition after_moves (s : HashedLocalVersus.t) (ms : list (pos * colour))
    : HashedLocalVersus.t :=
  fold_left (fun s m => fst (HashedLocalVersus.place (fst m) (snd m) s)) ms s.

(** A position with five empty cells and White to move. *)
Definition endgame_board : board :=
  board_of_strings
    ["WBBBBEEE"; "BBBBBBBW"; "EWWWWBBW"; "WWWWBWBW";
     "BWBBWWBW"; "BBBBWBBW"; "BBBWWBBW"; "BBBBBBEW"]%string.

Definition endgame : HashedLocalVersus.t :=
  HashedLocalVersus.get_hash_version example_table (Othello.init (Some endgame_board)).

(** The game that leads to it. *)
Definition endgame_game : list pos :=
  [(5, 4); (3, 5); (2, 5); (5, 3); (3, 6); (2, 4); (6, 2); (4, 5); (5, 2); (6, 4);
   (5, 5); (4, 2); (1, 4); (2, 6); (1, 6); (6, 6); (3, 2); (3, 7); (2, 7); (4, 6);
   (5, 7); (2, 2); (4, 7); (1, 7); (0, 7); (3, 1); (5, 1); (1, 3); (1, 1); (6, 3);
   (3, 0); (5, 6); (0, 4); (0, 6); (7, 5); (2, 3); (0, 5); (7, 7); (6, 5); (7, 1);
   (7, 3); (0, 0); (1, 5); (7, 2); (4, 1); (0, 3); (7, 6); (2, 0); (4, 0); (7, 4);
   (1, 0); (2, 1); (0, 1); (1, 2); (6, 1)].

(** The score that a [minimax] call returns. *)
Definition returned_score {D} (r : result (AI.ret * D)) : option num :=
  match r with
  | Ok (AI.Scalar v, _) => Some v
  | Ok (AI.Pair v _, _) => Some v
  | Raise _ => None
  end.

(** ** Vocabulary of the further properties *)

(** The game object is in step with its grid: an 8x8 board whose move index
    is the one [board_change] computes from it. *)
Definition sound (s : Othello.t) : Prop :=
  wf_board (Othello.board s) /\
  Othello.possible_moves s = board_change (Othello.board s).

(** The cells that [line_iterator] yields for one direction. *)
Definition run (b : board) (p : pos) (c : colour) (step : pos) : list pos :=
  map (fun cl => (fst (fst cl), snd (fst cl))) (line_cells b p c step).

(** The grid with the listed cells set to [c]. *)
Definition paint (c : colour) (b : board) (cells : list pos) : board :=
  fold_left (fun b q => set_cell b (fst q) (snd q) (Piece c)) cells b.

(** [q] lies on a run of opposing pieces that starts next to [p] and is
    closed by a piece of [c]. *)
Definition captured (b : board) (p : pos) (c : colour) (q : pos) : Prop :=
  exists d k j, is_direction d /\ 1 <= j <= k /\
    (forall i, 1 <= i <= k ->
       on_grid p d i /\ cell_on b p d i = Piece (FLIP_RULE c)) /\
    on_grid p d (k + 1) /\ cell_on b p d (k + 1) = Piece c /\
    q = (fst d * j + fst p, snd d * j + snd p).

(** The grid that a legal placement leaves: the mover's piece on [p] and
    every run of the stored directions turned. *)
Definition placed (b : board) (p : pos) (c : colour) : board :=
  paint c (set_cell b (fst p) (snd p) (Piece c))
    (flat_map (run b p c) (entry (board_change b) c p)).

(** The base-class view of a hashed board. *)
Definition unhashed (s : HashedLocalVersus.t) : Othello.t :=
  {| Othello.board := HashedLocalVersus.board (HashedLocalVersus.board_state s);
     Othello.possible_moves := HashedLocalVersus.possible_moves s |}.

(** The colours that a turn generator yields when it is resumed once for
    each of the listed move indexes ([None] is [StopIteration]). *)
Fixpoint turns (g : Othello.end_game_iterator) (pms : list moves) : list (option colour) :=
  match pms with
  | [] => []
  | pm :: rest => fst (Othello.next g pm) :: turns (snd (Othello.next g pm)) rest
  end.

Definition swap_cell (c : cell) : cell :=
  match c with E => E | Piece c => Piece (FLIP_RULE c) end.

(** The grid with the two colours exchanged. *)
Definition swap_colours (b : board) : board := map (map swap_cell) b.

(** A hashed board in step with its grid and its session table. *)
Definition hashed_sound (tbl : list (list Z)) (s : HashedLocalVersus.t) : Prop :=
  wf_table tbl /\ consistent tbl s /\
  HashedLocalVersus.possible_moves s =
    board_change (HashedLocalVersus.board (HashedLocalVersus.board_state s)).

(** Every weight of the table is below 25000 in magnitude. *)
Definition bounded_weights (w : list (list Z)) : Prop :=
  Forall (Forall (fun z => Z.abs z < 25000)) w.

(** The head of a descending sort has the largest key. *)
Definition head_largest {A} (key : A -> Z) (l : list A) : Prop :=
  match l with
  | [] => True
  | h :: _ => forall y, In y l -> key y <= key h
  end.

(** The value of a position taken as a leaf of the search: the final score
    if the game is over, the heuristic evaluation otherwise. *)
Definition leaf_value (fl : Q -> Q) (lr rl : list pos) (s : HashedLocalVersus.t)
    : result num :=
  AI.plain_minimax fl lr rl 0 s true.

(** The digits of a decimal numeral, most significant first. *)
Definition digits (d : Decimal.uint) : str :=
  list_ascii_of_string (NilEmpty.string_of_uint d).

(** The number that the digits [d] denote after a prefix worth [acc]. *)
Fixpoint uint_value (d : Decimal.uint) (acc : Z) : Z :=
  match d with
  | Decimal.Nil => acc
  | Decimal.D0 l => uint_value l (10 * acc + 0)
  | Decimal.D1 l => uint_value l (10 * acc + 1)
  | Decimal.D2 l => uint_value l (10 * acc + 2)
  | Decimal.D3 l => uint_value l (10 * acc + 3)
  | Decimal.D4 l => uint_value l (10 * acc + 4)
  | Decimal.D5 l => uint_value l (10 * acc + 5)
  | Decimal.D6 l => uint_value l (10 * acc + 6)
  | Decimal.D7 l => uint_value l (10 * acc + 7)
  | Decimal.D8 l => uint_value l (10 * acc + 8)
  | Decimal.D9 l => uint_value l (10 * acc + 9)
  end.

Definition is_nil (d : Decimal.uint) : bool :=
  match d with Decimal.Nil => true | _ => false end.

(** No character of the string is skipped by [int]. *)
Definition no_space (s : str) : Prop := Forall (fun a => is_space a = false) s.

(** The line holds no comma. *)
Definition no_comma (line : str) : Prop := Forall (fun a => Ascii.eqb a "," = false) line.

(** The browser can step through all its lines: one snapshot per line
    number from 0 to [max_line]. *)
Definition browsable (s : SavedGamesLoader.t) : Prop :=
  0 <= SavedGamesLoader.current_line s <= SavedGamesLoader.max_line s /\
  Z.of_nat (length (SavedGamesLoader.previous_states s)) = SavedGamesLoader.max_line s + 1.

(** The browser shows the snapshot of its current line. *)
Definition shows_current (s : SavedGamesLoader.t) : Prop :=
  nth_error (SavedGamesLoader.previous_states s)
    (Z.to_nat (SavedGamesLoader.current_line s)) =
    Some (Othello.board (SavedGamesLoader.game s), SavedGamesLoader.self_colour s) /\
  Othello.possible_moves (SavedGamesLoader.game s) =
    board_change (Othello.board (SavedGamesLoader.game s)).

(** The record of the two moves [(2, 3)] and [(2, 2)], as [save] writes it. *)
Definition short_record : list str := [save_line (2, 3); save_line (2, 2)].

(** A browser with [short_record] loaded. *)
Definition short_browser : SavedGamesLoader.t :=
  fst (SavedGamesLoader.load short_record (SavedGamesLoader.init 64)).

(** A finished game on a full board. *)
Definition full_position : HashedLocalVersus.t :=
  HashedLocalVersus.get_hash_version example_table (Othello.init (Some full_board_33_31)).

(** * Properties *)

(** ** Basic facts about the helpers *)

Lemma range_BOARD_SIZE : range 0 BOARD_SIZE = [0; 1; 2; 3; 4; 5; 6; 7].
Proof. reflexivity. Qed.

Lemma in_range_list (lo hi z : Z) : In z (range lo hi) <-> lo <= z < hi.
Proof.
  unfold range. rewrite in_map_iff. split.
  - intros [n [<- Hn]]. apply in_seq in Hn. lia.
  - intros Hz. exists (Z.to_nat (z - lo)). split; [lia|].
    apply in_seq. lia.
Qed.

Lemma colour_eqb_eq (a b : colour) : colour_eqb a b = true <-> a = b.
Proof. destruct a, b; simpl; split; congruence. Qed.

Lemma cell_eqb_eq (a b : cell) : cell_eqb a b = true <-> a = b.
Proof.
  destruct a as [|c], b as [|d]; simpl; try (split; congruence).
  rewrite colour_eqb_eq. split; congruence.
Qed.

Lemma cell_eqb_refl (a : cell) : cell_eqb a a = true.
Proof. apply cell_eqb_eq. reflexivity. Qed.

Lemma cell_eqb_neq (a b : cell) : cell_eqb a b = false <-> a <> b.
Proof.
  rewrite <- cell_eqb_eq. destruct (cell_eqb a b); split; congruence.
Qed.

Lemma pos_eqb_eq (p q : pos) : pos_eqb p q = true <-> p = q.
Proof.
  destruct p as [a b], q as [c d]. unfold pos_eqb. simpl.
  rewrite andb_true_iff, !Z.eqb_eq. split; [intros [-> ->]; reflexivity|].
  intros H. inversion H. auto.
Qed.

Lemma pos_eqb_refl (p : pos) : pos_eqb p p = true.
Proof. apply pos_eqb_eq. reflexivity. Qed.

Lemma pos_eqb_neq (p q : pos) : pos_eqb p q = false <-> p <> q.
Proof.
  rewrite <- pos_eqb_eq. destruct (pos_eqb p q); split; congruence.
Qed.

Lemma FLIP_RULE_involutive (c : colour) : FLIP_RULE (FLIP_RULE c) = c.
Proof. destruct c; reflexivity. Qed.

Lemma FLIP_RULE_neq (c : colour) : FLIP_RULE c <> c.
Proof. destruct c; discriminate. Qed.

(** Two nested [for] loops are one loop over the pairs. *)
Lemma fold_left_nested {A} (f : A -> Z -> Z -> A) (xs ys : list Z) (a : A) :
  fold_left (fun acc x => fold_left (fun acc y => f acc x y) ys acc) xs a =
  fold_left (fun acc p => f acc (fst p) (snd p))
    (flat_map (fun x => map (fun y => (x, y)) ys) xs) a.
Proof.
  revert a. induction xs as [|x xs IH]; intros a; simpl; [reflexivity|].
  rewrite fold_left_app, <- IH. f_equal.
  clear IH. revert a. induction ys as [|y ys IH]; intros a; simpl; auto.
Qed.

Lemma fold_left_map_list {A B C} (f : A -> B -> A) (g : C -> B) (l : list C) (a : A) :
  fold_left f (map g l) a = fold_left (fun acc x => f acc (g x)) l a.
Proof. revert a. induction l; simpl; auto. Qed.

Lemma in_all_cells (p : pos) :
  In p all_cells <-> 0 <= fst p < 8 /\ 0 <= snd p < 8.
Proof.
  unfold all_cells. rewrite in_flat_map. split.
  - intros [x [Hx Hp]]. apply in_map_iff in Hp. destruct Hp as [y [<- Hy]].
    apply in_range_list in Hx, Hy. unfold BOARD_SIZE in *. simpl. lia.
  - intros [Hx Hy]. exists (fst p). split.
    + apply in_range_list. unfold BOARD_SIZE. lia.
    + apply in_map_iff. exists (snd p). split; [destruct p; reflexivity|].
      apply in_range_list. unfold BOARD_SIZE. lia.
Qed.

Lemma in_range_true (x y : Z) :
  in_range x y = true <-> 0 <= x < 8 /\ 0 <= y < 8.
Proof. unfold in_range. rewrite !andb_true_iff, !Z.leb_le, !Z.ltb_lt. lia. Qed.

(** ** Piece counts *)

Lemma tally_nonneg c l : 0 <= tally c l.
Proof. unfold tally. lia. Qed.

Lemma tally_cons c d l :
  tally c (d :: l) = (if cell_eqb c d then 1 else 0) + tally c l.
Proof.
  unfold tally. cbn [filter]. destruct (cell_eqb c d); [|lia].
  cbn [length]. rewrite Nat2Z.inj_succ. lia.
Qed.

Lemma tally_in c l : In c l -> 1 <= tally c l.
Proof.
  induction l as [|d l IH]; simpl; [tauto|]. rewrite tally_cons.
  intros [->|H].
  - rewrite cell_eqb_refl. pose proof (tally_nonneg c l). lia.
  - specialize (IH H). destruct (cell_eqb c d); lia.
Qed.

Lemma count_fold (l : list cell) (w k e : Z) :
  fold_left Othello.count_cell l [(Piece W, w); (Piece B, k); (E, e)] =
  [(Piece W, w + tally (Piece W) l); (Piece B, k + tally (Piece B) l);
   (E, e + tally E l)].
Proof.
  revert w k e. induction l as [|c l IH]; intros w k e.
  - unfold tally; simpl. rewrite !Z.add_0_r. reflexivity.
  - cbn [fold_left]. rewrite !tally_cons.
    destruct c as [|[|]]; cbn [Othello.count_cell map fst snd cell_eqb colour_eqb];
      rewrite IH; repeat (try lia; f_equal).
Qed.

Lemma count_pieces_spec (b : board) :
  Othello.count_pieces b =
  [(Piece W, tally (Piece W) (counted_cells b));
   (Piece B, tally (Piece B) (counted_cells b));
   (E, tally E (counted_cells b))].
Proof.
  unfold Othello.count_pieces.
  rewrite (fold_left_nested (fun count x y => Othello.count_cell count (cell_at b y x))).
  fold all_cells.
  rewrite <- (fold_left_map_list Othello.count_cell (fun p => cell_at b (snd p) (fst p))).
  fold (counted_cells b). rewrite count_fold. reflexivity.
Qed.

Lemma count_of_white b :
  Othello.count_of (Othello.count_pieces b) (Piece W) = white_count b.
Proof. rewrite count_pieces_spec. reflexivity. Qed.

Lemma count_of_black b :
  Othello.count_of (Othello.count_pieces b) (Piece B) = black_count b.
Proof. rewrite count_pieces_spec. reflexivity. Qed.

Lemma sorted_counts_spec (b : board) :
  AI.sorted_counts b =
  if white_count b <? black_count b
  then [(black_count b, Piece B); (white_count b, Piece W)]
  else [(white_count b, Piece W); (black_count b, Piece B)].
Proof.
  unfold AI.sorted_counts. rewrite count_pieces_spec.
  fold (white_count b) (black_count b).
  unfold sorted_reverse.
  cbn [fold_left insert_desc snd].
  destruct (white_count b <? black_count b) eqn:H1;
    cbn [insert_desc snd];
    destruct (black_count b <? tally E (counted_cells b)) eqn:H2;
    cbn [insert_desc snd];
    destruct (white_count b <? tally E (counted_cells b)) eqn:H3;
    cbn [insert_desc snd]; try reflexivity;
    apply Z.ltb_lt in H1 || apply Z.ltb_ge in H1;
    apply Z.ltb_lt in H2 || apply Z.ltb_ge in H2;
    apply Z.ltb_lt in H3 || apply Z.ltb_ge in H3; lia.
Qed.

(** A cell of the grid that holds a piece is counted. *)
Lemma cell_counted (b : board) (x y : Z) (c : cell) :
  0 <= x < 8 -> 0 <= y < 8 -> cell_at b x y = c -> 1 <= tally c (counted_cells b).
Proof.
  intros Hx Hy Hc. apply tally_in. unfold counted_cells.
  apply in_map_iff. exists (y, x). split; [exact Hc|].
  apply in_all_cells. simpl. lia.
Qed.

(** ** The shape of a well-formed board *)

Lemma length_8 {A} (l : list A) :
  length l = 8%nat ->
  exists a0 a1 a2 a3 a4 a5 a6 a7, l = [a0; a1; a2; a3; a4; a5; a6; a7].
Proof.
  intros H.
  do 8 (destruct l as [|? l]; [discriminate H|]).
  destruct l; [|discriminate H]. do 8 eexists. reflexivity.
Qed.

Ltac explode_board b Hwf :=
  let Hl := fresh "Hl" in
  let Hr := fresh "Hr" in
  destruct Hwf as [Hl Hr];
  apply length_8 in Hl;
  destruct Hl as (?r & ?r & ?r & ?r & ?r & ?r & ?r & ?r & ->);
  repeat match goal with
         | H : Forall _ (_ :: _) |- _ => inversion_clear H
         | H : Forall _ [] |- _ => clear H
         end;
  repeat match goal with
         | H : length ?r = 8%nat |- _ =>
             apply length_8 in H;
             destruct H as (?c & ?c & ?c & ?c & ?c & ?c & ?c & ?c & ->)
         end.

Lemma counted_cells_concat (b : board) :
  wf_board b -> counted_cells b = List.concat b.
Proof. intros Hwf. explode_board b Hwf. reflexivity. Qed.

Lemma white_count_pieces b : wf_board b -> white_count b = pieces b (Piece W).
Proof. intros H. unfold white_count, pieces. rewrite counted_cells_concat; auto. Qed.

Lemma black_count_pieces b : wf_board b -> black_count b = pieces b (Piece B).
Proof. intros H. unfold black_count, pieces. rewrite counted_cells_concat; auto. Qed.

Lemma terminal_utility_counts (s : HashedLocalVersus.t) :
  let b := HashedLocalVersus.board (HashedLocalVersus.board_state s) in
  AI.terminal_utility s =
  if white_count b =? black_count b then 0
  else if black_count b <? white_count b then 85 + white_count b - black_count b
  else -85 - black_count b + white_count b.
Proof.
  intros b. unfold AI.terminal_utility. fold b. rewrite sorted_counts_spec.
  destruct (white_count b <? black_count b) eqn:H1; cbn [nth fst snd cell_eqb colour_eqb].
  - apply Z.ltb_lt in H1.
    destruct (black_count b =? white_count b) eqn:H2; [apply Z.eqb_eq in H2; lia|].
    destruct (white_count b =? black_count b) eqn:H3; [apply Z.eqb_eq in H3; lia|].
    destruct (black_count b <? white_count b) eqn:H4; [apply Z.ltb_lt in H4; lia|].
    reflexivity.
  - apply Z.ltb_ge in H1.
    destruct (white_count b =? black_count b) eqn:H3; [reflexivity|].
    apply Z.eqb_neq in H3.
    destruct (black_count b <? white_count b) eqn:H4; [reflexivity|].
    apply Z.ltb_ge in H4. lia.
Qed.

(** C8 -- [terminal_utility] is 0 when both colours hold the same number of
    cells, [85 + |difference|] when White holds more and [-(85 + |difference|)]
    when Black holds more; a full board with 33 White and 31 Black cells
    scores 87 and a 32-32 board scores 0. *)
Theorem terminal_utility_spec (s : HashedLocalVersus.t) :
  let b := HashedLocalVersus.board (HashedLocalVersus.board_state s) in
  wf_board b ->
  (pieces b (Piece W) = pieces b (Piece B) -> AI.terminal_utility s = 0) /\
  (pieces b (Piece B) < pieces b (Piece W) ->
     AI.terminal_utility s = 85 + Z.abs (pieces b (Piece W) - pieces b (Piece B))) /\
  (pieces b (Piece W) < pieces b (Piece B) ->
     AI.terminal_utility s = - (85 + Z.abs (pieces b (Piece B) - pieces b (Piece W)))) /\
  (pieces b (Piece W) = 33 -> pieces b (Piece B) = 31 -> AI.terminal_utility s = 87) /\
  (pieces b (Piece W) = 32 -> pieces b (Piece B) = 32 -> AI.terminal_utility s = 0).
Proof.
  intros b Hwf. rewrite terminal_utility_counts. fold b.
  rewrite white_count_pieces, black_count_pieces by exact Hwf.
  set (w := pieces b (Piece W)). set (k := pieces b (Piece B)).
  repeat split; intros;
    destruct (Z.eqb_spec w k); destruct (Z.ltb_spec k w); lia.
Qed.

(** ** The capture rule and the line scan *)

Lemma range_nil (lo hi : Z) : hi <= lo -> range lo hi = [].
Proof. intros H. unfold range. replace (Z.to_nat (hi - lo)) with 0%nat by lia. reflexivity. Qed.

Lemma range_cons (lo hi : Z) : lo < hi -> range lo hi = lo :: range (lo + 1) hi.
Proof.
  intros H. unfold range.
  replace (Z.to_nat (hi - lo)) with (S (Z.to_nat (hi - (lo + 1)))) by lia.
  cbn [seq map]. f_equal; [lia|].
  rewrite <- seq_shift, map_map. apply map_ext. intros n. lia.
Qed.

Lemma range_not_nil (lo hi : Z) : lo < hi -> range lo hi <> [].
Proof. intros H. rewrite range_cons by exact H. discriminate. Qed.

Lemma FLIP_LINES_directions (d : pos) : In d FLIP_LINES <-> is_direction d.
Proof.
  unfold is_direction, FLIP_LINES. destruct d as [x y]. simpl. split.
  - intros H. repeat (destruct H as [H|H]; [inversion H; subst; repeat split; try lia; discriminate|]).
    contradiction.
  - intros (Hx & Hy & Hn).
    assert (x = -1 \/ x = 0 \/ x = 1) as Cx by lia.
    assert (y = -1 \/ y = 0 \/ y = 1) as Cy by lia.
    destruct Cx as [-> | [-> | ->]], Cy as [-> | [-> | ->]]; try congruence; tauto.
Qed.

Lemma NoDup_FLIP_LINES : NoDup FLIP_LINES.
Proof.
  unfold FLIP_LINES.
  repeat constructor; simpl; intuition (try discriminate).
Qed.

Section Scan.

Variable b : board.
Variable p : pos.
Variable c : colour.
Variable step : pos.

Lemma scan_step_grid (j : Z) :
  in_range (fst step * j + fst p) (snd step * j + snd p) = true <-> on_grid p step j.
Proof. apply in_range_true. Qed.

(** The scan past its first iteration. *)
Lemma line_scan_rest (n : nat) : forall lo last i,
  line_scan b p c step true (range lo (lo + Z.of_nat n)) last = (true, i) <->
  lo <= i < lo + Z.of_nat n /\
  (forall j, lo <= j < i ->
     on_grid p step j /\ cell_on b p step j = Piece (FLIP_RULE c)) /\
  on_grid p step i /\ cell_on b p step i = Piece c.
Proof.
  induction n as [|n IH]; intros lo last i.
  - rewrite range_nil by lia. simpl. split; [discriminate|lia].
  - rewrite range_cons by lia.
    replace (lo + Z.of_nat (S n)) with (lo + 1 + Z.of_nat n) by lia.
    cbn [line_scan negb].
    destruct (in_range (fst step * lo + fst p) (snd step * lo + snd p)) eqn:Hr;
      cbn [negb].
    2:{ split; [discriminate|]. intros (Hi & Hrun & Hg & Hc).
        assert (on_grid p step lo) as Hlo.
        { destruct (Z.eq_dec i lo) as [-> | ]; [exact Hg|]. apply Hrun. lia. }
        apply scan_step_grid in Hlo. congruence. }
    apply scan_step_grid in Hr. fold (cell_on b p step lo).
    destruct (cell_eqb (cell_on b p step lo) (Piece c)) eqn:Hc.
    { apply cell_eqb_eq in Hc. split.
      - intros H. inversion H; subst i. repeat split; try lia; try apply Hr; auto.
      - intros (Hi & Hrun & Hg & Hc').
        destruct (Z.eq_dec i lo) as [-> | Hne]; [reflexivity|].
        destruct (Hrun lo) as [_ Hopp]; [lia|]. rewrite Hc in Hopp.
        inversion Hopp as [Hcc]. symmetry in Hcc. apply FLIP_RULE_neq in Hcc. contradiction. }
    apply cell_eqb_neq in Hc.
    destruct (cell_eqb (cell_on b p step lo) E) eqn:He.
    { apply cell_eqb_eq in He. split; [discriminate|].
      intros (Hi & Hrun & Hg & Hc').
      destruct (Z.eq_dec i lo) as [-> | Hne]; [congruence|].
      destruct (Hrun lo) as [_ Hopp]; [lia|]. congruence. }
    apply cell_eqb_neq in He.
    assert (cell_on b p step lo = Piece (FLIP_RULE c)) as Hopp.
    { destruct (cell_on b p step lo) as [|[|]]; destruct c; simpl; congruence. }
    rewrite IH. split.
    + intros (Hi & Hrun & Hg & Hc'). repeat split; try lia; try apply Hg; auto;
        destruct (Z.eq_dec j lo) as [-> | Hne]; try apply Hr; auto; apply Hrun; lia.
    + intros (Hi & Hrun & Hg & Hc').
      assert (i <> lo) by congruence.
      repeat split; try lia; try apply Hg; auto; apply Hrun; lia.
Qed.

(** The whole scan of one direction. *)
Lemma line_scan_spec (i : Z) :
  line_scan b p c step false (range 1 BOARD_SIZE) 0 = (true, i) <->
  2 <= i < 8 /\
  (forall j, 1 <= j < i ->
     on_grid p step j /\ cell_on b p step j = Piece (FLIP_RULE c)) /\
  on_grid p step i /\ cell_on b p step i = Piece c.
Proof.
  unfold BOARD_SIZE. rewrite range_cons by lia.
  cbn [line_scan negb].
  destruct (in_range (fst step * 1 + fst p) (snd step * 1 + snd p)) eqn:Hr;
    cbn [negb].
  2:{ split; [discriminate|]. intros (Hi & Hrun & _).
      destruct (Hrun 1) as [Hg _]; [lia|]. apply scan_step_grid in Hg. congruence. }
  apply scan_step_grid in Hr. fold (cell_on b p step 1).
  destruct (cell_eqb (cell_on b p step 1) (Piece (FLIP_RULE c))) eqn:Hc; cbn [negb].
  2:{ apply cell_eqb_neq in Hc. split; [discriminate|]. intros (Hi & Hrun & _).
      destruct (Hrun 1) as [_ Hopp]; [lia|]. congruence. }
  apply cell_eqb_eq in Hc.
  change (range (1 + 1) 8) with (range 2 (2 + Z.of_nat 6)).
  rewrite line_scan_rest. split.
  - intros (Hi & Hrun & Hg & Hc'). repeat split; try lia; try apply Hg; auto;
      destruct (Z.eq_dec j 1) as [-> | Hne]; try apply Hr; auto; apply Hrun; lia.
  - intros (Hi & Hrun & Hg & Hc').
    repeat split; try lia; try apply Hg; auto; apply Hrun; lia.
Qed.

Lemma line_scan_false_or_true :
  forall is_ done_ last, exists i,
    line_scan b p c step done_ is_ last = (false, i) \/
    line_scan b p c step done_ is_ last = (true, i).
Proof.
  intros is_ done_ last.
  destruct (line_scan b p c step done_ is_ last) as [[|] i]; eauto.
Qed.

Lemma check_flip_line_step (line : pos) :
  check_flip_line b p c step = Some line -> line = step.
Proof.
  unfold check_flip_line, line_iterator. cbn [flat_map]. rewrite app_nil_r.
  unfold line_cells.
  destruct (line_scan b p c step false (range 1 BOARD_SIZE) 0) as [[|] i];
    [|discriminate].
  destruct (map _ (range 1 i)) as [|[[x y] s] l] eqn:Hm; [discriminate|].
  intros H. inversion H; subst s.
  assert (In (x, y, line)
            (map (fun z => (fst step * z + fst p, snd step * z + snd p, step))
               (range 1 i))) as Hin by (rewrite Hm; left; reflexivity).
  apply in_map_iff in Hin. destruct Hin as [z [Hz _]]. congruence.
Qed.

Hypothesis p_on_grid : 0 <= fst p < 8 /\ 0 <= snd p < 8.
Hypothesis step_direction : is_direction step.

(** The scan finds a line exactly when the capture rule holds. *)
Lemma scan_captures :
  (exists i, line_scan b p c step false (range 1 BOARD_SIZE) 0 = (true, i)) <->
  captures b p c step.
Proof.
  split.
  - intros [i Hi]. apply line_scan_spec in Hi. destruct Hi as (Hi & Hrun & Hg & Hc).
    exists (i - 1). repeat split; try lia;
      try (apply Hrun; lia);
      replace (i - 1 + 1) with i by lia; try apply Hg; auto.
  - intros (k & Hk & Hrun & Hg & Hc). exists (k + 1). apply line_scan_spec.
    repeat split; try apply Hg; auto; try (apply Hrun; lia); try lia.
    destruct step_direction as (Hx & Hy & Hn). destruct Hg as [Hgx Hgy].
    destruct step as [sx sy]. simpl in *.
    assert (sx <> 0 \/ sy <> 0) as [H0|H0].
    { destruct (Z.eq_dec sx 0); [right|left]; congruence. }
    + assert (sx = 1 \/ sx = -1) as [-> | ->] by lia; lia.
    + assert (sy = 1 \/ sy = -1) as [-> | ->] by lia; lia.
Qed.

Lemma line_cells_nonempty :
  line_cells b p c step <> [] <-> captures b p c step.
Proof.
  rewrite <- scan_captures. unfold line_cells.
  destruct (line_scan b p c step false (range 1 BOARD_SIZE) 0) as [[|] i] eqn:Hs.
  - split; [eauto|]. intros _.
    apply line_scan_spec in Hs. destruct Hs as (Hi & _).
    rewrite range_cons by lia. discriminate.
  - split; [congruence|]. intros [j Hj]. discriminate.
Qed.

Lemma check_flip_line_captures :
  (check_flip_line b p c step = Some step <-> captures b p c step) /\
  (check_flip_line b p c step = None <-> ~ captures b p c step).
Proof.
  rewrite <- line_cells_nonempty. unfold check_flip_line, line_iterator.
  cbn [flat_map]. rewrite app_nil_r. unfold line_cells.
  destruct (line_scan b p c step false (range 1 BOARD_SIZE) 0) as [[|] i].
  - destruct (map _ (range 1 i)) as [|[[x y] s] l] eqn:Hm.
    + split; split; try congruence; tauto.
    + assert (s = step) as ->.
      { assert (In (x, y, s) (map (fun z => (fst step * z + fst p, snd step * z + snd p, step)) (range 1 i))) as Hin
          by (rewrite Hm; left; reflexivity).
        apply in_map_iff in Hin. destruct Hin as [z [Hz _]]. congruence. }
      split; split; try congruence; try tauto; intros; try discriminate.
      exfalso. apply H. discriminate.
  - split; split; try congruence; tauto.
Qed.

End Scan.

(** ** Dictionaries *)

Lemma dict_get_set {V} (d : list (pos * V)) (k k' : pos) (v : V) :
  dict_get (dict_set d k v) k' = if pos_eqb k' k then Some v else dict_get d k'.
Proof.
  induction d as [|[k0 v0] d IH]; simpl.
  - reflexivity.
  - destruct (pos_eqb k k0) eqn:H0; simpl.
    + apply pos_eqb_eq in H0. subst k0.
      destruct (pos_eqb k' k); reflexivity.
    + destruct (pos_eqb k' k0) eqn:H1.
      * apply pos_eqb_eq in H1. subst k0.
        destruct (pos_eqb k' k) eqn:H2; [|reflexivity].
        apply pos_eqb_eq in H2. subst k'. rewrite pos_eqb_refl in H0. discriminate.
      * exact IH.
Qed.

Lemma in_keys_get {V} (d : list (pos * V)) (k : pos) :
  In k (keys d) <-> exists v, dict_get d k = Some v.
Proof.
  unfold keys. induction d as [|[k0 v0] d IH]; simpl.
  - split; [tauto|]. intros [v H]. discriminate.
  - destruct (pos_eqb k k0) eqn:H0.
    + apply pos_eqb_eq in H0. subst. split; eauto.
    + apply pos_eqb_neq in H0. rewrite IH. split.
      * intros [H|H]; [congruence|exact H].
      * auto.
Qed.

Lemma existsb_keys {V} (d : list (pos * V)) (k : pos) :
  existsb (pos_eqb k) (keys d) = true <-> In k (keys d).
Proof.
  rewrite existsb_exists. split.
  - intros [q [Hq He]]. apply pos_eqb_eq in He. subst. exact Hq.
  - intros H. exists k. split; [exact H|apply pos_eqb_refl].
Qed.

Lemma moves_of_set_same pm c d : moves_of (set_moves_of pm c d) c = d.
Proof. destruct c; reflexivity. Qed.

Lemma moves_of_set_other pm c c' d :
  c' <> c -> moves_of (set_moves_of pm c d) c' = moves_of pm c'.
Proof. destruct c, c'; simpl; congruence. Qed.

(** ** The move index computed by [board_change] *)

Lemma adjacency_step (b : board) (p : pos) (pm : moves) (adjacency : colour * pos) :
  let pm' := board_change_adjacency b p pm adjacency in
  (forall c q, q <> p -> dict_get (moves_of pm' c) q = dict_get (moves_of pm c) q) /\
  (forall c, entry pm' c p = entry pm c p ++ found_line b p c adjacency) /\
  (no_empty_entry pm -> no_empty_entry pm').
Proof.
  intros pm'. subst pm'. unfold board_change_adjacency.
  set (mover := FLIP_RULE (fst adjacency)).
  assert (forall c, found_line b p c adjacency =
                    if colour_eqb mover c
                    then match check_flip_line b p c (snd adjacency) with
                         | Some line => [line] | None => [] end
                    else []) as Hf by reflexivity.
  destruct (check_flip_line b p mover (snd adjacency)) as [line|] eqn:Hc.
  - assert (forall new,
      let pm' := set_moves_of pm mover (dict_set (moves_of pm mover) p new) in
      (forall c q, q <> p -> dict_get (moves_of pm' c) q = dict_get (moves_of pm c) q) /\
      (forall c, entry pm' c p = if colour_eqb mover c then new else entry pm c p)) as Hset.
    { intros new pm'. subst pm'. split.
      - intros c q Hq. destruct (colour_eqb mover c) eqn:Hm.
        + apply colour_eqb_eq in Hm. subst c. rewrite moves_of_set_same, dict_get_set.
          apply pos_eqb_neq in Hq. rewrite Hq. reflexivity.
        + rewrite moves_of_set_other; [reflexivity|].
          intros ->. destruct mover; discriminate.
      - intros c. unfold entry. destruct (colour_eqb mover c) eqn:Hm.
        + apply colour_eqb_eq in Hm. subst c. rewrite moves_of_set_same, dict_get_set.
          rewrite pos_eqb_refl. reflexivity.
        + rewrite moves_of_set_other; [reflexivity|].
          intros ->. destruct mover; discriminate. }
    assert (forall c, colour_eqb mover c = true -> c = mover) as Hmc
      by (intros c H; apply colour_eqb_eq in H; congruence).
    destruct (dict_get (moves_of pm mover) p) as [old|] eqn:Hold.
    + destruct (Hset (old ++ [line])) as [H1 H2]. repeat split.
      * exact H1.
      * intros c. rewrite H2, Hf. destruct (colour_eqb mover c) eqn:Hm.
        -- apply Hmc in Hm. subst c. unfold entry. rewrite Hold, Hc. reflexivity.
        -- rewrite app_nil_r. reflexivity.
      * intros Hne c q. destruct (pos_eqb q p) eqn:Hq.
        -- apply pos_eqb_eq in Hq. subst q. specialize (H2 c). unfold entry in H2.
           intros Habs. rewrite Habs in H2.
           destruct (colour_eqb mover c) eqn:Hm.
           ++ destruct old; discriminate.
           ++ destruct (dict_get (moves_of pm c) p) as [l|] eqn:Hl; [|].
              ** subst l. exact (Hne c p Hl).
              ** clear H2. apply colour_eqb_eq in Hm || idtac.
                 assert (c <> mover) as Hcm by (intros ->; destruct mover; discriminate).
                 rewrite moves_of_set_other in Habs by exact Hcm. congruence.
        -- apply pos_eqb_neq in Hq. rewrite H1 by exact Hq. apply Hne.
    + destruct (Hset [line]) as [H1 H2]. repeat split.
      * exact H1.
      * intros c. rewrite H2, Hf. destruct (colour_eqb mover c) eqn:Hm.
        -- apply Hmc in Hm. subst c. unfold entry. rewrite Hold, Hc. reflexivity.
        -- rewrite app_nil_r. reflexivity.
      * intros Hne c q. destruct (pos_eqb q p) eqn:Hq.
        -- apply pos_eqb_eq in Hq. subst q. specialize (H2 c). unfold entry in H2.
           intros Habs. rewrite Habs in H2.
           destruct (colour_eqb mover c) eqn:Hm.
           ++ discriminate.
           ++ assert (c <> mover) as Hcm by (intros ->; destruct mover; discriminate).
              rewrite moves_of_set_other in Habs by exact Hcm. exact (Hne c p Habs).
        -- apply pos_eqb_neq in Hq. rewrite H1 by exact Hq. apply Hne.
  - repeat split; auto. intros c. rewrite Hf.
    destruct (colour_eqb mover c) eqn:Hm.
    + apply colour_eqb_eq in Hm. subst c. rewrite Hc, app_nil_r. reflexivity.
    + rewrite app_nil_r. reflexivity.
Qed.

Lemma adjacency_fold (b : board) (p : pos) (adjs : list (colour * pos)) :
  forall pm,
  let pm' := fold_left (board_change_adjacency b p) adjs pm in
  (forall c q, q <> p -> dict_get (moves_of pm' c) q = dict_get (moves_of pm c) q) /\
  (forall c, entry pm' c p = entry pm c p ++ flat_map (found_line b p c) adjs) /\
  (no_empty_entry pm -> no_empty_entry pm').
Proof.
  induction adjs as [|a adjs IH]; intros pm; cbn [fold_left flat_map].
  - repeat split; auto. intros c. rewrite app_nil_r. reflexivity.
  - destruct (adjacency_step b p pm a) as (S1 & S2 & S3).
    destruct (IH (board_change_adjacency b p pm a)) as (I1 & I2 & I3).
    repeat split.
    + intros c q Hq. rewrite I1, S1 by exact Hq. reflexivity.
    + intros c. rewrite I2, S2, app_assoc. reflexivity.
    + auto.
Qed.

Lemma cell_step (b : board) (pm : moves) (p : pos) :
  let pm' := board_change_cell b pm p in
  (forall c q, q <> p -> dict_get (moves_of pm' c) q = dict_get (moves_of pm c) q) /\
  (forall c, entry pm' c p = entry pm c p ++ lines_at b p c) /\
  (no_empty_entry pm -> no_empty_entry pm').
Proof.
  unfold board_change_cell, lines_at.
  destruct (cell_at b (fst p) (snd p)) as [|c0].
  - apply adjacency_fold.
  - repeat split; auto. intros c. rewrite app_nil_r. reflexivity.
Qed.

Lemma cells_fold (b : board) (cells : list pos) :
  NoDup cells ->
  forall pm,
  no_empty_entry pm ->
  (forall c q, In q cells -> dict_get (moves_of pm c) q = None) ->
  let pm' := fold_left (board_change_cell b) cells pm in
  no_empty_entry pm' /\
  (forall c q, In q cells -> entry pm' c q = lines_at b q c) /\
  (forall c q, ~ In q cells -> dict_get (moves_of pm' c) q = dict_get (moves_of pm c) q).
Proof.
  induction 1 as [|p cells Hnin Hnd IH]; intros pm Hne Hfresh; cbn [fold_left].
  - repeat split; auto. intros c q [].
  - destruct (cell_step b pm p) as (S1 & S2 & S3).
    destruct (IH (board_change_cell b pm p)) as (I1 & I2 & I3).
    + auto.
    + intros c q Hq. rewrite S1.
      * apply Hfresh. right. exact Hq.
      * intros ->. contradiction.
    + repeat split.
      * exact I1.
      * intros c q [<- | Hq].
        -- unfold entry. rewrite I3 by exact Hnin. fold (entry (board_change_cell b pm p) c p).
           rewrite S2. unfold entry. rewrite Hfresh by (left; reflexivity). reflexivity.
        -- apply I2. exact Hq.
      * intros c q Hq. rewrite I3.
        -- apply S1. intros ->. apply Hq. left. reflexivity.
        -- intros Hin. apply Hq. right. exact Hin.
Qed.

Lemma NoDup_all_cells : NoDup all_cells.
Proof.
  assert (forall l : list pos,
            forallb (fun pq => negb (pos_eqb (fst pq) (snd pq)))
                    (flat_map (fun i => map (fun q => (nth i l (0, 0), q)) (skipn (S i) l))
                       (seq 0 (length l))) = true ->
            NoDup l) as Hdec.
  { intros l H. apply (NoDup_nth l (0, 0)). intros i j Hi Hj Hij.
    destruct (Nat.eq_dec i j) as [|Hne]; [assumption|exfalso].
    rewrite forallb_forall in H.
    assert (forall i j, (i < j)%nat -> (j < length l)%nat -> nth i l (0,0) <> nth j l (0,0)) as Hlt.
    { clear i j Hi Hj Hij Hne. intros i j Hij Hj Heq.
      specialize (H (nth i l (0,0), nth j l (0,0))).
      rewrite Heq in H. cbn [fst snd] in H. rewrite pos_eqb_refl in H.
      assert (true = false -> False) as Hf by discriminate. apply Hf. symmetry.
      apply H. apply in_flat_map. exists i. split; [apply in_seq; lia|].
      apply in_map_iff. exists (nth j l (0,0)). split; [rewrite Heq; reflexivity|].
      replace j with (S i + (j - S i))%nat at 1 by lia.
      rewrite <- nth_skipn. apply nth_In. rewrite length_skipn. lia. }
    destruct (Nat.lt_ge_cases i j) as [Hl|Hl].
    - exact (Hlt i j Hl Hj Hij).
    - apply (Hlt j i); [lia|exact Hi|symmetry; exact Hij]. }
  apply Hdec. vm_compute. reflexivity.
Qed.

(** The index that [board_change] builds, key by key. *)
Lemma board_change_get (b : board) (c : colour) (q : pos) :
  dict_get (moves_of (board_change b) c) q =
  if existsb (pos_eqb q) all_cells then
    match lines_at b q c with [] => None | l => Some l end
  else None.
Proof.
  unfold board_change.
  destruct (cells_fold b all_cells NoDup_all_cells {| moves_W := []; moves_B := [] |})
    as (H1 & H2 & H3).
  - intros c' q'. destruct c'; simpl; discriminate.
  - intros c' q' _. destruct c'; reflexivity.
  - destruct (existsb (pos_eqb q) all_cells) eqn:Hin.
    + assert (In q all_cells) as Hq.
      { apply existsb_exists in Hin. destruct Hin as [q' [Hq' He]].
        apply pos_eqb_eq in He. subst. exact Hq'. }
      specialize (H2 c q Hq). unfold entry in H2.
      destruct (dict_get (moves_of (fold_left (board_change_cell b) all_cells
                  {| moves_W := []; moves_B := [] |}) c) q) as [l|] eqn:Hg.
      * subst l. destruct (lines_at b q c) eqn:Hl; [|reflexivity].
        exfalso. exact (H1 c q Hg).
      * rewrite <- H2. reflexivity.
    + rewrite H3.
      * destruct c; reflexivity.
      * intros Hq. assert (existsb (pos_eqb q) all_cells = true) as Ht.
        { apply existsb_exists. exists q. split; [exact Hq|apply pos_eqb_refl]. }
        congruence.
Qed.

Lemma flat_map_flat_map {A B C} (f : A -> list B) (g : B -> list C) (l : list A) :
  flat_map g (flat_map f l) = flat_map (fun x => flat_map g (f x)) l.
Proof.
  induction l as [|a l IH]; simpl; [reflexivity|].
  rewrite flat_map_app, IH. reflexivity.
Qed.

Lemma NoDup_flat_map_self {A} (h : A -> list A) (l : list A) :
  NoDup l -> (forall x, h x = [] \/ h x = [x]) -> NoDup (flat_map h l).
Proof.
  intros Hnd Hh. induction Hnd as [|a l Hnin Hnd IH]; simpl; [constructor|].
  destruct (Hh a) as [-> | ->]; simpl; [exact IH|].
  constructor; [|exact IH].
  intros Hin. apply in_flat_map in Hin. destruct Hin as [x [Hx Hax]].
  destruct (Hh x) as [H|H]; rewrite H in Hax; simpl in Hax; [contradiction|].
  destruct Hax as [->|[]]. contradiction.
Qed.

Lemma cell_lines_directions b p c :
  cell_lines b p c = flat_map (direction_lines b p c) FLIP_LINES.
Proof. unfold cell_lines, adjacent. apply flat_map_flat_map. Qed.

Lemma direction_lines_cases b p c step :
  direction_lines b p c step = [] \/ direction_lines b p c step = [step].
Proof.
  unfold direction_lines.
  destruct ((0 <=? fst p + fst step) && (fst p + fst step <? BOARD_SIZE) &&
            (0 <=? snd p + snd step) && (snd p + snd step <? BOARD_SIZE));
    [|left; reflexivity].
  destruct (cell_at b (fst p + fst step) (snd p + snd step)) as [|c'];
    [left; reflexivity|].
  cbn [flat_map]. rewrite app_nil_r. unfold found_line. cbn [fst snd].
  destruct (colour_eqb (FLIP_RULE c') c); [|left; reflexivity].
  destruct (check_flip_line b p c step) as [line|] eqn:Hc; [|left; reflexivity].
  apply check_flip_line_step in Hc. subst. right. reflexivity.
Qed.

Lemma direction_lines_captures b p c step :
  0 <= fst p < 8 /\ 0 <= snd p < 8 -> is_direction step ->
  (direction_lines b p c step = [step] <-> captures b p c step).
Proof.
  intros Hp Hd.
  destruct (check_flip_line_captures b p c step Hp Hd) as [Hsome Hnone].
  unfold direction_lines. split.
  - destruct ((0 <=? fst p + fst step) && (fst p + fst step <? BOARD_SIZE) &&
              (0 <=? snd p + snd step) && (snd p + snd step <? BOARD_SIZE));
      [|discriminate].
    destruct (cell_at b (fst p + fst step) (snd p + snd step)) as [|c'];
      [discriminate|].
    cbn [flat_map]. rewrite app_nil_r. unfold found_line. cbn [fst snd].
    destruct (colour_eqb (FLIP_RULE c') c); [|discriminate].
    destruct (check_flip_line b p c step) as [line|] eqn:Hc; [|discriminate].
    intros H. apply Hsome. congruence.
  - intros Hcap. pose proof Hcap as (k & Hk & Hrun & _).
    destruct (Hrun 1) as [[Hgx Hgy] Hcell]; [lia|].
    unfold cell_on in Hcell.
    replace (fst step * 1 + fst p) with (fst p + fst step) in * by lia.
    replace (snd step * 1 + snd p) with (snd p + snd step) in * by lia.
    unfold BOARD_SIZE.
    replace ((0 <=? fst p + fst step) && (fst p + fst step <? 8) &&
             (0 <=? snd p + snd step) && (snd p + snd step <? 8)) with true.
    2:{ symmetry. rewrite !andb_true_iff, !Z.leb_le, !Z.ltb_lt. lia. }
    rewrite Hcell. cbn [flat_map]. rewrite app_nil_r. unfold found_line. cbn [fst snd].
    rewrite FLIP_RULE_involutive.
    replace (colour_eqb c c) with true by (symmetry; apply colour_eqb_eq; reflexivity).
    apply Hsome in Hcap. rewrite Hcap. reflexivity.
Qed.

Lemma in_cell_lines b p c d :
  0 <= fst p < 8 /\ 0 <= snd p < 8 ->
  (In d (cell_lines b p c) <-> is_direction d /\ captures b p c d).
Proof.
  intros Hp. rewrite cell_lines_directions, in_flat_map. split.
  - intros [step [Hstep Hin]]. apply FLIP_LINES_directions in Hstep.
    destruct (direction_lines_cases b p c step) as [H|H]; rewrite H in Hin.
    + contradiction.
    + destruct Hin as [<-|[]]. split; [exact Hstep|].
      apply direction_lines_captures; assumption.
  - intros [Hd Hcap]. exists d. split; [apply FLIP_LINES_directions; exact Hd|].
    apply direction_lines_captures in Hcap; try assumption.
    rewrite Hcap. left. reflexivity.
Qed.

Lemma NoDup_cell_lines b p c : NoDup (cell_lines b p c).
Proof.
  rewrite cell_lines_directions.
  apply NoDup_flat_map_self; [exact NoDup_FLIP_LINES|].
  apply direction_lines_cases.
Qed.

Lemma existsb_all_cells (q : pos) :
  existsb (pos_eqb q) all_cells = true <-> 0 <= fst q < 8 /\ 0 <= snd q < 8.
Proof.
  rewrite <- in_all_cells, existsb_exists. split.
  - intros [q' [Hq He]]. apply pos_eqb_eq in He. subst. exact Hq.
  - intros H. exists q. split; [exact H|apply pos_eqb_refl].
Qed.

(** The keys of the recomputed index and the directions stored under them. *)
Lemma board_change_index (b : board) (c : colour) (p : pos) :
  (In p (keys (moves_of (board_change b) c)) <->
     (0 <= fst p < 8 /\ 0 <= snd p < 8) /\
     cell_at b (fst p) (snd p) = E /\
     exists d, is_direction d /\ captures b p c d) /\
  (forall dirs, dict_get (moves_of (board_change b) c) p = Some dirs ->
     NoDup dirs /\ forall d, In d dirs <-> is_direction d /\ captures b p c d).
Proof.
  split.
  - rewrite in_keys_get, board_change_get. split.
    + intros [v Hv].
      destruct (existsb (pos_eqb p) all_cells) eqn:Hin; [|discriminate].
      apply existsb_all_cells in Hin. split; [exact Hin|].
      unfold lines_at in Hv.
      destruct (cell_at b (fst p) (snd p)); [|discriminate].
      split; [reflexivity|].
      destruct (cell_lines b p c) as [|d l] eqn:Hl; [discriminate|].
      exists d. apply in_cell_lines; [exact Hin|]. rewrite Hl. left. reflexivity.
    + intros (Hin & He & d & Hd).
      apply existsb_all_cells in Hin as Hin'. rewrite Hin'.
      unfold lines_at. rewrite He.
      destruct (cell_lines b p c) as [|d' l] eqn:Hl; [|eauto].
      exfalso. apply (in_cell_lines b p c d Hin) in Hd. rewrite Hl in Hd. exact Hd.
  - intros dirs. rewrite board_change_get.
    destruct (existsb (pos_eqb p) all_cells) eqn:Hin; [|discriminate].
    apply existsb_all_cells in Hin. unfold lines_at.
    destruct (cell_at b (fst p) (snd p)).
    + destruct (cell_lines b p c) as [|d' l] eqn:Hl; [discriminate|].
      intros H. inversion H; subst dirs. rewrite <- Hl. split.
      * apply NoDup_cell_lines.
      * intros d. apply in_cell_lines. exact Hin.
    + discriminate.
Qed.

(** C2 -- after [board_change] a cell is a key of [possible_moves[colour]]
    iff it is an empty cell of the grid from which the colour captures along
    at least one of the eight directions (an unbroken run of one or more
    opposing pieces closed by a piece of the colour), and the list stored
    under the key holds exactly the capturing directions, each once. *)
Theorem board_change_sound (b : board) (c : colour) (p : pos) :
  wf_board b ->
  (In p (keys (moves_of (board_change b) c)) <->
     (0 <= fst p < 8 /\ 0 <= snd p < 8) /\
     cell_at b (fst p) (snd p) = E /\
     exists d, is_direction d /\ captures b p c d) /\
  (forall dirs, dict_get (moves_of (board_change b) c) p = Some dirs ->
     NoDup dirs /\ forall d, In d dirs <-> is_direction d /\ captures b p c d).
Proof. intros _. apply board_change_index. Qed.

(** ** Terminal positions *)

Lemma dict_eqb_nil (d : move_dict) : dict_eqb d [] = true <-> d = [].
Proof.
  unfold dict_eqb. destruct d as [|kv d]; simpl; split; try reflexivity; discriminate.
Qed.

Lemma both_empty_test (pm : moves) :
  dict_eqb (moves_B pm) (moves_W pm) && dict_eqb (moves_W pm) [] = true <->
  moves_W pm = [] /\ moves_B pm = [].
Proof.
  rewrite andb_true_iff, dict_eqb_nil. split.
  - intros [H1 H2]. rewrite H2 in H1. apply dict_eqb_nil in H1. auto.
  - intros [H1 H2]. rewrite H1, H2. split; reflexivity.
Qed.

(** A legal move needs a piece of each colour on the grid. *)
Lemma move_needs_both_colours (b : board) (c : colour) :
  moves_of (board_change b) c <> [] ->
  1 <= white_count b /\ 1 <= black_count b.
Proof.
  intros Hne.
  destruct (moves_of (board_change b) c) as [|[p dirs] rest] eqn:Hm; [congruence|].
  assert (In p (keys (moves_of (board_change b) c))) as Hin
    by (rewrite Hm; left; reflexivity).
  rewrite in_keys_get, board_change_get in Hin. destruct Hin as [v Hv].
  destruct (existsb (pos_eqb p) all_cells) eqn:Hcells; [|discriminate].
  apply existsb_all_cells in Hcells.
  unfold lines_at in Hv. destruct (cell_at b (fst p) (snd p)); [|discriminate].
  destruct (cell_lines b p c) as [|d l] eqn:Hl; [discriminate|].
  assert (In d (cell_lines b p c)) as Hd by (rewrite Hl; left; reflexivity).
  apply in_cell_lines in Hd; [|exact Hcells].
  destruct Hd as [_ (k & Hk & Hrun & [Hgx Hgy] & Hanchor)].
  destruct (Hrun 1) as [[Hx Hy] Hopp]; [lia|].
  unfold cell_on in *.
  pose proof (cell_counted b _ _ _ Hgx Hgy Hanchor) as H1.
  pose proof (cell_counted b _ _ _ Hx Hy Hopp) as H2.
  unfold white_count, black_count. destruct c; simpl in *; auto.
Qed.

(** [check_if_terminal] on a recomputed index. *)
Lemma check_if_terminal_index (s : HashedLocalVersus.t) :
  let b := HashedLocalVersus.board (HashedLocalVersus.board_state s) in
  let pm := HashedLocalVersus.possible_moves s in
  pm = board_change b ->
  (AI.check_if_terminal s = true <-> moves_W pm = [] /\ moves_B pm = []) /\
  (~ (moves_W pm = [] /\ moves_B pm = []) ->
   fst (nth 1 (AI.sorted_counts b) (0, E)) <> 0).
Proof.
  intros b pm Hpm.
  assert (~ (moves_W pm = [] /\ moves_B pm = []) ->
          fst (nth 1 (AI.sorted_counts b) (0, E)) <> 0) as Hminor.
  { intros Hsome.
    assert (1 <= white_count b /\ 1 <= black_count b) as [Hw Hk].
    { destruct (moves_W pm) as [|x l] eqn:HW.
      - apply (move_needs_both_colours b B). rewrite <- Hpm. simpl.
        intros HB. apply Hsome. auto.
      - apply (move_needs_both_colours b W). rewrite <- Hpm. simpl.
        rewrite HW. discriminate. }
    rewrite sorted_counts_spec.
    destruct (white_count b <? black_count b); simpl; lia. }
  split; [|exact Hminor].
  unfold AI.check_if_terminal. fold pm. fold b.
  destruct (dict_eqb (moves_B pm) (moves_W pm) && dict_eqb (moves_W pm) []) eqn:H1.
  - apply both_empty_test in H1. tauto.
  - assert (~ (moves_W pm = [] /\ moves_B pm = [])) as Hsome.
    { intros H. apply both_empty_test in H. congruence. }
    specialize (Hminor Hsome). apply Z.eqb_neq in Hminor. rewrite Hminor.
    destruct (dict_eqb (moves_B pm) [] || dict_eqb (moves_W pm) []);
      split; try discriminate; tauto.
Qed.

(** C10 -- on a board whose move index was recomputed by [board_change],
    [check_if_terminal] answers [True] iff both colours' mappings are empty:
    when exactly one mapping is empty both colours still have a piece on the
    grid, so the extra branch on a zero minority count answers [False]. *)
Theorem check_if_terminal_iff (s : HashedLocalVersus.t) :
  let b := HashedLocalVersus.board (HashedLocalVersus.board_state s) in
  let pm := HashedLocalVersus.possible_moves s in
  wf_board b ->
  pm = board_change b ->
  (AI.check_if_terminal s = true <-> moves_W pm = [] /\ moves_B pm = []) /\
  (~ (moves_W pm = [] /\ moves_B pm = []) ->
   fst (nth 1 (AI.sorted_counts b) (0, E)) <> 0).
Proof. intros b pm _. apply check_if_terminal_index. Qed.

(** ** Updating a cell of the grid *)

Lemma length_list_set {A} (l : list A) (n : nat) (v : A) :
  length (list_set l n v) = length l.
Proof.
  revert n. induction l as [|a l IH]; intros [|n]; simpl; auto.
Qed.

Lemma nth_list_set {A} (l : list A) (n m : nat) (v d : A) :
  (n < length l)%nat ->
  nth m (list_set l n v) d = if Nat.eqb m n then v else nth m l d.
Proof.
  revert n m. induction l as [|a l IH]; intros [|n] [|m] H; simpl in *;
    try lia; try reflexivity.
  apply IH. lia.
Qed.

Lemma nth_list_set_out {A} (l : list A) (n : nat) (v : A) :
  (length l <= n)%nat -> list_set l n v = l.
Proof.
  revert n. induction l as [|a l IH]; intros [|n] H; simpl in *;
    try lia; try reflexivity.
  f_equal. apply IH. lia.
Qed.

Lemma wf_board_row (b : board) (n : nat) :
  wf_board b -> (n < 8)%nat -> length (nth n b []) = 8%nat.
Proof.
  intros [Hl Hr] Hn. rewrite Forall_forall in Hr. apply Hr. apply nth_In. lia.
Qed.

Lemma wf_set_cell (b : board) (x y : Z) (v : cell) :
  wf_board b -> wf_board (set_cell b x y v).
Proof.
  intros [Hl Hr]. unfold set_cell. split.
  - rewrite length_list_set. exact Hl.
  - rewrite Forall_forall in *. intros row Hrow.
    destruct (In_nth _ _ [] Hrow) as [n [Hn Hrow']].
    rewrite length_list_set in Hn.
    destruct (Nat.lt_ge_cases (Z.to_nat y) (length b)) as [Hy|Hy].
    + rewrite nth_list_set in Hrow' by exact Hy.
      destruct (Nat.eqb n (Z.to_nat y)).
      * subst row. rewrite length_list_set. apply Hr. apply nth_In. exact Hy.
      * subst row. apply Hr. apply nth_In. exact Hn.
    + rewrite nth_list_set_out in Hrow by exact Hy. apply Hr. exact Hrow.
Qed.

Lemma cell_at_set_cell (b : board) (x y x' y' : Z) (v : cell) :
  wf_board b -> 0 <= x < 8 -> 0 <= y < 8 -> 0 <= x' -> 0 <= y' ->
  cell_at (set_cell b x y v) x' y' =
  if (x' =? x) && (y' =? y) then v else cell_at b x' y'.
Proof.
  intros Hwf Hx Hy Hx' Hy'. unfold cell_at, set_cell.
  pose proof Hwf as [Hl Hr].
  rewrite (nth_list_set b) by lia.
  destruct (Nat.eqb_spec (Z.to_nat y') (Z.to_nat y)) as [Hey|Hey].
  - assert (y' = y) as -> by lia. rewrite Z.eqb_refl, andb_true_r.
    rewrite nth_list_set by (rewrite wf_board_row; [lia|exact Hwf|lia]).
    destruct (Nat.eqb_spec (Z.to_nat x') (Z.to_nat x)) as [Hex|Hex].
    + assert (x' = x) as -> by lia. rewrite Z.eqb_refl. reflexivity.
    + assert (x' <> x) as Hne by lia. apply Z.eqb_neq in Hne. rewrite Hne. reflexivity.
  - assert (y' <> y) as Hne by lia. apply Z.eqb_neq in Hne.
    rewrite Hne, andb_false_r. reflexivity.
Qed.

Lemma py_setitem2_on_grid (b : board) (x y : Z) (v : cell) :
  wf_board b -> 0 <= x < 8 -> 0 <= y < 8 ->
  py_setitem2 b y x v = Some (set_cell b x y v).
Proof.
  intros Hwf Hx Hy. pose proof Hwf as [Hl Hr]. unfold py_setitem2, py_index.
  rewrite Hl.
  replace ((0 <=? y) && (y <? Z.of_nat 8)) with true
    by (symmetry; rewrite andb_true_iff, Z.leb_le, Z.ltb_lt; lia).
  rewrite wf_board_row by (exact Hwf || lia).
  replace ((0 <=? x) && (x <? Z.of_nat 8)) with true
    by (symmetry; rewrite andb_true_iff, Z.leb_le, Z.ltb_lt; lia).
  reflexivity.
Qed.

(** ** Zobrist hashing *)

Section Zobrist.

Variable tbl : list (list Z).

Lemma zobrist_hash_fold (b : board) :
  HashedLocalVersus.zobrist_hash tbl b =
  fold_left (fun h q => Z.lxor h (zobrist_term tbl b q)) all_cells 0.
Proof.
  unfold HashedLocalVersus.zobrist_hash.
  rewrite (fold_left_nested
             (fun h y x => Z.lxor h (table_at tbl (y * BOARD_SIZE + x)
                                       (XOR_INDICES (cell_at b x y))))).
  reflexivity.
Qed.

Lemma xor_fold_acc {A} (g : A -> Z) (l : list A) (a z : Z) :
  fold_left (fun h q => Z.lxor h (g q)) l (Z.lxor a z) =
  Z.lxor (fold_left (fun h q => Z.lxor h (g q)) l a) z.
Proof.
  revert a. induction l as [|q l IH]; intros a; simpl; [reflexivity|].
  rewrite <- IH. f_equal.
  rewrite !Z.lxor_assoc. f_equal. apply Z.lxor_comm.
Qed.

Lemma xor_fold_ext {A} (g g' : A -> Z) (l : list A) (a : Z) :
  (forall q, In q l -> g' q = g q) ->
  fold_left (fun h q => Z.lxor h (g' q)) l a =
  fold_left (fun h q => Z.lxor h (g q)) l a.
Proof.
  revert a. induction l as [|q l IH]; intros a H; simpl; [reflexivity|].
  rewrite H by (left; reflexivity). apply IH. intros q' Hq'. apply H. right. exact Hq'.
Qed.

Lemma xor_fold_update {A} (g g' : A -> Z) (l : list A) (q0 : A) :
  NoDup l -> In q0 l ->
  (forall q, In q l -> q <> q0 -> g' q = g q) ->
  forall a,
  fold_left (fun h q => Z.lxor h (g' q)) l a =
  Z.lxor (Z.lxor (fold_left (fun h q => Z.lxor h (g q)) l a) (g q0)) (g' q0).
Proof.
  induction 1 as [|q l Hnin Hnd IH]; intros Hin Hext a; [destruct Hin|].
  simpl. destruct Hin as [-> | Hin].
  - rewrite (xor_fold_ext g g').
    + rewrite !xor_fold_acc.
      rewrite (Z.lxor_assoc _ (g q0) (g q0)), Z.lxor_nilpotent, Z.lxor_0_r.
      reflexivity.
    + intros q Hq. apply Hext; [right; exact Hq|]. intros ->. contradiction.
  - rewrite (Hext q) by (try (left; reflexivity); intros ->; contradiction).
    apply IH; [exact Hin|]. intros q' Hq'. apply Hext. right. exact Hq'.
Qed.

(** Writing one cell toggles the old and the new term of that cell. *)
Lemma zobrist_hash_set_cell (b : board) (x y : Z) (v : cell) :
  wf_board b -> 0 <= x < 8 -> 0 <= y < 8 ->
  HashedLocalVersus.zobrist_hash tbl (set_cell b x y v) =
  Z.lxor (Z.lxor (HashedLocalVersus.zobrist_hash tbl b)
            (table_at tbl (y * BOARD_SIZE + x) (XOR_INDICES (cell_at b x y))))
         (table_at tbl (y * BOARD_SIZE + x) (XOR_INDICES v)).
Proof.
  intros Hwf Hx Hy. rewrite !zobrist_hash_fold.
  rewrite (xor_fold_update (zobrist_term tbl b) (zobrist_term tbl (set_cell b x y v))
             all_cells (y, x) NoDup_all_cells).
  - unfold zobrist_term at 2 3. cbn [fst snd].
    rewrite cell_at_set_cell by (assumption || lia).
    rewrite !Z.eqb_refl. reflexivity.
  - apply in_all_cells. simpl. lia.
  - intros q Hq Hne. apply in_all_cells in Hq. unfold zobrist_term.
    rewrite cell_at_set_cell by (assumption || lia).
    destruct (Z.eqb_spec (snd q) x) as [Hxq|Hxq];
      destruct (Z.eqb_spec (fst q) y) as [Hyq|Hyq]; try reflexivity.
    exfalso. apply Hne. destruct q; simpl in *; congruence.
Qed.

End Zobrist.

Lemma py_table_on_grid (tbl : list (list Z)) (x y : Z) (c : cell) :
  wf_table tbl -> 0 <= x < 8 -> 0 <= y < 8 ->
  py_table tbl (y * BOARD_SIZE + x) (XOR_INDICES c) =
  Some (table_at tbl (y * BOARD_SIZE + x) (XOR_INDICES c)).
Proof.
  intros [Hl Hrows] Hx Hy. unfold py_table, py_index, table_at, BOARD_SIZE.
  rewrite Hl.
  replace ((0 <=? y * 8 + x) && (y * 8 + x <? Z.of_nat 64)) with true
    by (symmetry; rewrite andb_true_iff, Z.leb_le, Z.ltb_lt; lia).
  rewrite Forall_forall in Hrows.
  destruct (Hrows (nth (Z.to_nat (y * 8 + x)) tbl [])) as [Hlen _].
  { apply nth_In. lia. }
  rewrite Hlen.
  replace ((0 <=? XOR_INDICES c) && (XOR_INDICES c <? Z.of_nat 3)) with true
    by (symmetry; rewrite andb_true_iff, Z.leb_le, Z.ltb_lt;
        destruct c as [|[|]]; simpl; lia).
  reflexivity.
Qed.

(** ** Placing a piece on the hashed board *)

Lemma NoDup_range (lo hi : Z) : NoDup (range lo hi).
Proof.
  unfold range. apply Injective_map_NoDup; [|apply seq_NoDup].
  intros m n H. lia.
Qed.

Lemma for_each_cons {S A} (body : A -> S -> S * option exn) (a : A) (l : list A) (s : S) :
  for_each body (a :: l) s =
  match body a s with
  | (s', None) => for_each body l s'
  | (s', Some e) => (s', Some e)
  end.
Proof. reflexivity. Qed.

(** A loop keeps what every iteration keeps, whether or not it raises. *)
Lemma for_each_preserves {S A} (I : S -> Prop) (body : A -> S -> S * option exn)
    (l : list A) :
  (forall a s, In a l -> I s -> I (fst (body a s))) ->
  forall s, I s -> I (fst (for_each body l s)).
Proof.
  induction l as [|a l IH]; intros Hbody s Hs; [exact Hs|].
  rewrite for_each_cons.
  pose proof (Hbody a s (or_introl eq_refl) Hs) as Ha.
  destruct (body a s) as [s' [e|]]; [exact Ha|].
  apply IH; [|exact Ha]. intros a' s0 Hin. apply Hbody. right. exact Hin.
Qed.

(** A loop whose iterations never raise does not raise. *)
Lemma for_each_no_raise {S A} (I : S -> Prop) (body : A -> S -> S * option exn)
    (l : list A) :
  (forall a s, In a l -> I s -> I (fst (body a s)) /\ snd (body a s) = None) ->
  forall s, I s -> snd (for_each body l s) = None.
Proof.
  induction l as [|a l IH]; intros Hbody s Hs; [reflexivity|].
  rewrite for_each_cons.
  destruct (Hbody a s (or_introl eq_refl) Hs) as [Ha Hn].
  destruct (body a s) as [s' [e|]]; [discriminate Hn|].
  apply IH; [|exact Ha]. intros a' s0 Hin. apply Hbody. right. exact Hin.
Qed.

Lemma line_cells_spec (b : board) (p : pos) (c : colour) (step : pos) :
  line_cells b p c step = [] \/
  exists i, 2 <= i < 8 /\
    line_cells b p c step =
      map (fun z => (fst step * z + fst p, snd step * z + snd p, step)) (range 1 i) /\
    forall j, 1 <= j < i ->
      on_grid p step j /\ cell_on b p step j = Piece (FLIP_RULE c).
Proof.
  unfold line_cells.
  destruct (line_scan b p c step false (range 1 BOARD_SIZE) 0) as [[|] i] eqn:Hs;
    [|left; reflexivity].
  right. apply line_scan_spec in Hs. destruct Hs as (Hi & Hrun & _).
  exists i. auto.
Qed.

Module HashedFacts.

Import HashedLocalVersus.

Lemma flip_consistent (tbl : list (list Z)) (pm : moves) (p : pos) (s : t) :
  0 <= fst p < 8 -> 0 <= snd p < 8 ->
  consistent tbl s /\ possible_moves s = pm ->
  consistent tbl (fst (flip p s)) /\ possible_moves (fst (flip p s)) = pm.
Proof.
  intros Hx Hy [(Hwf & Htbl & Hh) Hpm]. unfold flip.
  destruct (cell_at (board (board_state s)) (fst p) (snd p)) as [|c] eqn:Hc.
  - cbn [fst]. split; [exact (conj Hwf (conj Htbl Hh))|exact Hpm].
  - cbn [fst board_state board hash_num possible_moves table].
    split; [split; [|split]|exact Hpm].
    + apply wf_set_cell. exact Hwf.
    + exact Htbl.
    + cbn [board_state board hash_num].
      rewrite zobrist_hash_set_cell by assumption.
      unfold xor_cell. rewrite Htbl, Hh, Hc. reflexivity.
Qed.

Lemma flip_line_consistent (tbl : list (list Z)) (pm : moves) (p : pos) (c : colour) (s : t) :
  consistent tbl s /\ possible_moves s = pm ->
  consistent tbl (fst (flip_line p c s)) /\ possible_moves (fst (flip_line p c s)) = pm.
Proof.
  intros Hs. unfold flip_line.
  destruct (dict_get (moves_of (self_possible_moves s) c) p) as [lines|]; [|exact Hs].
  apply (for_each_preserves (fun s => consistent tbl s /\ possible_moves s = pm));
    [|exact Hs].
  intros step s1 _ Hs1.
  apply (for_each_preserves (fun s => consistent tbl s /\ possible_moves s = pm));
    [|exact Hs1].
  intros [[x y] st] s2 Hin Hs2. cbn [fst snd self_flip object].
  destruct (line_cells_spec (self_board s1) p c step) as [Hnil|(i & Hi & Heq & Hrun)].
  - rewrite Hnil in Hin. destruct Hin.
  - rewrite Heq in Hin. apply in_map_iff in Hin. destruct Hin as [z [Hz Hzin]].
    inversion Hz; subst. apply in_range_list in Hzin.
    destruct (Hrun z Hzin) as [[Hgx Hgy] _].
    apply flip_consistent; assumption.
Qed.

(** Flipping the cells of one scanned line never raises. *)
Lemma flip_cells_no_raise (p step : pos) (zs : list Z) :
  is_direction step -> NoDup zs ->
  forall s,
  wf_board (board (board_state s)) ->
  (forall z, In z zs ->
     on_grid p step z /\ cell_on (board (board_state s)) p step z <> E) ->
  wf_board (board (board_state
    (fst (for_each (fun cl => flip (fst (fst cl), snd (fst cl)))
            (map (fun z => (fst step * z + fst p, snd step * z + snd p, step)) zs) s)))) /\
  snd (for_each (fun cl => flip (fst (fst cl), snd (fst cl)))
         (map (fun z => (fst step * z + fst p, snd step * z + snd p, step)) zs) s) = None.
Proof.
  intros Hd Hnd. induction Hnd as [|z zs Hnin Hnd IH]; intros s Hwf Hcells.
  - split; [exact Hwf|reflexivity].
  - cbn [map]. rewrite for_each_cons. cbn [fst snd].
    destruct (Hcells z (or_introl eq_refl)) as [[Hgx Hgy] Hne].
    unfold flip at 1 3. unfold cell_on in Hne. cbn [fst snd].
    destruct (cell_at (board (board_state s)) (fst step * z + fst p)
                (snd step * z + snd p)) as [|c0] eqn:Hc; [congruence|].
    apply IH.
    + cbn [board_state board]. apply wf_set_cell. exact Hwf.
    + intros z' Hz'. destruct (Hcells z' (or_intror Hz')) as [[Hgx' Hgy'] Hne'].
      split; [split; assumption|].
      cbn [board_state board]. unfold cell_on in *.
      rewrite cell_at_set_cell by (assumption || lia).
      assert (z' <> z) as Hzz by (intros ->; contradiction).
      destruct Hd as (Hsx & Hsy & Hs0). destruct step as [sx sy]. cbn [fst snd] in *.
      destruct (Z.eqb_spec (sx * z' + fst p) (sx * z + fst p)) as [Hex|Hex];
        destruct (Z.eqb_spec (sy * z' + snd p) (sy * z + snd p)) as [Hey|Hey];
        cbn [andb]; try exact Hne'.
      exfalso. assert (sx <> 0 \/ sy <> 0) as [H0|H0].
      { destruct (Z.eq_dec sx 0); [right|left]; congruence. }
      * assert (sx = 1 \/ sx = -1) as [-> | ->] by lia; lia.
      * assert (sy = 1 \/ sy = -1) as [-> | ->] by lia; lia.
Qed.

Lemma flip_line_no_raise (p : pos) (c : colour) (s : t) (lines : list pos) :
  wf_board (board (board_state s)) ->
  dict_get (moves_of (possible_moves s) c) p = Some lines ->
  (forall d, In d lines -> is_direction d) ->
  snd (flip_line p c s) = None.
Proof.
  intros Hwf Hget Hdirs. unfold flip_line. cbn [self_possible_moves object].
  rewrite Hget.
  apply (for_each_no_raise (fun s => wf_board (board (board_state s)))); [|exact Hwf].
  intros step s1 Hstep Hwf1. cbn [self_flip self_board object].
  destruct (line_cells_spec (board (board_state s1)) p c step)
    as [Hnil|(i & Hi & Heq & Hrun)].
  - rewrite Hnil. split; [exact Hwf1|reflexivity].
  - rewrite Heq. apply flip_cells_no_raise.
    + apply Hdirs. exact Hstep.
    + apply NoDup_range.
    + exact Hwf1.
    + intros z Hz. apply in_range_list in Hz. destruct (Hrun z Hz) as [Hg Hc].
      split; [exact Hg|]. rewrite Hc. discriminate.
Qed.

(** A legal move is placed without an exception; the grid stays 8x8, the
    hash stays the hash of the grid and the move index is recomputed. *)
Lemma place_legal (tbl : list (list Z)) (p : pos) (c : colour) (s : t) :
  wf_table tbl ->
  consistent tbl s ->
  possible_moves s = board_change (board (board_state s)) ->
  In p (keys (moves_of (possible_moves s) c)) ->
  snd (place p c s) = None /\
  consistent tbl (fst (place p c s)) /\
  possible_moves (fst (place p c s)) =
    board_change (board (board_state (fst (place p c s)))).
Proof.
  intros Hwt (Hwf & Htbl & Hh) Hpm Hin.
  destruct (board_change_index (board (board_state s)) c p) as [Hkey Hstored].
  pose proof Hin as Hin'. rewrite Hpm in Hin'.
  apply Hkey in Hin'. destruct Hin' as ([Hx Hy] & Hempty & _).
  apply in_keys_get in Hin. destruct Hin as [lines Hlines].
  assert (forall d, In d lines -> is_direction d) as Hdirs.
  { intros d Hd. rewrite Hpm in Hlines.
    destruct (Hstored lines Hlines) as [_ Hiff]. apply Hiff in Hd. tauto. }
  unfold place. rewrite py_setitem2_on_grid by assumption.
  rewrite Htbl, !py_table_on_grid by assumption. cbv zeta. rewrite <- Htbl.
  fold (xor_cell s p E (hash_num (board_state s))).
  fold (xor_cell s p (Piece c) (xor_cell s p E (hash_num (board_state s)))).
  set (s1 := {| board_state :=
                  {| board := set_cell (board (board_state s)) (fst p) (snd p) (Piece c);
                     hash_num := xor_cell s p (Piece c)
                                   (xor_cell s p E (hash_num (board_state s))) |};
                possible_moves := possible_moves s;
                table := table s |}).
  assert (consistent tbl s1) as Hc1.
  { split; [|split]; cbn [s1 board_state board hash_num table].
    - apply wf_set_cell. exact Hwf.
    - exact Htbl.
    - rewrite zobrist_hash_set_cell by assumption.
      unfold xor_cell. rewrite Htbl, Hh, Hempty. reflexivity. }
  assert (snd (flip_line p c s1) = None) as Hnr.
  { apply (flip_line_no_raise p c s1 lines).
    - apply Hc1.
    - exact Hlines.
    - exact Hdirs. }
  destruct (flip_line_consistent tbl (possible_moves s) p c s1 (conj Hc1 eq_refl))
    as [Hc2 _].
  destruct (flip_line p c s1) as [s2 [e|]]; [discriminate Hnr|].
  cbn [fst snd] in *. split; [reflexivity|]. split; [|reflexivity].
  destruct Hc2 as (Hwf2 & Htbl2 & Hh2).
  split; [|split]; cbn [board_state table]; rewrite ?Htbl; assumption.
Qed.

End HashedFacts.

(** ** Hash consistency *)

Lemma wf_start_board : wf_board Othello.start_board.
Proof. split; [reflexivity|]. repeat constructor. Qed.

Lemma reachable_consistent (tbl : list (list Z)) (s : HashedLocalVersus.t) :
  wf_table tbl ->
  reachable tbl s ->
  consistent tbl s /\
  HashedLocalVersus.possible_moves s =
    board_change (HashedLocalVersus.board (HashedLocalVersus.board_state s)).
Proof.
  intros Hwt. induction 1 as [|s p c Hr [IHc IHm] Hin].
  - split; [|reflexivity]. split; [exact wf_start_board|]. split; reflexivity.
  - destruct (HashedFacts.place_legal tbl p c s Hwt IHc IHm Hin) as (_ & H2 & H3).
    split; assumption.
Qed.

Lemma lxor_64 (a z : Z) :
  0 <= a < 2 ^ 64 -> 0 <= z < 2 ^ 64 -> 0 <= Z.lxor a z < 2 ^ 64.
Proof.
  intros Ha Hz.
  assert (0 <= Z.lxor a z) as Hnn by (apply Z.lxor_nonneg; lia).
  split; [exact Hnn|].
  destruct (Z.eq_dec (Z.lxor a z) 0) as [->|Hne]; [lia|].
  apply Z.log2_lt_pow2; [lia|].
  pose proof (Z.log2_lxor a z) as Hl.
  assert (Z.log2 a < 64) as Hla.
  { destruct (Z.eq_dec a 0) as [->|]; [simpl; lia|]. apply Z.log2_lt_pow2; lia. }
  assert (Z.log2 z < 64) as Hlz.
  { destruct (Z.eq_dec z 0) as [->|]; [simpl; lia|]. apply Z.log2_lt_pow2; lia. }
  lia.
Qed.

Lemma table_at_64 (tbl : list (list Z)) (i k : Z) :
  wf_table tbl -> 0 <= table_at tbl i k < 2 ^ 64.
Proof.
  intros [_ Hrows]. unfold table_at.
  destruct (Nat.lt_ge_cases (Z.to_nat i) (length tbl)) as [Hi|Hi].
  - rewrite Forall_forall in Hrows.
    destruct (Hrows (nth (Z.to_nat i) tbl []) (nth_In _ _ Hi)) as [_ Hrow].
    destruct (Nat.lt_ge_cases (Z.to_nat k) (length (nth (Z.to_nat i) tbl []))) as [Hk|Hk].
    + rewrite Forall_forall in Hrow. apply Hrow. apply nth_In. exact Hk.
    + rewrite nth_overflow by exact Hk. lia.
  - rewrite (nth_overflow tbl) by exact Hi. destruct (Z.to_nat k); simpl; lia.
Qed.

Lemma zobrist_hash_64 (tbl : list (list Z)) (b : board) :
  wf_table tbl -> 0 <= HashedLocalVersus.zobrist_hash tbl b < 2 ^ 64.
Proof.
  intros Hwf. rewrite zobrist_hash_fold.
  assert (forall l a, 0 <= a < 2 ^ 64 ->
            0 <= fold_left (fun h q => Z.lxor h (zobrist_term tbl b q)) l a < 2 ^ 64) as H.
  { induction l as [|q l IH]; intros a Ha; simpl; [exact Ha|].
    apply IH. apply lxor_64; [exact Ha|]. apply table_at_64. exact Hwf. }
  apply H. lia.
Qed.

(** C1 -- for every position reached from the initial position by legal
    moves applied through [HashedLocalVersus.place], the incrementally
    maintained hash equals the hash recomputed from scratch as
    [get_hash_version] computes it, and is a 64-bit value; every legal move is
    applied without an exception, so the invariant holds at every step. *)
Theorem hash_consistency (tbl : list (list Z)) (s : HashedLocalVersus.t) :
  wf_table tbl ->
  reachable tbl s ->
  HashedLocalVersus.hash_num (HashedLocalVersus.board_state s) =
    HashedLocalVersus.zobrist_hash tbl
      (HashedLocalVersus.board (HashedLocalVersus.board_state s)) /\
  0 <= HashedLocalVersus.hash_num (HashedLocalVersus.board_state s) < 2 ^ 64 /\
  (forall p c,
     In p (keys (moves_of (HashedLocalVersus.possible_moves s) c)) ->
     snd (HashedLocalVersus.place p c s) = None).
Proof.
  intros Hwf Hr. destruct (reachable_consistent tbl s Hwf Hr) as [Hc Hm].
  pose proof Hc as (_ & _ & Hh). split; [exact Hh|]. split.
  - rewrite Hh. apply zobrist_hash_64. exact Hwf.
  - intros p c Hin. apply (HashedFacts.place_legal tbl p c s Hwf Hc Hm Hin).
Qed.

(** ** Illegal moves *)

(** The legality test of [can_be_placed]. *)
Lemma can_be_placed_spec (p : pos) (c : colour) (s : Othello.t) :
  snd (Othello.can_be_placed p c s) = true <->
  (0 <= fst p < 8 /\ 0 <= snd p < 8) /\
  In p (keys (moves_of (Othello.possible_moves s) c)).
Proof.
  unfold Othello.can_be_placed, BOARD_SIZE.
  destruct ((0 <=? fst p) && (fst p <? 8) && (0 <=? snd p) && (snd p <? 8)) eqn:Hr.
  - rewrite !andb_true_iff, !Z.leb_le, !Z.ltb_lt in Hr.
    destruct (existsb (pos_eqb p) (keys (moves_of (Othello.possible_moves s) c))) eqn:Hk.
    + apply existsb_keys in Hk. simpl. split; [intros _; split; [lia|exact Hk]|reflexivity].
    + simpl. split; [discriminate|]. intros [_ Hin]. apply existsb_keys in Hin. congruence.
  - simpl. split; [discriminate|]. intros [Hg _].
    assert ((0 <=? fst p) && (fst p <? 8) && (0 <=? snd p) && (snd p <? 8) = true) as Ht
      by (rewrite !andb_true_iff, !Z.leb_le, !Z.ltb_lt; lia).
    congruence.
Qed.

Lemma can_be_placed_pos (p : pos) (c : colour) (s : Othello.t) :
  fst (Othello.can_be_placed p c s) = p.
Proof.
  unfold Othello.can_be_placed.
  destruct ((0 <=? fst p) && (fst p <? BOARD_SIZE) && (0 <=? snd p) && (snd p <? BOARD_SIZE));
    [|reflexivity].
  destruct (existsb (pos_eqb p) (keys (moves_of (Othello.possible_moves s) c)));
    reflexivity.
Qed.

(** C6 (as amended) -- [place] itself performs no legality check; the check
    is [can_be_placed]: for a position that is out of range, occupied, or not
    in the legal-move mapping of the acting colour it answers [False], and
    the replay loops then raise [BoardError] without calling [place], so the
    game object, grid included, is left as it was. *)
Theorem illegal_move_rejected (p : pos) (c : colour) (s : Othello.t) :
  wf_board (Othello.board s) ->
  Othello.possible_moves s = board_change (Othello.board s) ->
  ~ (0 <= fst p < 8 /\ 0 <= snd p < 8) \/
  cell_at (Othello.board s) (fst p) (snd p) <> E \/
  ~ In p (keys (moves_of (Othello.possible_moves s) c)) ->
  Othello.can_be_placed p c s = (p, false) /\
  Othello.replay_move p c s = (s, Some BoardError).
Proof.
  intros _ Hpm Hbad.
  assert (snd (Othello.can_be_placed p c s) = false) as Hno.
  { destruct (snd (Othello.can_be_placed p c s)) eqn:Hs; [exfalso|reflexivity].
    apply can_be_placed_spec in Hs. destruct Hs as [Hg Hin].
    destruct Hbad as [H|[H|H]]; [tauto| |tauto].
    rewrite Hpm in Hin. apply board_change_index in Hin. tauto. }
  split.
  - rewrite (surjective_pairing (Othello.can_be_placed p c s)).
    rewrite can_be_placed_pos, Hno. reflexivity.
  - unfold Othello.replay_move. rewrite Hno. reflexivity.
Qed.

(** Witness for C6: the occupied centre cell [(3, 3)] of the opening position. *)
Lemma illegal_move_rejected_witness :
  Othello.can_be_placed (3, 3) B (Othello.init None) = ((3, 3), false) /\
  Othello.replay_move (3, 3) B (Othello.init None) =
    (Othello.init None, Some BoardError).
Proof.
  apply illegal_move_rejected.
  - exact wf_start_board.
  - reflexivity.
  - right. left. vm_compute. discriminate.
Defined.

(** Counterexample to C6 as stated: called on the occupied cell [(3, 3)] or
    on the empty cell [(0, 0)] that is in no mapping, [place] overwrites the
    cell first and then fails on the dictionary lookup of [flip_line] with
    [KeyError], not with the program's [BoardError]. *)
Lemma place_unchecked :
  cell_at (Othello.board (Othello.init None)) 3 3 = Piece W /\
  snd (Othello.place (3, 3) B (Othello.init None)) = Some KeyError /\
  cell_at (Othello.board (fst (Othello.place (3, 3) B (Othello.init None)))) 3 3 = Piece B /\
  cell_at (Othello.board (Othello.init None)) 0 0 = E /\
  ~ In (0, 0) (keys (moves_of (Othello.possible_moves (Othello.init None)) B)) /\
  snd (Othello.place (0, 0) B (Othello.init None)) = Some KeyError /\
  cell_at (Othello.board (fst (Othello.place (0, 0) B (Othello.init None)))) 0 0 = Piece B.
Proof.
  repeat split; try (vm_compute; reflexivity).
  vm_compute. intros H. repeat (destruct H as [H|H]; [discriminate H|]). exact H.
Qed.

(** ** The heuristic evaluation *)

Lemma white_count_nonneg b : 0 <= white_count b.
Proof. apply tally_nonneg. Qed.

Lemma black_count_nonneg b : 0 <= black_count b.
Proof. apply tally_nonneg. Qed.

Lemma tally_total (l : list cell) :
  tally (Piece W) l + tally (Piece B) l + tally E l = Z.of_nat (length l).
Proof.
  induction l as [|c l IH]; [reflexivity|].
  rewrite !tally_cons. cbn [length]. rewrite Nat2Z.inj_succ.
  destruct c as [|[|]]; cbn [cell_eqb colour_eqb]; lia.
Qed.

(** The two colours hold at most the 64 cells of the grid. *)
Lemma counts_at_most_64 (b : board) : white_count b + black_count b <= 64.
Proof.
  unfold white_count, black_count.
  pose proof (tally_total (counted_cells b)) as H.
  pose proof (tally_nonneg E (counted_cells b)).
  replace (Z.of_nat (length (counted_cells b))) with 64 in H; [lia|].
  unfold counted_cells. rewrite length_map. reflexivity.
Qed.

Lemma corner_sum_bound (b : board) :
  0 <= AI.total_corners_captured b /\
  - AI.total_corners_captured b
    <= fold_left (fun acc c => acc + AI.piece_to_heuristic c) (AI.corners b) 0
    <= AI.total_corners_captured b.
Proof.
  unfold AI.total_corners_captured, AI.corners. cbn [fold_left]. lia.
Qed.

Lemma stability_counts_nonneg (lr rl : list pos) (b : board) :
  0 <= fst (AI.stability_counts lr rl b) /\ 0 <= snd (AI.stability_counts lr rl b).
Proof.
  unfold AI.stability_counts.
  destruct (existsb (fun c => negb (cell_eqb c E)) (AI.corners b)); simpl; lia.
Qed.

Lemma exact_float_rounding : float_rounding exact.
Proof. split; unfold exact; intros; [assumption|reflexivity]. Qed.

Section Rounding.

Variable fl : Q -> Q.
Hypothesis fl_rounding : float_rounding fl.

Lemma fl_monotone (x y : Q) : (x <= y)%Q -> (fl x <= fl y)%Q.
Proof. apply fl_rounding. Qed.

Lemma fl_proper (x y : Q) : (x == y)%Q -> (fl x == fl y)%Q.
Proof.
  intros H. apply Qle_antisym; apply fl_monotone; rewrite H; apply Qle_refl.
Qed.

(** The multiples of 1/64 up to 85 are floats. *)
Lemma fl_keeps (z : Z) (q : Q) :
  Z.abs z <= 5440 -> (q == z # 64)%Q -> (fl q == q)%Q.
Proof.
  intros Hz Hq. rewrite (fl_proper q (z # 64) Hq), Hq. apply fl_rounding. exact Hz.
Qed.

Lemma fl_between (z1 z2 : Z) (lo hi q : Q) :
  Z.abs z1 <= 5440 -> (lo == z1 # 64)%Q ->
  Z.abs z2 <= 5440 -> (hi == z2 # 64)%Q ->
  between lo hi q -> between lo hi (fl q).
Proof.
  intros H1 E1 H2 E2 [Hlo Hhi]. split.
  - rewrite <- (fl_keeps z1 lo H1 E1). apply fl_monotone. exact Hlo.
  - rewrite <- (fl_keeps z2 hi H2 E2). apply fl_monotone. exact Hhi.
Qed.

Lemma py_add_between (z1 z2 : Z) (lo hi : Q) (a b : number) :
  Z.abs z1 <= 5440 -> (lo == z1 # 64)%Q ->
  Z.abs z2 <= 5440 -> (hi == z2 # 64)%Q ->
  between lo hi (value a + value b) -> between lo hi (value (py_add fl a b)).
Proof.
  intros H1 E1 H2 E2 Hb.
  destruct a as [x|x], b as [y|y]; cbn [py_add value];
    try (apply (fl_between z1 z2); assumption).
  unfold between in *. cbn [value] in Hb. rewrite inject_Z_plus. exact Hb.
Qed.

Lemma py_mul_between (z1 z2 : Z) (lo hi : Q) (a b : number) :
  Z.abs z1 <= 5440 -> (lo == z1 # 64)%Q ->
  Z.abs z2 <= 5440 -> (hi == z2 # 64)%Q ->
  between lo hi (value a * value b) -> between lo hi (value (py_mul fl a b)).
Proof.
  intros H1 E1 H2 E2 Hb.
  destruct a as [x|x], b as [y|y]; cbn [py_mul value];
    try (apply (fl_between z1 z2); assumption).
  unfold between in *. cbn [value] in Hb. rewrite inject_Z_mult. exact Hb.
Qed.

Lemma py_div_ok (a b : Z) :
  b <> 0 -> py_div fl a b = Ok (Float (fl (inject_Z a / inject_Z b))).
Proof. intros H. unfold py_div. apply Z.eqb_neq in H. rewrite H. reflexivity. Qed.

Lemma py_div_inv (a b : Z) (v : number) :
  py_div fl a b = Ok v -> b <> 0 /\ v = Float (fl (inject_Z a / inject_Z b)).
Proof.
  unfold py_div. destruct (Z.eqb_spec b 0); [discriminate|].
  intros H. inversion H. auto.
Qed.

(** A quotient [a / b] with [|a| * d <= n * b] lies in [[-n/d, n/d]]. *)
Lemma quotient_between (a b n : Z) :
  0 < b -> 0 <= n -> Z.abs a * 64 <= n * b ->
  between (- n # 64) (n # 64) (inject_Z a / inject_Z b).
Proof.
  intros Hb Hn Ha.
  assert (0 < inject_Z b)%Q as Hb'
    by (change (inject_Z 0 < inject_Z b)%Q; rewrite <- Zlt_Qlt; exact Hb).
  split.
  - apply Qle_shift_div_l; [exact Hb'|].
    unfold Qle, Qmult, inject_Z. cbn [Qnum Qden]. lia.
  - apply Qle_shift_div_r; [exact Hb'|].
    unfold Qle, Qmult, inject_Z. cbn [Qnum Qden]. lia.
Qed.

Lemma py_div_between (a b n : Z) (v : number) :
  0 < b -> 0 <= n <= 5440 -> Z.abs a * 64 <= n * b ->
  py_div fl a b = Ok v ->
  between (- n # 64) (n # 64) (value v).
Proof.
  intros Hb Hn Ha Hv. apply py_div_inv in Hv. destruct Hv as [_ ->].
  cbn [value]. apply (fl_between (- n) n); try lia; try reflexivity.
  apply quotient_between; lia.
Qed.

Lemma between_unit (q : Q) : between (- 64 # 64) (64 # 64) q -> in_unit q.
Proof.
  intros [H1 H2]. split.
  - eapply Qle_trans; [|exact H1]. discriminate.
  - eapply Qle_trans; [exact H2|]. discriminate.
Qed.

Lemma in_unit_Int_0 : in_unit (value (Int 0)).
Proof. split; discriminate. Qed.

Lemma corner_capture_unit (s : HashedLocalVersus.t) (v : number) :
  AI.heuristic_corner_capture fl s = Ok v -> in_unit (value v).
Proof.
  unfold AI.heuristic_corner_capture.
  set (b := HashedLocalVersus.board (HashedLocalVersus.board_state s)).
  destruct (Z.eqb_spec (AI.total_corners_captured b) 0) as [H0|H0]; cbn [negb].
  - intros H. inversion H. apply in_unit_Int_0.
  - intros H. pose proof (corner_sum_bound b).
    apply between_unit. apply (py_div_between _ _ 64 v) in H; [exact H| | |]; lia.
Qed.

Lemma corner_capture_ok (s : HashedLocalVersus.t) :
  exists v, AI.heuristic_corner_capture fl s = Ok v.
Proof.
  unfold AI.heuristic_corner_capture.
  set (b := HashedLocalVersus.board (HashedLocalVersus.board_state s)).
  destruct (Z.eqb_spec (AI.total_corners_captured b) 0) as [H0|H0]; cbn [negb].
  - eauto.
  - rewrite py_div_ok by exact H0. eauto.
Qed.

Variable lr rl : list pos.

Lemma stability_unit (s : HashedLocalVersus.t) (v : number) :
  AI.heuristic_stability fl lr rl s = Ok v -> in_unit (value v).
Proof.
  unfold AI.heuristic_stability.
  pose proof (stability_counts_nonneg lr rl
                (HashedLocalVersus.board (HashedLocalVersus.board_state s))) as [Hk Hw].
  destruct (AI.stability_counts lr rl
              (HashedLocalVersus.board (HashedLocalVersus.board_state s))) as [k w].
  cbn [fst snd] in *.
  destruct (Z.eqb_spec (w + k) 0) as [H0|H0]; cbn [negb].
  - intros H. inversion H. apply in_unit_Int_0.
  - intros H. apply between_unit. apply (py_div_between _ _ 64 v) in H; [exact H| | |]; lia.
Qed.

Lemma stability_ok (s : HashedLocalVersus.t) :
  exists v, AI.heuristic_stability fl lr rl s = Ok v.
Proof.
  unfold AI.heuristic_stability.
  destruct (AI.stability_counts lr rl
              (HashedLocalVersus.board (HashedLocalVersus.board_state s))) as [k w].
  destruct (Z.eqb_spec (w + k) 0) as [H0|H0]; cbn [negb].
  - eauto.
  - rewrite py_div_ok by exact H0. eauto.
Qed.

End Rounding.

Lemma heuristic_piece_count_counts (fl : Q -> Q) (s : HashedLocalVersus.t) :
  let b := HashedLocalVersus.board (HashedLocalVersus.board_state s) in
  AI.heuristic_piece_count fl s =
  py_div fl (white_count b - black_count b) (white_count b + black_count b).
Proof.
  intros b. unfold AI.heuristic_piece_count. fold b.
  rewrite count_of_white, count_of_black. reflexivity.
Qed.

(** With a legal move on the board both quotients without a guard have a
    positive denominator. *)
Lemma some_move_counts (s : HashedLocalVersus.t) :
  let b := HashedLocalVersus.board (HashedLocalVersus.board_state s) in
  let pm := HashedLocalVersus.possible_moves s in
  pm = board_change b ->
  ~ (moves_W pm = [] /\ moves_B pm = []) ->
  1 <= white_count b /\ 1 <= black_count b /\
  0 < Z.of_nat (length (moves_W pm)) + Z.of_nat (length (moves_B pm)).
Proof.
  intros b pm Hpm Hsome.
  assert (1 <= white_count b /\ 1 <= black_count b) as [Hw Hk].
  { destruct (moves_W pm) as [|x l] eqn:HW.
    - apply (move_needs_both_colours b B). rewrite <- Hpm. simpl.
      intros HB. apply Hsome. auto.
    - apply (move_needs_both_colours b W). rewrite <- Hpm. simpl.
      rewrite HW. discriminate. }
  repeat split; try assumption.
  destruct (moves_W pm); destruct (moves_B pm); cbn [length]; try lia.
  exfalso. apply Hsome. auto.
Qed.

Lemma terminal_utility_magnitude (s : HashedLocalVersus.t) :
  AI.terminal_utility s <> 0 -> 86 <= Z.abs (AI.terminal_utility s).
Proof.
  rewrite terminal_utility_counts.
  set (b := HashedLocalVersus.board (HashedLocalVersus.board_state s)).
  destruct (Z.eqb_spec (white_count b) (black_count b)); [congruence|].
  destruct (Z.ltb_spec (black_count b) (white_count b)); lia.
Qed.

(** The weighted sum of four features within their bounds. *)
Lemma weighted_sum_between (fl : Q -> Q) (corner mobility stability piece : number) :
  float_rounding fl ->
  in_unit (value corner) -> in_unit (value mobility) -> in_unit (value stability) ->
  between (- 62 # 64) (62 # 64) (value piece) ->
  between (- 5390 # 64) (5390 # 64)
    (value (py_add fl
              (py_add fl
                 (py_add fl (py_mul fl (Int 30) corner) (py_mul fl mobility (Int 5)))
                 (py_mul fl stability (Int 25)))
              (py_mul fl piece (Int 25)))).
Proof.
  intros Hfl [Hc1 Hc2] [Hm1 Hm2] [Hs1 Hs2] [Hp1 Hp2].
  assert (between (- 1920 # 64) (1920 # 64) (value (py_mul fl (Int 30) corner))) as [T1 T1'].
  { apply (py_mul_between fl Hfl (- 1920) 1920); try lia; try reflexivity.
    change (value (Int 30)) with 30%Q. split; lra. }
  assert (between (- 320 # 64) (320 # 64) (value (py_mul fl mobility (Int 5)))) as [T2 T2'].
  { apply (py_mul_between fl Hfl (- 320) 320); try lia; try reflexivity.
    change (value (Int 5)) with 5%Q. split; lra. }
  assert (between (- 1600 # 64) (1600 # 64) (value (py_mul fl stability (Int 25)))) as [T3 T3'].
  { apply (py_mul_between fl Hfl (- 1600) 1600); try lia; try reflexivity.
    change (value (Int 25)) with 25%Q. split; lra. }
  assert (between (- 1550 # 64) (1550 # 64) (value (py_mul fl piece (Int 25)))) as [T4 T4'].
  { apply (py_mul_between fl Hfl (- 1550) 1550); try lia; try reflexivity.
    change (value (Int 25)) with 25%Q. split; lra. }
  assert (between (- 2240 # 64) (2240 # 64)
            (value (py_add fl (py_mul fl (Int 30) corner) (py_mul fl mobility (Int 5)))))
    as [S1 S1'].
  { apply (py_add_between fl Hfl (- 2240) 2240); try lia; try reflexivity. split; lra. }
  assert (between (- 3840 # 64) (3840 # 64)
            (value (py_add fl
                      (py_add fl (py_mul fl (Int 30) corner) (py_mul fl mobility (Int 5)))
                      (py_mul fl stability (Int 25))))) as [S2 S2'].
  { apply (py_add_between fl Hfl (- 3840) 3840); try lia; try reflexivity. split; lra. }
  apply (py_add_between fl Hfl (- 5390) 5390); try lia; try reflexivity. split; lra.
Qed.

(** The features of a board on which the evaluation is defined. *)
Lemma heuristic_utility_features (fl : Q -> Q) (lr rl : list pos)
    (s : HashedLocalVersus.t) (h : number) :
  let b := HashedLocalVersus.board (HashedLocalVersus.board_state s) in
  float_rounding fl ->
  HashedLocalVersus.possible_moves s = board_change b ->
  AI.heuristic_utility fl lr rl s = Ok h ->
  exists corner mobility stability piece,
    AI.heuristic_corner_capture fl s = Ok corner /\
    AI.heuristic_mobility fl s = Ok mobility /\
    AI.heuristic_stability fl lr rl s = Ok stability /\
    AI.heuristic_piece_count fl s = Ok piece /\
    h = py_add fl
          (py_add fl
             (py_add fl (py_mul fl (Int 30) corner) (py_mul fl mobility (Int 5)))
             (py_mul fl stability (Int 25)))
          (py_mul fl piece (Int 25)) /\
    in_unit (value corner) /\ in_unit (value mobility) /\
    in_unit (value stability) /\
    between (- 62 # 64) (62 # 64) (value piece).
Proof.
  intros b Hfl Hpm. unfold AI.heuristic_utility.
  destruct (AI.heuristic_piece_count fl s) as [piece|] eqn:Hp; [|discriminate].
  destruct (AI.heuristic_mobility fl s) as [mobility|] eqn:Hm; [|discriminate].
  destruct (AI.heuristic_corner_capture fl s) as [corner|] eqn:Hc; [|discriminate].
  destruct (AI.heuristic_stability fl lr rl s) as [stability|] eqn:Hs; [|discriminate].
  intros H. inversion H. subst h. clear H.
  exists corner, mobility, stability, piece.
  repeat match goal with |- _ /\ _ => split end; try reflexivity.
  - eapply corner_capture_unit; [exact Hfl|exact Hc].
  - unfold AI.heuristic_mobility in Hm. pose proof Hm as Hm'.
    apply py_div_inv in Hm'. destruct Hm' as [Hne _].
    apply between_unit. apply (py_div_between fl Hfl _ _ 64 mobility) in Hm;
      [exact Hm| | |]; lia.
  - eapply stability_unit; [exact Hfl|exact Hs].
  - assert (~ (moves_W (HashedLocalVersus.possible_moves s) = [] /\
               moves_B (HashedLocalVersus.possible_moves s) = [])) as Hsome.
    { intros [HW HB]. unfold AI.heuristic_mobility in Hm. rewrite HW, HB in Hm.
      discriminate Hm. }
    destruct (some_move_counts s Hpm Hsome) as (Hw & Hk & _). fold b in Hw, Hk.
    pose proof (counts_at_most_64 b) as H64.
    rewrite heuristic_piece_count_counts in Hp. fold b in Hp.
    apply (py_div_between fl Hfl _ _ 62 piece) in Hp; [exact Hp| | |]; lia.
Qed.

(** C9 -- wherever the evaluation is defined, [heuristic_utility] is the
    weighted sum [30 * corner + mobility * 5 + stability * 25 + piece * 25]
    of four features that each lie in [[-1, 1]]; its magnitude stays below
    85, hence below the magnitude of every non-draw terminal score.  This
    holds for every float rounding that is monotone and keeps the multiples
    of 1/64 up to 85, exact rational arithmetic included. *)
Theorem heuristic_utility_bounds (fl : Q -> Q) (lr rl : list pos)
    (s : HashedLocalVersus.t) (h : number) :
  let b := HashedLocalVersus.board (HashedLocalVersus.board_state s) in
  float_rounding fl ->
  wf_board b ->
  HashedLocalVersus.possible_moves s = board_change b ->
  AI.heuristic_utility fl lr rl s = Ok h ->
  (exists corner mobility stability piece,
     AI.heuristic_corner_capture fl s = Ok corner /\
     AI.heuristic_mobility fl s = Ok mobility /\
     AI.heuristic_stability fl lr rl s = Ok stability /\
     AI.heuristic_piece_count fl s = Ok piece /\
     h = py_add fl
           (py_add fl
              (py_add fl (py_mul fl (Int 30) corner) (py_mul fl mobility (Int 5)))
              (py_mul fl stability (Int 25)))
           (py_mul fl piece (Int 25)) /\
     in_unit (value corner) /\ in_unit (value mobility) /\
     in_unit (value stability) /\ in_unit (value piece)) /\
  (Qabs (value h) < 85)%Q /\
  (forall s', AI.terminal_utility s' <> 0 ->
     (Qabs (value h) < inject_Z (Z.abs (AI.terminal_utility s')))%Q).
Proof.
  intros b Hfl _ Hpm Hh.
  destruct (heuristic_utility_features fl lr rl s h Hfl Hpm Hh)
    as (corner & mobility & stability & piece & Hc & Hm & Hs & Hp & Heq & Uc & Um & Us & Up).
  assert (Qabs (value h) < 85)%Q as Habs.
  { apply Qabs_Qlt_condition. subst h.
    destruct (weighted_sum_between fl corner mobility stability piece Hfl Uc Um Us Up)
      as [H1 H2].
    split.
    - eapply Qlt_le_trans; [|exact H1]. reflexivity.
    - eapply Qle_lt_trans; [exact H2|]. reflexivity. }
  split; [|split].
  - exists corner, mobility, stability, piece.
    repeat match goal with |- _ /\ _ => split end; try assumption.
    destruct Up as [Up1 Up2]. split.
    + eapply Qle_trans; [|exact Up1]. discriminate.
    + eapply Qle_trans; [exact Up2|]. discriminate.
  - exact Habs.
  - intros s' Hne. apply terminal_utility_magnitude in Hne.
    eapply Qlt_le_trans; [exact Habs|].
    change 85%Q with (inject_Z 85). rewrite <- Zle_Qle. lia.
Qed.

(** C7 (as amended) -- [heuristic_utility] guards the corner and the
    stability quotient against a zero denominator by taking the feature as
    0; the piece and mobility quotients carry no guard, and the search calls
    [heuristic_utility] only where [check_if_terminal] is false: on every
    such board with a recomputed move index the evaluation completes without
    a division fault. *)
Theorem heuristic_utility_guarded (fl : Q -> Q) (lr rl : list pos)
    (s : HashedLocalVersus.t) :
  let b := HashedLocalVersus.board (HashedLocalVersus.board_state s) in
  wf_board b ->
  HashedLocalVersus.possible_moves s = board_change b ->
  (AI.total_corners_captured b = 0 -> AI.heuristic_corner_capture fl s = Ok (Int 0)) /\
  (snd (AI.stability_counts lr rl b) + fst (AI.stability_counts lr rl b) = 0 ->
     AI.heuristic_stability fl lr rl s = Ok (Int 0)) /\
  (AI.check_if_terminal s = false ->
     exists h, AI.heuristic_utility fl lr rl s = Ok h).
Proof.
  intros b _ Hpm. split; [|split].
  - intros H0. unfold AI.heuristic_corner_capture. fold b. rewrite H0. reflexivity.
  - intros H0. unfold AI.heuristic_stability. fold b.
    destruct (AI.stability_counts lr rl b) as [k w]. cbn [fst snd] in H0.
    rewrite H0. reflexivity.
  - intros Hterm.
    assert (~ (moves_W (HashedLocalVersus.possible_moves s) = [] /\
               moves_B (HashedLocalVersus.possible_moves s) = [])) as Hsome.
    { intros Hboth. apply (check_if_terminal_index s Hpm) in Hboth. congruence. }
    destruct (some_move_counts s Hpm Hsome) as (Hw & Hk & Hmoves). fold b in Hw, Hk.
    destruct (corner_capture_ok fl s) as [corner Hc].
    destruct (stability_ok fl lr rl s) as [stability Hs].
    unfold AI.heuristic_utility.
    rewrite heuristic_piece_count_counts. fold b.
    rewrite py_div_ok by lia.
    unfold AI.heuristic_mobility. rewrite py_div_ok by lia.
    rewrite Hc, Hs. eauto.
Qed.

(** Counterexample to C7 as stated: on [blocked_board] neither colour has a
    legal move; the mobility quotient is [0 / 0] and the evaluation raises
    [ZeroDivisionError] instead of taking the feature as 0. *)
Lemma mobility_unguarded :
  let s := HashedLocalVersus.get_hash_version example_table
             (Othello.init (Some blocked_board)) in
  moves_W (HashedLocalVersus.possible_moves s) = [] /\
  moves_B (HashedLocalVersus.possible_moves s) = [] /\
  AI.heuristic_mobility exact s = Raise ZeroDivisionError /\
  AI.heuristic_utility exact [] [] s = Raise ZeroDivisionError.
Proof. vm_compute. repeat split; reflexivity. Qed.

(** ** Concrete positions *)

Lemma wf_example_table : wf_table example_table.
Proof.
  split; [reflexivity|]. apply Forall_forall. intros row Hrow.
  apply in_map_iff in Hrow. destruct Hrow as [i [<- Hi]].
  apply in_range_list in Hi. split; [reflexivity|].
  repeat (constructor; [lia|]). constructor.
Qed.

(** Witness for C1: the position after Black's opening move [(2, 3)]. *)
Lemma hash_consistency_witness :
  let s1 := fst (HashedLocalVersus.place (2, 3) B opening) in
  wf_table example_table /\
  reachable example_table s1 /\
  HashedLocalVersus.hash_num (HashedLocalVersus.board_state s1) =
    HashedLocalVersus.zobrist_hash example_table
      (HashedLocalVersus.board (HashedLocalVersus.board_state s1)).
Proof.
  intros s1.
  assert (reachable example_table s1) as Hr.
  { apply reach_place; [apply reach_start|]. vm_compute. auto. }
  split; [exact wf_example_table|]. split; [exact Hr|].
  apply (hash_consistency example_table s1 wf_example_table Hr).
Defined.

(** Witness for C2: Black's entry for [(2, 3)] in the opening position. *)
Lemma board_change_sound_witness :
  wf_board Othello.start_board /\
  (In (2, 3) (keys (moves_of (board_change Othello.start_board) B)) <->
     (0 <= 2 < 8 /\ 0 <= 3 < 8) /\
     cell_at Othello.start_board 2 3 = E /\
     exists d, is_direction d /\ captures Othello.start_board (2, 3) B d).
Proof.
  split; [exact wf_start_board|].
  apply (board_change_sound Othello.start_board B (2, 3) wf_start_board).
Defined.

Lemma wf_full_board_33_31 : wf_board full_board_33_31.
Proof. split; [reflexivity|]. repeat constructor. Qed.

(** Witness for C8: the 33-31 board scores 87. *)
Lemma terminal_utility_spec_witness :
  let s := HashedLocalVersus.get_hash_version example_table
             (Othello.init (Some full_board_33_31)) in
  wf_board full_board_33_31 /\
  pieces full_board_33_31 (Piece W) = 33 /\
  pieces full_board_33_31 (Piece B) = 31 /\
  AI.terminal_utility s = 87.
Proof.
  intros s. split; [exact wf_full_board_33_31|].
  split; [reflexivity|]. split; [reflexivity|].
  apply (proj1 (proj2 (proj2 (proj2 (terminal_utility_spec s wf_full_board_33_31)))));
    reflexivity.
Defined.

Lemma wf_after_first_move :
  wf_board (HashedLocalVersus.board (HashedLocalVersus.board_state after_first_move)).
Proof. split; [reflexivity|]. repeat constructor. Qed.

(** Witness for C9: after Black's first move the evaluation is -15. *)
Lemma heuristic_utility_bounds_witness :
  float_rounding exact /\
  wf_board (HashedLocalVersus.board (HashedLocalVersus.board_state after_first_move)) /\
  AI.heuristic_utility exact [] [] after_first_move = Ok (Float (-450 # 30)) /\
  (Qabs (-450 # 30) < 85)%Q.
Proof.
  split; [exact exact_float_rounding|].
  split; [exact wf_after_first_move|]. split; [reflexivity|].
  apply (heuristic_utility_bounds exact [] [] after_first_move (Float (-450 # 30))
           exact_float_rounding wf_after_first_move eq_refl eq_refl).
Defined.

(** Witness for C10: the opening position is not terminal. *)
Lemma check_if_terminal_iff_witness :
  wf_board Othello.start_board /\
  (AI.check_if_terminal opening = true <->
   moves_W (HashedLocalVersus.possible_moves opening) = [] /\
   moves_B (HashedLocalVersus.possible_moves opening) = []).
Proof.
  split; [exact wf_start_board|].
  apply (check_if_terminal_iff opening wf_start_board eq_refl).
Defined.

(** Witness for C7: the opening position is evaluated without a fault. *)
Lemma heuristic_utility_guarded_witness :
  wf_board Othello.start_board /\
  AI.check_if_terminal opening = false /\
  exists h, AI.heuristic_utility exact [] [] opening = Ok h.
Proof.
  split; [exact wf_start_board|]. split; [reflexivity|].
  apply (heuristic_utility_guarded exact [] [] opening wf_start_board eq_refl).
  reflexivity.
Defined.

(** ** The turn sequence *)

(** What one resumption of the generator yields: the colour it considers
    if that colour can move, else the opponent if the opponent can, and
    [StopIteration] exactly when neither can. *)
Lemma next_spec (g : Othello.end_game_iterator) (pm : moves) :
  Othello.at_ g <> Othello.Finished ->
  let c := match Othello.at_ g with
           | Othello.YieldedTurn => FLIP_RULE (Othello.colour_var g)
           | _ => Othello.colour_var g
           end in
  (moves_of pm c <> [] -> fst (Othello.next g pm) = Some c) /\
  (moves_of pm c = [] -> moves_of pm (FLIP_RULE c) <> [] ->
     fst (Othello.next g pm) = Some (FLIP_RULE c)) /\
  (fst (Othello.next g pm) = None <-> moves_W pm = [] /\ moves_B pm = []).
Proof.
  intros Hg c.
  assert (fst (Othello.next g pm) =
          if negb (length (moves_of pm c) =? 0)%nat then Some c
          else if negb (length (moves_of pm (FLIP_RULE c)) =? 0)%nat
               then Some (FLIP_RULE c)
               else None) as ->.
  { unfold Othello.next. fold c.
    destruct (Othello.at_ g); try congruence;
      destruct (length (moves_of pm c) =? 0)%nat;
      destruct (length (moves_of pm (FLIP_RULE c)) =? 0)%nat; reflexivity. }
  assert (moves_W pm = [] /\ moves_B pm = [] <->
          moves_of pm c = [] /\ moves_of pm (FLIP_RULE c) = []) as Hboth.
  { destruct c; simpl; tauto. }
  rewrite Hboth.
  destruct (moves_of pm c) as [|x l]; destruct (moves_of pm (FLIP_RULE c)) as [|y l'];
    cbn [length Nat.eqb negb];
    (split; [|split; [|split]]);
    try (intros; congruence); try (intros; discriminate);
    try (intros [? ?]; discriminate); auto.
Qed.

(** C5 -- the code at a failing input: after White's eighth-ply move Black
    is blocked and the turn sequence yields White (the forced pass); White
    plays [(1, 3)], after which Black has the legal moves [(1, 1)] and
    [(1, 4)], yet the sequence yields White again: after the yield of a pass
    the generator does not hand the turn to the opponent. *)
Theorem end_game_iterator_repeats_colour :
  let '(colours, g, (s, e)) :=
    Othello.load double_turn_game (Othello.end_game_iterator_start B)
      (Othello.init None) in
  colours = [B; W; B; W; B; W; B; W; W] /\
  e = None /\
  Othello.at_ g = Othello.YieldedAfterPass /\
  keys (moves_B (Othello.possible_moves s)) = [(1, 1); (1, 4)] /\
  fst (Othello.next g (Othello.possible_moves s)) = Some W.
Proof. vm_compute. repeat split; reflexivity. Qed.

(** ** The memoized search *)

(** The position is reached from the opening by 55 legal moves, colours
    alternating, and it is White's turn. *)
Lemma endgame_reached :
  let '(colours, g, (s, e)) :=
    Othello.load endgame_game (Othello.end_game_iterator_start B) (Othello.init None) in
  length colours = 55%nat /\
  e = None /\
  Othello.board s = endgame_board /\
  fst (Othello.next g (Othello.possible_moves s)) = Some W.
Proof. vm_compute. repeat split; reflexivity. Qed.

(** Two lines of play from [endgame] lead to the same grid: one ends with a
    move of Black and leaves White to move, the other ends with a move of
    White and leaves Black to move; both colours have a move there. *)
Lemma endgame_same_grid_both_sides :
  let s1 := after_moves endgame [((0, 2), W); ((6, 0), W); ((5, 0), B)] in
  let s2 := after_moves endgame [((6, 0), W); ((5, 0), B); ((0, 2), W)] in
  HashedLocalVersus.board_state s1 = HashedLocalVersus.board_state s2 /\
  keys (moves_W (HashedLocalVersus.possible_moves s1)) = [(6, 7)] /\
  keys (moves_B (HashedLocalVersus.possible_moves s2)) = [(7, 0)].
Proof. vm_compute. repeat split; reflexivity. Qed.

(** C3 -- the code at a failing input: on [endgame], searched to the end of
    the game (depth 5) from an empty table with the full window, the
    memoized alpha-beta [minimax] returns 0, a draw, while plain minimax over
    the same tree returns 91, a win for White; so it is with candidates of
    equal weight and with a positional weight table.  The table is keyed by
    the grid alone, and the search meets the same grid once with White and
    once with Black to move. *)
Theorem minimax_table_changes_value (fl : Q -> Q) (lr rl : list pos) :
  returned_score
    (AI.minimax fl lr rl zero_weight 5 endgame NegInf PosInf true true []) =
    Some (of_int 0) /\
  returned_score
    (AI.minimax fl lr rl positional_weight 5 endgame NegInf PosInf true true []) =
    Some (of_int 0) /\
  AI.plain_minimax fl lr rl 5 endgame true = Ok (of_int 91).
Proof. vm_compute. repeat split; reflexivity. Qed.

(** * Further properties

    Properties of the code around the claims above: the placement of a
    piece, the subclass that maintains the hash, the turn sequence and the
    replay of records, move ordering and the one-ply search, the text of a
    record and the browser of saved games. *)

(** ** Placing a piece *)

(** Two rays from the same cell meet only along the same direction. *)
Lemma ray_injective (d d' : pos) (z z' : Z) (p : pos) :
  is_direction d -> is_direction d' -> 1 <= z -> 1 <= z' ->
  fst d * z + fst p = fst d' * z' + fst p ->
  snd d * z + snd p = snd d' * z' + snd p ->
  d = d' /\ z = z'.
Proof.
  destruct d as [dx dy], d' as [ex ey]. unfold is_direction. cbn [fst snd].
  intros (Hx & Hy & Hn) (Hx' & Hy' & Hn') Hz Hz' H1 H2.
  assert (dx = -1 \/ dx = 0 \/ dx = 1) as Cx by lia.
  assert (dy = -1 \/ dy = 0 \/ dy = 1) as Cy by lia.
  assert (ex = -1 \/ ex = 0 \/ ex = 1) as Dx by lia.
  assert (ey = -1 \/ ey = 0 \/ ey = 1) as Dy by lia.
  destruct Cx as [-> | [-> | ->]], Cy as [-> | [-> | ->]],
           Dx as [-> | [-> | ->]], Dy as [-> | [-> | ->]];
    try congruence; try lia; split; try reflexivity; lia.
Qed.

(** The scan of a direction reads only the cells of its ray. *)
Lemma line_scan_ext (b b' : board) (p : pos) (c : colour) (step : pos) :
  forall is_ done_ last,
  (forall z, In z is_ -> on_grid p step z -> cell_on b p step z = cell_on b' p step z) ->
  line_scan b p c step done_ is_ last = line_scan b' p c step done_ is_ last.
Proof.
  induction is_ as [|i rest IH]; intros done_ last Hext; [reflexivity|].
  cbn [line_scan].
  destruct (in_range (fst step * i + fst p) (snd step * i + snd p)) eqn:Hr;
    cbn [negb]; [|reflexivity].
  assert (cell_at b (fst step * i + fst p) (snd step * i + snd p) =
          cell_at b' (fst step * i + fst p) (snd step * i + snd p)) as ->.
  { apply (Hext i (or_introl eq_refl)). apply in_range_true in Hr.
    unfold on_grid. lia. }
  rewrite !(IH true i) by (intros z Hz; apply Hext; right; exact Hz).
  reflexivity.
Qed.

Lemma line_cells_ext (b b' : board) (p : pos) (c : colour) (step : pos) :
  (forall z, 1 <= z -> on_grid p step z -> cell_on b p step z = cell_on b' p step z) ->
  line_cells b p c step = line_cells b' p c step.
Proof.
  intros Hext. unfold line_cells.
  rewrite (line_scan_ext b b').
  - reflexivity.
  - intros z Hz. apply in_range_list in Hz. apply Hext. lia.
Qed.

Lemma wf_paint (c : colour) (cells : list pos) :
  forall b, wf_board b -> wf_board (paint c b cells).
Proof.
  induction cells as [|q cells IH]; intros b Hwf; [exact Hwf|].
  apply IH. apply wf_set_cell. exact Hwf.
Qed.

Lemma cell_at_paint (c : colour) (cells : list pos) (x y : Z) :
  0 <= x -> 0 <= y ->
  (forall q, In q cells -> 0 <= fst q < 8 /\ 0 <= snd q < 8) ->
  forall b, wf_board b ->
  cell_at (paint c b cells) x y =
  if existsb (pos_eqb (x, y)) cells then Piece c else cell_at b x y.
Proof.
  intros Hx Hy. induction cells as [|q cells IH]; intros Hin b Hwf; [reflexivity|].
  unfold paint. cbn [fold_left existsb]. fold (paint c (set_cell b (fst q) (snd q) (Piece c)) cells).
  rewrite IH.
  - destruct (Hin q (or_introl eq_refl)) as [Hqx Hqy].
    rewrite cell_at_set_cell by assumption.
    change (pos_eqb (x, y) q) with ((x =? fst q) && (y =? snd q)).
    destruct ((x =? fst q) && (y =? snd q)); cbn [orb]; [|reflexivity].
    destruct (existsb (pos_eqb (x, y)) cells); reflexivity.
  - intros q' Hq'. apply Hin. right. exact Hq'.
  - apply wf_set_cell. exact Hwf.
Qed.

(** The consumer loop of [flip_line] over the cells of one scanned line:
    every cell holds an opposing piece and is turned. *)
Lemma flip_cells_paint (c : colour) (cells : list (Z * Z * pos)) :
  NoDup (map (fun cl => (fst (fst cl), snd (fst cl))) cells) ->
  forall s,
  wf_board (Othello.board s) ->
  (forall cl, In cl cells ->
     (0 <= fst (fst cl) < 8 /\ 0 <= snd (fst cl) < 8) /\
     cell_at (Othello.board s) (fst (fst cl)) (snd (fst cl)) = Piece (FLIP_RULE c)) ->
  for_each (fun cl => Othello.flip (fst (fst cl), snd (fst cl))) cells s =
  ({| Othello.board :=
        paint c (Othello.board s) (map (fun cl => (fst (fst cl), snd (fst cl))) cells);
      Othello.possible_moves := Othello.possible_moves s |}, None).
Proof.
  induction cells as [|cl cells IH]; intros Hnd s Hwf Hcells.
  - destruct s. reflexivity.
  - cbn [map] in Hnd. inversion Hnd as [|? ? Hnin Hnd']; subst.
    rewrite for_each_cons.
    destruct (Hcells cl (or_introl eq_refl)) as [[Hx Hy] Hc].
    unfold Othello.flip at 1. cbn [fst snd]. rewrite Hc, FLIP_RULE_involutive.
    rewrite IH.
    + reflexivity.
    + exact Hnd'.
    + cbn [Othello.board]. apply wf_set_cell. exact Hwf.
    + intros cl' Hcl'. destruct (Hcells cl' (or_intror Hcl')) as [[Hx' Hy'] Hc'].
      split; [split; assumption|]. cbn [Othello.board].
      rewrite cell_at_set_cell by (assumption || lia).
      destruct (Z.eqb_spec (fst (fst cl')) (fst (fst cl))) as [Hex|Hex];
        destruct (Z.eqb_spec (snd (fst cl')) (snd (fst cl))) as [Hey|Hey];
        cbn [andb]; try exact Hc'.
      exfalso. apply Hnin. apply in_map_iff. exists cl'. split; [|exact Hcl'].
      rewrite Hex, Hey. reflexivity.
Qed.

(** The yielded cells of a direction, as a run along its ray. *)
Lemma run_spec (b : board) (p : pos) (c : colour) (step : pos) :
  run b p c step = [] \/
  exists i, 2 <= i < 8 /\
    run b p c step =
      map (fun z => (fst step * z + fst p, snd step * z + snd p)) (range 1 i) /\
    (forall j, 1 <= j < i ->
       on_grid p step j /\ cell_on b p step j = Piece (FLIP_RULE c)) /\
    on_grid p step i /\ cell_on b p step i = Piece c.
Proof.
  unfold run, line_cells.
  destruct (line_scan b p c step false (range 1 BOARD_SIZE) 0) as [[|] i] eqn:Hs;
    [|left; reflexivity].
  right. apply line_scan_spec in Hs. destruct Hs as (Hi & Hrun & Hend).
  exists i. split; [exact Hi|]. split; [|split; [exact Hrun|exact Hend]].
  rewrite map_map. reflexivity.
Qed.

Lemma in_run (b : board) (p : pos) (c : colour) (step q : pos) :
  In q (run b p c step) ->
  exists i z, 1 <= z < i /\ 2 <= i < 8 /\
    q = (fst step * z + fst p, snd step * z + snd p) /\
    (forall j, 1 <= j < i ->
       on_grid p step j /\ cell_on b p step j = Piece (FLIP_RULE c)) /\
    on_grid p step i /\ cell_on b p step i = Piece c.
Proof.
  intros Hin. destruct (run_spec b p c step) as [Hnil|(i & Hi & Heq & Hrun & Hend)].
  - rewrite Hnil in Hin. destruct Hin.
  - rewrite Heq in Hin. apply in_map_iff in Hin. destruct Hin as [z [<- Hz]].
    apply in_range_list in Hz. exists i, z. auto.
Qed.

Lemma NoDup_run (b : board) (p : pos) (c : colour) (step : pos) :
  is_direction step -> NoDup (run b p c step).
Proof.
  intros Hd. destruct (run_spec b p c step) as [->|(i & Hi & -> & _)]; [constructor|].
  apply Injective_map_NoDup_in; [|apply NoDup_range].
  intros z z' Hz Hz' Heq. apply in_range_list in Hz, Hz'.
  inversion Heq as [[H1 H2]].
  destruct (ray_injective step step z z' p Hd Hd) as [_ Hzz]; lia.
Qed.

(** [flip_line] on the grid [b0] with the mover's piece put on [p]: the
    directions are scanned one after another, each on the grid as the
    earlier flips left it, and each scan finds what it finds on [b0]. *)
Lemma flip_lines_paint (b0 : board) (p : pos) (c : colour) (lines : list pos) :
  NoDup lines ->
  (forall d, In d lines -> is_direction d) ->
  forall s,
  wf_board (Othello.board s) ->
  (forall d z, In d lines -> 1 <= z -> on_grid p d z ->
     cell_on (Othello.board s) p d z = cell_on b0 p d z) ->
  for_each (fun step s1 =>
      for_each (fun cl => Othello.flip (fst (fst cl), snd (fst cl)))
        (line_cells (Othello.board s1) p c step) s1) lines s =
  ({| Othello.board := paint c (Othello.board s) (flat_map (run b0 p c) lines);
      Othello.possible_moves := Othello.possible_moves s |}, None).
Proof.
  intros Hnd. induction Hnd as [|d lines Hnin Hnd IH]; intros Hdirs s Hwf Hsame.
  - destruct s. reflexivity.
  - rewrite for_each_cons.
    assert (is_direction d) as Hd by (apply Hdirs; left; reflexivity).
    rewrite (line_cells_ext (Othello.board s) b0)
      by (intros z Hz Hg; apply Hsame; [left; reflexivity|exact Hz|exact Hg]).
    rewrite (flip_cells_paint c).
    + fold (run b0 p c d).
      rewrite IH.
      * cbn [Othello.board Othello.possible_moves flat_map].
        unfold paint. rewrite fold_left_app. reflexivity.
      * intros d' Hd'. apply Hdirs. right. exact Hd'.
      * cbn [Othello.board]. apply wf_paint. exact Hwf.
      * intros d' z Hd' Hz Hg. cbn [Othello.board].
        rewrite <- (Hsame d' z (or_intror Hd') Hz Hg).
        unfold cell_on. destruct Hg as [Hgx Hgy].
        rewrite cell_at_paint; try lia; try exact Hwf.
        -- destruct (existsb (pos_eqb (fst d' * z + fst p, snd d' * z + snd p))
                       (run b0 p c d)) eqn:Hex; [|reflexivity].
           exfalso. apply existsb_exists in Hex. destruct Hex as [q [Hq Heq]].
           apply pos_eqb_eq in Heq. subst q.
           apply in_run in Hq. destruct Hq as (i & z' & Hz' & _ & Heq & _).
           inversion Heq as [[H1 H2]].
           destruct (ray_injective d' d z z' p) as [Hdd _]; try lia.
           ++ apply Hdirs. right. exact Hd'.
           ++ exact Hd.
           ++ subst d'. contradiction.
        -- intros q Hq. apply in_run in Hq.
           destruct Hq as (i & z' & Hz' & _ & -> & Hrun & _).
           destruct (Hrun z' Hz') as [[Hx Hy] _]. cbn [fst snd]. lia.
    + fold (run b0 p c d). apply NoDup_run. exact Hd.
    + exact Hwf.
    + intros cl Hcl.
      assert (In (fst (fst cl), snd (fst cl)) (run b0 p c d)) as Hq.
      { unfold run. apply in_map_iff. exists cl. split; [reflexivity|exact Hcl]. }
      apply in_run in Hq. destruct Hq as (i & z & Hz & _ & Heq & Hrun & _).
      destruct (Hrun z Hz) as [Hg Hopp]. inversion Heq as [[H1 H2]].
      destruct Hg as [Hgx Hgy]. split; [lia|].
      pose proof (Hsame d z (or_introl eq_refl) ltac:(lia) (conj Hgx Hgy)) as Hs.
      unfold cell_on in Hs, Hopp. rewrite H1, H2, Hs. exact Hopp.
Qed.

Lemma legal_move_facts (b : board) (p : pos) (c : colour) :
  In p (keys (moves_of (board_change b) c)) ->
  (0 <= fst p < 8 /\ 0 <= snd p < 8) /\
  cell_at b (fst p) (snd p) = E /\
  exists lines,
    dict_get (moves_of (board_change b) c) p = Some lines /\
    entry (board_change b) c p = lines /\
    NoDup lines /\
    (forall d, In d lines <-> is_direction d /\ captures b p c d) /\
    (exists d, In d lines).
Proof.
  intros Hin. destruct (board_change_index b c p) as [Hkey Hstored].
  pose proof (proj1 Hkey Hin) as (Hp & Hempty & d & Hd & Hcap).
  apply in_keys_get in Hin. destruct Hin as [lines Hlines].
  destruct (Hstored lines Hlines) as [Hnd Hiff].
  split; [exact Hp|]. split; [exact Hempty|].
  exists lines. split; [exact Hlines|]. split.
  - unfold entry. rewrite Hlines. reflexivity.
  - split; [exact Hnd|]. split; [exact Hiff|].
    exists d. apply Hiff. split; assumption.
Qed.

Lemma place_placed (p : pos) (c : colour) (s : Othello.t) :
  sound s ->
  In p (keys (moves_of (Othello.possible_moves s) c)) ->
  Othello.place p c s =
  ({| Othello.board := placed (Othello.board s) p c;
      Othello.possible_moves := board_change (placed (Othello.board s) p c) |}, None).
Proof.
  intros [Hwf Hpm] Hin. rewrite Hpm in Hin.
  destruct (legal_move_facts _ _ _ Hin)
    as ([Hx Hy] & Hempty & lines & Hget & Hentry & Hnd & Hiff & _).
  unfold Othello.place. rewrite py_setitem2_on_grid by assumption.
  unfold flip_line.
  cbn [self_possible_moves self_board self_flip Othello.object Othello.possible_moves].
  rewrite Hpm, Hget.
  rewrite (flip_lines_paint (Othello.board s) p c lines).
  - cbn [Othello.board]. unfold placed. rewrite Hentry. reflexivity.
  - exact Hnd.
  - intros d Hd. apply Hiff in Hd. tauto.
  - cbn [Othello.board]. apply wf_set_cell. exact Hwf.
  - intros d z Hd Hz [Hgx Hgy]. cbn [Othello.board]. unfold cell_on.
    rewrite cell_at_set_cell by (assumption || lia).
    apply Hiff in Hd. destruct Hd as [(Hdx & Hdy & Hn0) _].
    destruct d as [dx dy]. cbn [fst snd] in *.
    destruct (Z.eqb_spec (dx * z + fst p) (fst p)) as [H1|H1];
      destruct (Z.eqb_spec (dy * z + snd p) (snd p)) as [H2|H2];
      cbn [andb]; try reflexivity.
    exfalso. assert (dx = 0) by nia. assert (dy = 0) by nia. congruence.
Qed.

(** The turned cells are the captured ones. *)
Lemma in_flips (b : board) (p : pos) (c : colour) (lines : list pos) (q : pos) :
  0 <= fst p < 8 /\ 0 <= snd p < 8 ->
  (forall d, In d lines <-> is_direction d /\ captures b p c d) ->
  (In q (flat_map (run b p c) lines) <-> captured b p c q).
Proof.
  intros Hp Hiff. rewrite in_flat_map. split.
  - intros [d [Hd Hq]]. apply Hiff in Hd. destruct Hd as [Hd _].
    apply in_run in Hq. destruct Hq as (i & z & Hz & Hi & -> & Hrun & Hg & Hend).
    exists d, (i - 1), z. split; [exact Hd|]. split; [lia|].
    split; [intros j Hj; apply Hrun; lia|].
    replace (i - 1 + 1) with i by lia. auto.
  - intros (d & k & j & Hd & Hj & Hrun & Hg & Hend & ->).
    exists d. split.
    + apply Hiff. split; [exact Hd|]. exists k. split; [lia|]. auto.
    + destruct (run_spec b p c d) as [Hnil|(i & Hi & Heq & Hrun' & Hg' & Hend')].
      * exfalso. unfold run in Hnil. apply map_eq_nil in Hnil.
        unfold line_cells in Hnil.
        destruct (line_scan b p c d false (range 1 BOARD_SIZE) 0) as [[|] i] eqn:Hs.
        -- apply line_scan_spec in Hs. destruct Hs as (Hi & _).
           apply map_eq_nil in Hnil. rewrite range_cons in Hnil by lia. discriminate.
        -- assert (exists i', line_scan b p c d false (range 1 BOARD_SIZE) 0 = (true, i'))
             as [i' Hs'].
           { exists (k + 1). apply line_scan_spec.
             destruct Hg as [Hgx Hgy]. destruct d as [dx dy].
             destruct Hd as (Hdx & Hdy & Hn0). destruct Hp as [Hpx Hpy].
             cbn [fst snd] in *.
             assert (k + 1 < 8).
             { destruct (Z.eq_dec dx 0) as [->|Hx0].
               - assert (dy <> 0) by congruence. nia.
               - nia. }
             split; [lia|]. split; [intros j' Hj'; apply Hrun; lia|].
             split; [split; assumption|exact Hend]. }
           congruence.
      * rewrite Heq. apply in_map_iff. exists j. split; [reflexivity|].
        apply in_range_list.
        assert (i = k + 1); [|lia].
        destruct (Z.lt_trichotomy i (k + 1)) as [Hlt|[Heq'|Hgt]]; [|exact Heq'|].
        -- destruct (Hrun i ltac:(lia)) as [_ Ho]. rewrite Hend' in Ho.
           inversion Ho as [Hc]. destruct c; discriminate.
        -- destruct (Hrun' (k + 1) ltac:(lia)) as [_ Ho]. rewrite Hend in Ho.
           inversion Ho as [Hc]. destruct c; discriminate.
Qed.

Lemma tally_app (c : cell) (l l' : list cell) :
  tally c (l ++ l') = tally c l + tally c l'.
Proof.
  unfold tally. rewrite filter_app, length_app, Nat2Z.inj_add. reflexivity.
Qed.

Lemma tally_list_set (k : cell) (l : list cell) (n : nat) (v : cell) :
  (n < length l)%nat ->
  tally k (list_set l n v) =
  tally k l - (if cell_eqb k (nth n l E) then 1 else 0) + (if cell_eqb k v then 1 else 0).
Proof.
  revert n. induction l as [|a l IH]; intros n Hn; [cbn [length] in Hn; lia|].
  destruct n as [|n]; cbn [list_set nth].
  - rewrite !tally_cons. lia.
  - rewrite !tally_cons. rewrite IH by (cbn [length] in Hn; lia). lia.
Qed.

Lemma tally_concat_list_set (k : cell) (rows : list (list cell)) (n : nat) (r : list cell) :
  (n < length rows)%nat ->
  tally k (List.concat (list_set rows n r)) =
  tally k (List.concat rows) - tally k (nth n rows []) + tally k r.
Proof.
  revert n. induction rows as [|a rows IH]; intros n Hn; [cbn [length] in Hn; lia|].
  destruct n as [|n]; cbn [list_set nth List.concat]; rewrite !tally_app.
  - lia.
  - rewrite IH by (cbn [length] in Hn; lia). lia.
Qed.

Lemma pieces_set_cell (b : board) (x y : Z) (v k : cell) :
  wf_board b -> 0 <= x < 8 -> 0 <= y < 8 ->
  pieces (set_cell b x y v) k =
  pieces b k - (if cell_eqb k (cell_at b x y) then 1 else 0)
             + (if cell_eqb k v then 1 else 0).
Proof.
  intros Hwf Hx Hy. unfold pieces, set_cell, cell_at.
  pose proof (wf_board_row b (Z.to_nat y) Hwf ltac:(lia)) as Hrow.
  destruct Hwf as [Hlen _].
  rewrite tally_concat_list_set by lia.
  rewrite tally_list_set by lia. lia.
Qed.

(** Turning [n] distinct opposing pieces moves [n] from one count to the other. *)
Lemma pieces_paint (c : colour) (cells : list pos) :
  NoDup cells ->
  forall b, wf_board b ->
  (forall q, In q cells ->
     (0 <= fst q < 8 /\ 0 <= snd q < 8) /\
     cell_at b (fst q) (snd q) = Piece (FLIP_RULE c)) ->
  pieces (paint c b cells) E = pieces b E /\
  pieces (paint c b cells) (Piece c) = pieces b (Piece c) + Z.of_nat (length cells) /\
  pieces (paint c b cells) (Piece (FLIP_RULE c)) =
    pieces b (Piece (FLIP_RULE c)) - Z.of_nat (length cells).
Proof.
  intros Hnd. induction Hnd as [|q cells Hnin Hnd IH]; intros b Hwf Hcells.
  - cbn [paint fold_left length]. lia.
  - unfold paint. cbn [fold_left].
    fold (paint c (set_cell b (fst q) (snd q) (Piece c)) cells).
    destruct (Hcells q (or_introl eq_refl)) as [[Hx Hy] Hq].
    destruct (IH (set_cell b (fst q) (snd q) (Piece c))) as (HE & Hc & Ho).
    + apply wf_set_cell. exact Hwf.
    + intros q' Hq'. destruct (Hcells q' (or_intror Hq')) as [[Hx' Hy'] Hc'].
      split; [split; assumption|].
      rewrite cell_at_set_cell by (assumption || lia).
      destruct (Z.eqb_spec (fst q') (fst q)) as [H1|H1];
        destruct (Z.eqb_spec (snd q') (snd q)) as [H2|H2]; cbn [andb]; try exact Hc'.
      exfalso. apply Hnin. replace q with q'; [exact Hq'|].
      destruct q, q'. cbn [fst snd] in *. congruence.
    + rewrite HE, Hc, Ho, !pieces_set_cell by assumption. rewrite Hq.
      cbn [length]. rewrite Nat2Z.inj_succ.
      destruct c; cbn [cell_eqb colour_eqb FLIP_RULE]; lia.
Qed.

Lemma NoDup_flips (b : board) (p : pos) (c : colour) (lines : list pos) :
  NoDup lines -> (forall d, In d lines -> is_direction d) ->
  NoDup (flat_map (run b p c) lines).
Proof.
  intros Hnd. induction Hnd as [|d lines Hnin Hnd IH]; intros Hdirs; [constructor|].
  cbn [flat_map]. apply NoDup_app.
  - apply NoDup_run. apply Hdirs. left. reflexivity.
  - apply IH. intros d' Hd'. apply Hdirs. right. exact Hd'.
  - intros q Hq Hq'. apply in_flat_map in Hq'. destruct Hq' as [d' [Hd' Hq']].
    apply in_run in Hq, Hq'.
    destruct Hq as (i & z & Hz & _ & -> & _).
    destruct Hq' as (i' & z' & Hz' & _ & Heq & _).
    inversion Heq as [[H1 H2]].
    destruct (ray_injective d d' z z' p) as [Hdd _]; try lia.
    + apply Hdirs. left. reflexivity.
    + apply Hdirs. right. exact Hd'.
    + subst d'. contradiction.
Qed.

Lemma placed_cells (b : board) (p : pos) (c : colour) (q : pos) :
  wf_board b ->
  In p (keys (moves_of (board_change b) c)) ->
  0 <= fst q < 8 /\ 0 <= snd q < 8 ->
  cell_at (placed b p c) (fst q) (snd q) =
  if existsb (pos_eqb q) (flat_map (run b p c) (entry (board_change b) c p))
  then Piece c
  else if pos_eqb q p then Piece c else cell_at b (fst q) (snd q).
Proof.
  intros Hwf Hin [Hqx Hqy].
  destruct (legal_move_facts _ _ _ Hin)
    as ([Hx Hy] & Hempty & lines & Hget & Hentry & Hnd & Hiff & _).
  unfold placed. rewrite Hentry.
  rewrite cell_at_paint; try lia.
  - destruct q as [qx qy]. cbn [fst snd].
    destruct (existsb (pos_eqb (qx, qy)) (flat_map (run b p c) lines)); [reflexivity|].
    cbn [fst snd] in *. rewrite cell_at_set_cell by (assumption || lia).
    reflexivity.
  - intros q' Hq'. apply in_flat_map in Hq'. destruct Hq' as [d [_ Hq']].
    apply in_run in Hq'. destruct Hq' as (i & z & Hz & _ & -> & Hrun & _).
    destruct (Hrun z Hz) as [[H1 H2] _]. cbn [fst snd]. lia.
  - apply wf_set_cell. exact Hwf.
Qed.

Lemma captures_captured (b : board) (p : pos) (c : colour) (d : pos) :
  is_direction d -> captures b p c d ->
  captured b p c (fst d * 1 + fst p, snd d * 1 + snd p).
Proof.
  intros Hdir (k & Hk & Hrun & Hg & Hend).
  exists d, k, 1. split; [exact Hdir|]. split; [lia|].
  split; [exact Hrun|]. split; [exact Hg|]. split; [exact Hend|reflexivity].
Qed.

Lemma place_legal_cells (p : pos) (c : colour) (s : Othello.t) :
  sound s ->
  In p (keys (moves_of (Othello.possible_moves s) c)) ->
  snd (Othello.place p c s) = None /\
  sound (fst (Othello.place p c s)) /\
  (exists q, captured (Othello.board s) p c q) /\
  forall q, 0 <= fst q < 8 /\ 0 <= snd q < 8 ->
    (q = p \/ captured (Othello.board s) p c q ->
       cell_at (Othello.board (fst (Othello.place p c s))) (fst q) (snd q) = Piece c) /\
    (q <> p -> ~ captured (Othello.board s) p c q ->
       cell_at (Othello.board (fst (Othello.place p c s))) (fst q) (snd q) =
       cell_at (Othello.board s) (fst q) (snd q)).
Proof.
  intros Hs Hin. rewrite (place_placed p c s Hs Hin). cbn [fst snd Othello.board].
  destruct Hs as [Hwf Hpm]. rewrite Hpm in Hin.
  destruct (legal_move_facts _ _ _ Hin)
    as (Hp & Hempty & lines & Hget & Hentry & Hnd & Hiff & d & Hd).
  split; [reflexivity|]. split; [|split].
  - split; [|reflexivity]. cbn [Othello.board]. unfold placed.
    apply wf_paint, wf_set_cell. exact Hwf.
  - pose proof (proj1 (Hiff d) Hd) as [Hdir Hcap].
    exists (fst d * 1 + fst p, snd d * 1 + snd p).
    apply captures_captured; assumption.
  - intros q Hq. rewrite (placed_cells _ _ _ _ Hwf Hin Hq), Hentry.
    pose proof (in_flips (Othello.board s) p c lines q Hp Hiff) as Hfl.
    destruct (existsb (pos_eqb q) (flat_map (run (Othello.board s) p c) lines)) eqn:Hex.
    + split; [reflexivity|]. intros _ Hnc. exfalso. apply Hnc. apply Hfl.
      apply existsb_exists in Hex. destruct Hex as [q' [Hq' Heq]].
      apply pos_eqb_eq in Heq. subst q'. exact Hq'.
    + assert (~ captured (Othello.board s) p c q) as Hnc.
      { intros Hc. apply Hfl in Hc.
        assert (existsb (pos_eqb q) (flat_map (run (Othello.board s) p c) lines) = true);
          [|congruence].
        apply existsb_exists. exists q. split; [exact Hc|apply pos_eqb_refl]. }
      split.
      * intros [-> | Hc]; [rewrite pos_eqb_refl; reflexivity|contradiction].
      * intros Hne _. apply pos_eqb_neq in Hne. rewrite Hne. reflexivity.
Qed.

Lemma place_legal_counts (p : pos) (c : colour) (s : Othello.t) :
  sound s ->
  In p (keys (moves_of (Othello.possible_moves s) c)) ->
  exists n, 1 <= n /\
    pieces (Othello.board (fst (Othello.place p c s))) E =
      pieces (Othello.board s) E - 1 /\
    pieces (Othello.board (fst (Othello.place p c s))) (Piece c) =
      pieces (Othello.board s) (Piece c) + 1 + n /\
    pieces (Othello.board (fst (Othello.place p c s))) (Piece (FLIP_RULE c)) =
      pieces (Othello.board s) (Piece (FLIP_RULE c)) - n.
Proof.
  intros Hs Hin. rewrite (place_placed p c s Hs Hin). cbn [fst Othello.board].
  destruct Hs as [Hwf Hpm]. rewrite Hpm in Hin.
  destruct (legal_move_facts _ _ _ Hin)
    as ([Hx Hy] & Hempty & lines & Hget & Hentry & Hnd & Hiff & d & Hd).
  set (b := Othello.board s) in *.
  set (cells := flat_map (run b p c) lines).
  exists (Z.of_nat (length cells)).
  assert (forall q, In q cells ->
            (0 <= fst q < 8 /\ 0 <= snd q < 8) /\ q <> p /\
            cell_at b (fst q) (snd q) = Piece (FLIP_RULE c)) as Hcells.
  { intros q Hq. apply in_flat_map in Hq. destruct Hq as [d' [Hd' Hq]].
    apply in_run in Hq. destruct Hq as (i & z & Hz & _ & -> & Hrun & _).
    destruct (Hrun z Hz) as [[H1 H2] Ho]. cbn [fst snd].
    split; [lia|]. split; [|exact Ho].
    intros Heq. unfold cell_on in Ho. rewrite <- Heq in Hempty.
    cbn [fst snd] in Hempty. congruence. }
  destruct (pieces_paint c cells) with (b := set_cell b (fst p) (snd p) (Piece c))
    as (HE & Hc & Ho).
  - apply NoDup_flips; [exact Hnd|]. intros d' Hd'. apply Hiff in Hd'. tauto.
  - apply wf_set_cell. exact Hwf.
  - intros q Hq. destruct (Hcells q Hq) as ([Hqx Hqy] & Hne & Hopp).
    split; [split; assumption|].
    rewrite cell_at_set_cell by (assumption || lia).
    destruct (Z.eqb_spec (fst q) (fst p)) as [H1|H1];
      destruct (Z.eqb_spec (snd q) (snd p)) as [H2|H2]; cbn [andb]; try exact Hopp.
    exfalso. apply Hne. destruct q, p. cbn [fst snd] in *. congruence.
  - unfold placed. rewrite Hentry. fold cells. rewrite HE, Hc, Ho.
    rewrite !pieces_set_cell by assumption. rewrite Hempty.
    split.
    + assert (cells <> []) as Hne.
      { unfold cells. intros Hnil.
        pose proof (proj1 (Hiff d) Hd) as [Hdir Hcap].
        assert (In (fst d * 1 + fst p, snd d * 1 + snd p) (flat_map (run b p c) lines))
          as Hin1.
        { apply (in_flips b p c lines _ (conj Hx Hy) Hiff).
          apply captures_captured; assumption. }
        rewrite Hnil in Hin1. destruct Hin1. }
      destruct cells; [congruence|]. cbn [length]. lia.
    + destruct c; cbn [cell_eqb colour_eqb FLIP_RULE]; lia.
Qed.

(** X1 -- [Othello.place] on a legal move of a game object in step with its
    grid raises nothing and leaves the object in step; the cell of the move
    and every captured cell (the cells of a run of opposing pieces that
    starts next to the move and is closed by a piece of the mover) hold the
    mover's colour afterwards, at least one cell is captured, and every
    other cell of the grid is unchanged. *)
Theorem place_flips_captured (p : pos) (c : colour) (s : Othello.t) :
  sound s ->
  In p (keys (moves_of (Othello.possible_moves s) c)) ->
  snd (Othello.place p c s) = None /\
  sound (fst (Othello.place p c s)) /\
  (exists q, captured (Othello.board s) p c q) /\
  forall q, 0 <= fst q < 8 /\ 0 <= snd q < 8 ->
    (q = p \/ captured (Othello.board s) p c q ->
       cell_at (Othello.board (fst (Othello.place p c s))) (fst q) (snd q) = Piece c) /\
    (q <> p -> ~ captured (Othello.board s) p c q ->
       cell_at (Othello.board (fst (Othello.place p c s))) (fst q) (snd q) =
       cell_at (Othello.board s) (fst q) (snd q)).
Proof. exact (place_legal_cells p c s). Qed.

(** X2 -- a legal move fills exactly one empty cell and turns [n >= 1]
    opposing pieces: the mover gains [1 + n] cells, the opponent loses [n]. *)
Theorem place_counts (p : pos) (c : colour) (s : Othello.t) :
  sound s ->
  In p (keys (moves_of (Othello.possible_moves s) c)) ->
  exists n, 1 <= n /\
    pieces (Othello.board (fst (Othello.place p c s))) E =
      pieces (Othello.board s) E - 1 /\
    pieces (Othello.board (fst (Othello.place p c s))) (Piece c) =
      pieces (Othello.board s) (Piece c) + 1 + n /\
    pieces (Othello.board (fst (Othello.place p c s))) (Piece (FLIP_RULE c)) =
      pieces (Othello.board s) (Piece (FLIP_RULE c)) - n.
Proof. exact (place_legal_counts p c s). Qed.

(** ** The subclass against the base class *)

Lemma for_each_simulation {S T A} (f : S -> T)
    (body : A -> S -> S * option exn) (body' : A -> T -> T * option exn) (l : list A) :
  (forall a s, In a l ->
     f (fst (body a s)) = fst (body' a (f s)) /\ snd (body a s) = snd (body' a (f s))) ->
  forall s,
  f (fst (for_each body l s)) = fst (for_each body' l (f s)) /\
  snd (for_each body l s) = snd (for_each body' l (f s)).
Proof.
  induction l as [|a l IH]; intros Hsim s; [split; reflexivity|].
  rewrite !for_each_cons.
  destruct (Hsim a s (or_introl eq_refl)) as [H1 H2].
  destruct (body a s) as [s1 e1]. destruct (body' a (f s)) as [t1 e1'].
  cbn [fst snd] in H1, H2. subst e1' t1.
  destruct e1 as [e|]; [split; reflexivity|].
  apply IH. intros a' s' Hin. apply Hsim. right. exact Hin.
Qed.

Lemma flip_unhashed (q : pos) (s : HashedLocalVersus.t) :
  unhashed (fst (HashedLocalVersus.flip q s)) = fst (Othello.flip q (unhashed s)) /\
  snd (HashedLocalVersus.flip q s) = snd (Othello.flip q (unhashed s)).
Proof.
  unfold HashedLocalVersus.flip, Othello.flip, unhashed. cbn [Othello.board].
  destruct (cell_at (HashedLocalVersus.board (HashedLocalVersus.board_state s))
              (fst q) (snd q)); split; reflexivity.
Qed.

Lemma flip_line_unhashed (p : pos) (c : colour) (s : HashedLocalVersus.t) :
  unhashed (fst (@flip_line _ HashedLocalVersus.object p c s)) =
    fst (@flip_line _ Othello.object p c (unhashed s)) /\
  snd (@flip_line _ HashedLocalVersus.object p c s) =
    snd (@flip_line _ Othello.object p c (unhashed s)).
Proof.
  unfold flip_line.
  cbn [self_possible_moves self_board self_flip HashedLocalVersus.object Othello.object].
  change (Othello.possible_moves (unhashed s)) with (HashedLocalVersus.possible_moves s).
  destruct (dict_get (moves_of (HashedLocalVersus.possible_moves s) c) p) as [lines|];
    [|split; reflexivity].
  apply (for_each_simulation unhashed). intros step s1 _.
  change (Othello.board (unhashed s1))
    with (HashedLocalVersus.board (HashedLocalVersus.board_state s1)).
  apply (for_each_simulation unhashed). intros cl s2 _. apply flip_unhashed.
Qed.

Lemma place_unhashed (p : pos) (c : colour) (s : HashedLocalVersus.t) :
  wf_table (HashedLocalVersus.table s) ->
  0 <= fst p < 8 /\ 0 <= snd p < 8 ->
  unhashed (fst (HashedLocalVersus.place p c s)) = fst (Othello.place p c (unhashed s)) /\
  snd (HashedLocalVersus.place p c s) = snd (Othello.place p c (unhashed s)).
Proof.
  intros Hwt [Hx Hy]. unfold HashedLocalVersus.place, Othello.place.
  change (Othello.board (unhashed s))
    with (HashedLocalVersus.board (HashedLocalVersus.board_state s)).
  destruct (py_setitem2 (HashedLocalVersus.board (HashedLocalVersus.board_state s))
              (snd p) (fst p) (Piece c)) as [b1|]; [|split; reflexivity].
  rewrite !py_table_on_grid by assumption. cbv zeta.
  match goal with
  | |- context [@flip_line _ HashedLocalVersus.object p c ?s1] =>
      destruct (flip_line_unhashed p c s1) as [H1 H2];
      destruct (@flip_line _ HashedLocalVersus.object p c s1) as [s2 e2]
  end.
  unfold unhashed in *.
  cbn [Othello.board Othello.possible_moves HashedLocalVersus.board
       HashedLocalVersus.board_state HashedLocalVersus.possible_moves] in *.
  match goal with
  | |- context [@flip_line _ Othello.object p c ?t1] =>
      destruct (@flip_line _ Othello.object p c t1) as [t2 e2']
  end.
  cbn [fst snd] in H1, H2. subst e2' t2.
  destruct e2 as [e|]; split; reflexivity.
Qed.

(** X3 -- with a 64 x 3 table and a position on the grid,
    [HashedLocalVersus.place] changes the grid and the move index exactly as
    [Othello.place] does, and raises exactly when it does. *)
Theorem hashed_place_refines_place (p : pos) (c : colour) (s : HashedLocalVersus.t) :
  wf_table (HashedLocalVersus.table s) ->
  0 <= fst p < 8 /\ 0 <= snd p < 8 ->
  unhashed (fst (HashedLocalVersus.place p c s)) = fst (Othello.place p c (unhashed s)) /\
  snd (HashedLocalVersus.place p c s) = snd (Othello.place p c (unhashed s)).
Proof. exact (place_unhashed p c s). Qed.

Lemma unhashed_get_hash_version (tbl : list (list Z)) (s : Othello.t) :
  unhashed (HashedLocalVersus.get_hash_version tbl s) = s.
Proof. destruct s. reflexivity. Qed.

Lemma get_hash_version_consistent (tbl : list (list Z)) (s : Othello.t) :
  wf_board (Othello.board s) ->
  consistent tbl (HashedLocalVersus.get_hash_version tbl s).
Proof. intros Hwf. split; [exact Hwf|]. split; reflexivity. Qed.

(** X4 -- hashing commutes with a legal move: placing on the hashed version
    of a game gives the hashed version ([get_hash_version], hash recomputed
    from scratch) of the game after [Othello.place], and raises nothing. *)
Theorem incremental_hash_commutes (tbl : list (list Z)) (p : pos) (c : colour) (s : Othello.t) :
  wf_table tbl ->
  sound s ->
  In p (keys (moves_of (Othello.possible_moves s) c)) ->
  HashedLocalVersus.place p c (HashedLocalVersus.get_hash_version tbl s) =
  (HashedLocalVersus.get_hash_version tbl (fst (Othello.place p c s)), None).
Proof.
  intros Hwt [Hwf Hpm] Hin.
  set (h := HashedLocalVersus.get_hash_version tbl s).
  destruct (HashedFacts.place_legal tbl p c h Hwt (get_hash_version_consistent tbl s Hwf))
    as (Hnone & (Hwf' & Htbl & Hhash) & _).
  { exact Hpm. }
  { exact Hin. }
  assert (0 <= fst p < 8 /\ 0 <= snd p < 8) as Hp.
  { rewrite Hpm in Hin. apply board_change_index in Hin. tauto. }
  destruct (place_unhashed p c h Hwt Hp) as [Hsim _].
  unfold h in Hsim at 2. rewrite unhashed_get_hash_version in Hsim.
  destruct (HashedLocalVersus.place p c h) as [[[rb rh] rpm rt] e].
  cbn [fst snd HashedLocalVersus.board HashedLocalVersus.board_state
       HashedLocalVersus.hash_num HashedLocalVersus.table] in *.
  subst e rt rh. rewrite <- Hsim. reflexivity.
Qed.

Lemma list_set_twice {A} (l : list A) (n : nat) (v w : A) :
  list_set (list_set l n v) n w = list_set l n w.
Proof.
  revert n. induction l as [|a l IH]; intros [|n]; cbn [list_set]; try reflexivity.
  rewrite IH. reflexivity.
Qed.

Lemma list_set_same {A} (l : list A) (n : nat) (d : A) :
  (n < length l)%nat -> list_set l n (nth n l d) = l.
Proof.
  revert n. induction l as [|a l IH]; intros [|n] Hn; cbn [list_set nth length] in *;
    try reflexivity; try lia.
  rewrite IH by lia. reflexivity.
Qed.

Lemma set_cell_back (b : board) (x y : Z) (v w : cell) :
  wf_board b -> 0 <= x < 8 -> 0 <= y < 8 ->
  cell_at b x y = w ->
  set_cell (set_cell b x y v) x y w = b.
Proof.
  intros Hwf Hx Hy <-. unfold set_cell, cell_at.
  pose proof (wf_board_row b (Z.to_nat y) Hwf ltac:(lia)) as Hrow.
  destruct Hwf as [Hlen _].
  rewrite nth_list_set by lia. rewrite Nat.eqb_refl.
  rewrite !list_set_twice. rewrite list_set_same by lia.
  apply list_set_same. lia.
Qed.

(** X5 -- [HashedLocalVersus.flip] on a piece of the grid raises nothing, and
    a second flip of the same cell restores the object, hash included. *)
Theorem flip_undoes_flip (q : pos) (s : HashedLocalVersus.t) :
  wf_board (HashedLocalVersus.board (HashedLocalVersus.board_state s)) ->
  0 <= fst q < 8 /\ 0 <= snd q < 8 ->
  cell_at (HashedLocalVersus.board (HashedLocalVersus.board_state s)) (fst q) (snd q) <> E ->
  snd (HashedLocalVersus.flip q s) = None /\
  HashedLocalVersus.flip q (fst (HashedLocalVersus.flip q s)) = (s, None).
Proof.
  intros Hwf [Hx Hy] Hne. destruct s as [[b h] pm tbl].
  cbn [HashedLocalVersus.board HashedLocalVersus.board_state] in *.
  unfold HashedLocalVersus.flip at 1 3.
  cbn [HashedLocalVersus.board HashedLocalVersus.board_state HashedLocalVersus.hash_num
       HashedLocalVersus.possible_moves HashedLocalVersus.table].
  destruct (cell_at b (fst q) (snd q)) as [|c] eqn:Hc; [congruence|].
  cbn [fst snd]. split; [reflexivity|].
  unfold HashedLocalVersus.flip.
  cbn [HashedLocalVersus.board HashedLocalVersus.board_state HashedLocalVersus.hash_num
       HashedLocalVersus.possible_moves HashedLocalVersus.table].
  rewrite cell_at_set_cell by (assumption || lia).
  rewrite !Z.eqb_refl. cbn [andb]. rewrite FLIP_RULE_involutive.
  rewrite (set_cell_back b (fst q) (snd q) _ (Piece c)) by assumption.
  unfold HashedLocalVersus.xor_cell. cbn [HashedLocalVersus.table].
  set (tc := table_at tbl (snd q * BOARD_SIZE + fst q) (XOR_INDICES (Piece c))).
  set (tf := table_at tbl (snd q * BOARD_SIZE + fst q)
               (XOR_INDICES (Piece (FLIP_RULE c)))).
  replace (Z.lxor (Z.lxor (Z.lxor (Z.lxor h tc) tf) tf) tc) with h; [reflexivity|].
  rewrite (Z.lxor_assoc (Z.lxor h tc) tf tf), Z.lxor_nilpotent, Z.lxor_0_r.
  rewrite Z.lxor_assoc, Z.lxor_nilpotent, Z.lxor_0_r. reflexivity.
Qed.

(** ** The turn sequence and the replay loop *)

Lemma sound_init : sound (Othello.init None).
Proof. split; [exact wf_start_board|reflexivity]. Qed.

Lemma next_yields_mover (g : Othello.end_game_iterator) (pm : moves) (c : colour) :
  fst (Othello.next g pm) = Some c ->
  moves_of pm c <> [] /\
  Othello.colour_var (snd (Othello.next g pm)) = c /\
  Othello.at_ (snd (Othello.next g pm)) <> Othello.Finished.
Proof.
  unfold Othello.next.
  destruct (Othello.at_ g) eqn:Hat; cbn [fst snd]; try discriminate;
  match goal with
  | |- context [moves_of pm ?c0] =>
      destruct (moves_of pm c0) as [|m l] eqn:H0; cbn [length Nat.eqb negb]
  end;
  try (intros H; inversion H; subst; rewrite ?H0;
       cbn [snd Othello.colour_var Othello.at_]; repeat split; congruence);
  match goal with
  | |- context [moves_of pm (FLIP_RULE ?c0)] =>
      destruct (moves_of pm (FLIP_RULE c0)) as [|m' l'] eqn:H1; cbn [length Nat.eqb negb]
  end;
  cbn [fst snd]; try discriminate;
  intros H; inversion H; subst; rewrite ?H1;
  cbn [snd Othello.colour_var Othello.at_]; repeat split; congruence.
Qed.

Lemma next_stops (g : Othello.end_game_iterator) (pm : moves) :
  fst (Othello.next g pm) = None ->
  Othello.at_ (snd (Othello.next g pm)) = Othello.Finished.
Proof.
  unfold Othello.next.
  destruct (Othello.at_ g) eqn:Hat; cbn [fst snd]; try (intros _; exact Hat);
  match goal with
  | |- context [moves_of pm ?c0] =>
      destruct (length (moves_of pm c0) =? 0)%nat; cbn [negb fst snd]; try discriminate
  end;
  match goal with
  | |- context [moves_of pm (FLIP_RULE ?c0)] =>
      destruct (length (moves_of pm (FLIP_RULE c0)) =? 0)%nat; cbn [negb fst snd];
      try discriminate
  end; reflexivity.
Qed.

Lemma next_finished (g : Othello.end_game_iterator) (pm : moves) :
  Othello.at_ g = Othello.Finished -> Othello.next g pm = (None, g).
Proof. intros H. unfold Othello.next. rewrite H. reflexivity. Qed.

Lemma turns_finished (pms : list moves) :
  forall g, Othello.at_ g = Othello.Finished ->
  forall j, (j < length pms)%nat -> nth_error (turns g pms) j = Some None.
Proof.
  induction pms as [|pm pms IH]; intros g Hg j Hj; [cbn [length] in Hj; lia|].
  cbn [turns]. rewrite (next_finished g pm Hg). cbn [fst snd].
  destruct j as [|j]; [reflexivity|]. cbn [nth_error].
  apply IH; [exact Hg|]. cbn [length] in Hj. lia.
Qed.

(** X6 -- whatever the positions at which [end_game_iterator] is resumed: a
    colour it yields has a legal move at that time; once it has stopped it
    yields nothing more; and a generator that has not stopped stops exactly
    when neither colour has a move. *)
Theorem turn_sequence_safe (g : Othello.end_game_iterator) (pms : list moves) :
  (forall i pm c, nth_error pms i = Some pm ->
     nth_error (turns g pms) i = Some (Some c) -> moves_of pm c <> []) /\
  (forall i j, (i <= j < length pms)%nat ->
     nth_error (turns g pms) i = Some None -> nth_error (turns g pms) j = Some None) /\
  (forall pm rest, pms = pm :: rest -> Othello.at_ g <> Othello.Finished ->
     (nth_error (turns g pms) 0 = Some None <-> moves_W pm = [] /\ moves_B pm = [])).
Proof.
  split; [|split].
  - revert g. induction pms as [|pm0 pms IH]; intros g i pm c Hpm Ht.
    + destruct i; discriminate Hpm.
    + destruct i as [|i]; cbn [nth_error turns] in *.
      * inversion Hpm; subst. inversion Ht as [Hn].
        apply (next_yields_mover g pm c Hn).
      * apply (IH _ i pm c Hpm Ht).
  - revert g. induction pms as [|pm0 pms IH]; intros g i j Hij Ht.
    + cbn [length] in Hij. lia.
    + destruct i as [|i]; cbn [nth_error turns] in Ht.
      * assert (fst (Othello.next g pm0) = None) as Hn by congruence. clear Ht.
        destruct j as [|j]; [cbn [turns nth_error]; congruence|].
        cbn [turns nth_error]. apply turns_finished; [apply next_stops; exact Hn|].
        cbn [length] in Hij. lia.
      * destruct j as [|j]; [lia|]. cbn [turns nth_error].
        apply (IH _ i j); [cbn [length] in Hij; lia|exact Ht].
  - intros pm rest -> Hg. cbn [turns nth_error].
    pose proof (next_spec g pm Hg) as (_ & _ & Hnone).
    rewrite <- Hnone. split; congruence.
Qed.

(** Replaying an accepted command keeps the game object in step. *)
Lemma replay_move_sound (p : pos) (c : colour) (s : Othello.t) :
  sound s ->
  (Othello.replay_move p c s = (s, Some BoardError)) \/
  (snd (Othello.replay_move p c s) = None /\
   sound (fst (Othello.replay_move p c s)) /\
   pieces (Othello.board (fst (Othello.replay_move p c s))) E =
     pieces (Othello.board s) E - 1).
Proof.
  intros Hs. unfold Othello.replay_move.
  destruct (snd (Othello.can_be_placed p c s)) eqn:Hcan; cbn [negb]; [right|left; reflexivity].
  apply can_be_placed_spec in Hcan. destruct Hcan as [_ Hin].
  rewrite can_be_placed_pos.
  destruct (place_legal_cells p c s Hs Hin) as (Hn & Hs' & _).
  destruct (place_legal_counts p c s Hs Hin) as (n & _ & HE & _).
  auto.
Qed.

(** X7 -- the replay loop of [load], run on a game object in step with its
    grid and on any commands whatever: the only exception is [BoardError];
    the object stays in step; at most one colour is taken per command; and
    every command replayed fills one empty cell (the rejected command, whose
    colour was taken, fills none). *)
Theorem load_only_board_error (commands : list pos) (g : Othello.end_game_iterator)
    (s : Othello.t) :
  sound s ->
  let '(colours, g', (s', e)) := Othello.load commands g s in
  (e = None \/ e = Some BoardError) /\
  sound s' /\
  (length colours <= length commands)%nat /\
  pieces (Othello.board s') E =
    pieces (Othello.board s) E - Z.of_nat (length colours)
    + (match e with None => 0 | Some _ => 1 end) /\
  (e = Some BoardError -> colours <> []).
Proof.
  revert g s. induction commands as [|line rest IH]; intros g s Hs.
  - cbn [Othello.load length].
    split; [left; reflexivity|]. split; [exact Hs|]. split; [lia|]. split; [lia|].
    intros H; discriminate H.
  - cbn [Othello.load].
    destruct (Othello.next g (Othello.possible_moves s)) as [[playing_colour|] g1].
    + destruct (replay_move_sound line playing_colour s Hs) as [Hrej|(Hn & Hs1 & HE)].
      * rewrite Hrej. cbn [length].
        split; [right; reflexivity|]. split; [exact Hs|]. split; [lia|]. split; [lia|].
        intros _; discriminate.
      * destruct (Othello.replay_move line playing_colour s) as [s1 e1].
        cbn [fst snd] in *. subst e1.
        specialize (IH g1 s1 Hs1).
        destruct (Othello.load rest g1 s1) as [[colours g2] [s2 e2]].
        destruct IH as (He & Hs2 & Hlen & Hcount & Hne).
        cbn [length].
        split; [exact He|]. split; [exact Hs2|]. split; [lia|]. split.
        -- rewrite Hcount, HE. rewrite Nat2Z.inj_succ. lia.
        -- intros _; discriminate.
    + cbn [length].
      split; [left; reflexivity|]. split; [exact Hs|]. split; [lia|]. split; [lia|].
      intros H; discriminate H.
Qed.

(** X8 -- the loop of [play] ends where the search sees a terminal position:
    on a game object in step with its grid, a turn generator that has not
    stopped yields nothing exactly when [check_if_terminal] holds of the
    hashed version of the game. *)
Theorem game_over_iff_terminal (tbl : list (list Z)) (g : Othello.end_game_iterator)
    (s : Othello.t) :
  sound s ->
  Othello.at_ g <> Othello.Finished ->
  (fst (Othello.next g (Othello.possible_moves s)) = None <->
   AI.check_if_terminal (HashedLocalVersus.get_hash_version tbl s) = true).
Proof.
  intros [Hwf Hpm] Hg.
  pose proof (next_spec g (Othello.possible_moves s) Hg) as (_ & _ & Hnone).
  rewrite Hnone.
  destruct (check_if_terminal_index (HashedLocalVersus.get_hash_version tbl s)) as [Ht _].
  { exact Hpm. }
  cbn [HashedLocalVersus.possible_moves HashedLocalVersus.get_hash_version] in Ht.
  symmetry. exact Ht.
Qed.

Lemma length_concat_wf (b : board) : wf_board b -> length (List.concat b) = 64%nat.
Proof. intros Hwf. explode_board b Hwf. reflexivity. Qed.

(** X9 -- [count_pieces] on an 8x8 grid gives, for each of the three cell
    states, the number of cells in that state (although it reads the grid
    transposed), and the three counts add up to 64. *)
Theorem count_pieces_total (b : board) :
  wf_board b ->
  Othello.count_pieces b =
    [(Piece W, pieces b (Piece W)); (Piece B, pieces b (Piece B)); (E, pieces b E)] /\
  pieces b (Piece W) + pieces b (Piece B) + pieces b E = 64.
Proof.
  intros Hwf. rewrite count_pieces_spec, (counted_cells_concat b Hwf). split; [reflexivity|].
  unfold pieces. rewrite tally_total, (length_concat_wf b Hwf). reflexivity.
Qed.

Lemma cell_at_swap (b : board) (x y : Z) :
  cell_at (swap_colours b) x y = swap_cell (cell_at b x y).
Proof.
  unfold cell_at, swap_colours.
  change (@nil cell) with (map swap_cell []) at 1.
  rewrite map_nth. change E with (swap_cell E) at 1. rewrite map_nth. reflexivity.
Qed.

Lemma tally_swap (c : cell) (l : list cell) :
  tally (swap_cell c) (map swap_cell l) = tally c l.
Proof.
  induction l as [|d l IH]; [reflexivity|]. cbn [map]. rewrite !tally_cons, IH.
  destruct c as [|[|]], d as [|[|]]; reflexivity.
Qed.

Lemma counted_cells_swap (b : board) :
  counted_cells (swap_colours b) = map swap_cell (counted_cells b).
Proof.
  unfold counted_cells. rewrite map_map. apply map_ext. intros p. apply cell_at_swap.
Qed.

(** X10 -- [terminal_utility] is antisymmetric in the colours: exchanging
    White and Black on the grid negates the score. *)
Theorem terminal_utility_antisymmetric (tbl : list (list Z)) (b : board) :
  AI.terminal_utility
    (HashedLocalVersus.get_hash_version tbl (Othello.init (Some (swap_colours b)))) =
  - AI.terminal_utility
      (HashedLocalVersus.get_hash_version tbl (Othello.init (Some b))).
Proof.
  rewrite !terminal_utility_counts.
  cbn [HashedLocalVersus.board HashedLocalVersus.board_state
       HashedLocalVersus.get_hash_version Othello.board Othello.init].
  assert (white_count (swap_colours b) = black_count b) as ->.
  { unfold white_count, black_count. rewrite counted_cells_swap.
    apply (tally_swap (Piece B)). }
  assert (black_count (swap_colours b) = white_count b) as ->.
  { unfold white_count, black_count. rewrite counted_cells_swap.
    apply (tally_swap (Piece W)). }
  destruct (Z.eqb_spec (black_count b) (white_count b));
    destruct (Z.eqb_spec (white_count b) (black_count b));
    destruct (Z.ltb_spec (white_count b) (black_count b));
    destruct (Z.ltb_spec (black_count b) (white_count b)); lia.
Qed.

(** ** Move ordering and the leaves of the search *)

(** X11 -- [dumb_line_iterator] yields nothing, whatever its arguments: its
    loop condition [0 >= x > BOARD_SIZE] cannot hold. *)
Theorem dumb_line_iterator_empty (fuel : nat) (y x : Z) (line_diff : pos) :
  AI.dumb_line_iterator fuel y x line_diff = [].
Proof.
  destruct fuel as [|fuel]; [reflexivity|]. cbn [AI.dumb_line_iterator].
  destruct (Z.geb_spec 0 x); destruct (Z.gtb_spec x BOARD_SIZE); cbn [andb];
    try reflexivity.
  unfold BOARD_SIZE in *. lia.
Qed.

Lemma in_insert_desc {A} (key : A -> Z) (x y : A) (l : list A) :
  In y (insert_desc key x l) <-> y = x \/ In y l.
Proof.
  induction l as [|h t IH]; cbn [insert_desc].
  - simpl. intuition congruence.
  - destruct (key h <? key x); simpl in *; [intuition congruence|].
    rewrite IH. intuition congruence.
Qed.

Lemma insert_desc_perm {A} (key : A -> Z) (x : A) (l : list A) :
  Permutation (insert_desc key x l) (x :: l).
Proof.
  induction l as [|h t IH]; cbn [insert_desc]; [reflexivity|].
  destruct (key h <? key x); [reflexivity|].
  rewrite IH. apply perm_swap.
Qed.

Lemma sorted_reverse_perm {A} (key : A -> Z) (l : list A) :
  Permutation (sorted_reverse key l) l.
Proof.
  unfold sorted_reverse.
  assert (forall acc, Permutation (fold_left (fun acc x => insert_desc key x acc) l acc)
                        (acc ++ l)) as H.
  { induction l as [|x l IH]; intros acc; cbn [fold_left].
    - rewrite app_nil_r. reflexivity.
    - rewrite IH, insert_desc_perm. apply Permutation_middle. }
  apply (H []).
Qed.

Lemma insert_desc_head {A} (key : A -> Z) (x : A) (l : list A) :
  head_largest key l -> head_largest key (insert_desc key x l).
Proof.
  destruct l as [|h t]; cbn [insert_desc head_largest].
  - intros _ y [->|[]]. lia.
  - intros Hh. destruct (Z.ltb_spec (key h) (key x)) as [Hlt|Hge]; cbn [head_largest].
    + intros y [->|Hy]; [lia|]. specialize (Hh y Hy). lia.
    + intros y [->|Hy]; [lia|]. apply in_insert_desc in Hy.
      destruct Hy as [->|Hy]; [lia|]. apply Hh. right. exact Hy.
Qed.

Lemma sorted_reverse_head {A} (key : A -> Z) (l : list A) :
  head_largest key (sorted_reverse key l).
Proof.
  unfold sorted_reverse.
  assert (forall acc, head_largest key acc ->
            head_largest key (fold_left (fun acc x => insert_desc key x acc) l acc)) as H.
  { induction l as [|x l IH]; intros acc Hacc; cbn [fold_left]; [exact Hacc|].
    apply IH. apply insert_desc_head. exact Hacc. }
  apply H. exact I.
Qed.

Lemma place_each_ok (actions : list pos) (s : HashedLocalVersus.t) (player : colour) :
  (forall a, In a actions -> snd (HashedLocalVersus.place a player s) = None) ->
  AI.place_each actions s player =
  Ok (map (fun a => (fst (HashedLocalVersus.place a player s), a)) actions).
Proof.
  induction actions as [|a actions IH]; intros Hok; [reflexivity|].
  cbn [AI.place_each map].
  pose proof (Hok a (or_introl eq_refl)) as Ha.
  destruct (HashedLocalVersus.place a player s) as [nb e]. cbn [snd fst] in *. subst e.
  rewrite IH by (intros a' Ha'; apply Hok; right; exact Ha'). reflexivity.
Qed.

Lemma sort_actions_ok (w : list (list Z)) (tbl : list (list Z)) (s : HashedLocalVersus.t)
    (check_move_first : option pos) (factor : Z) (player : colour) :
  hashed_sound tbl s ->
  AI.sort_actions w (keys (moves_of (HashedLocalVersus.possible_moves s) player)) s
    check_move_first factor player =
  Ok (sorted_reverse
        (fun x => AI.is_move check_move_first (snd x) * 50000
                  + AI.utility w (fst x) (snd x) factor)
        (map (fun a => (fst (HashedLocalVersus.place a player s), a))
           (keys (moves_of (HashedLocalVersus.possible_moves s) player)))).
Proof.
  intros (Hwt & Hc & Hpm). unfold AI.sort_actions.
  rewrite place_each_ok; [reflexivity|].
  intros a Ha. apply (HashedFacts.place_legal tbl a player s Hwt Hc Hpm Ha).
Qed.

(** X12 -- on a hashed board in step with its grid, [sort_actions] applied
    to the legal moves of a colour raises nothing and returns one entry per
    move, in some order: the move paired with the board that [place] makes
    of a copy, itself in step with its grid. *)
Theorem sort_actions_permutation (w : list (list Z)) (tbl : list (list Z))
    (s : HashedLocalVersus.t) (check_move_first : option pos) (factor : Z)
    (player : colour) :
  hashed_sound tbl s ->
  exists boards,
    AI.sort_actions w (keys (moves_of (HashedLocalVersus.possible_moves s) player)) s
      check_move_first factor player = Ok boards /\
    Permutation (map snd boards)
      (keys (moves_of (HashedLocalVersus.possible_moves s) player)) /\
    forall new_board action, In (new_board, action) boards ->
      new_board = fst (HashedLocalVersus.place action player s) /\
      hashed_sound tbl new_board.
Proof.
  intros Hs. rewrite (sort_actions_ok w tbl s _ _ _ Hs).
  eexists. split; [reflexivity|]. split.
  - rewrite sorted_reverse_perm. rewrite map_map. cbn [snd]. rewrite map_id. reflexivity.
  - intros nb a Hin.
    apply (Permutation_in _ (sorted_reverse_perm _ _)) in Hin.
    apply in_map_iff in Hin. destruct Hin as [a' [Heq Ha']].
    inversion Heq; subst. split; [reflexivity|].
    destruct Hs as (Hwt & Hc & Hpm).
    destruct (HashedFacts.place_legal tbl a player s Hwt Hc Hpm Ha') as (_ & Hc' & Hpm').
    split; [exact Hwt|]. split; assumption.
Qed.

Lemma terminal_utility_range (s : HashedLocalVersus.t) :
  Z.abs (AI.terminal_utility s) <= 149.
Proof.
  rewrite terminal_utility_counts.
  set (b := HashedLocalVersus.board (HashedLocalVersus.board_state s)).
  pose proof (counts_at_most_64 b). pose proof (white_count_nonneg b).
  pose proof (black_count_nonneg b).
  destruct (white_count b =? black_count b); [lia|].
  destruct (black_count b <? white_count b); lia.
Qed.

Lemma weight_bounded (w : list (list Z)) (i j : nat) :
  bounded_weights w -> Z.abs (nth j (nth i w []) 0) < 25000.
Proof.
  intros Hw.
  assert (Forall (fun z => Z.abs z < 25000) (nth i w [])) as Hrow.
  { destruct (Nat.lt_ge_cases i (length w)) as [Hi|Hi].
    - apply (proj1 (Forall_forall _ _) Hw). apply nth_In. exact Hi.
    - rewrite nth_overflow by exact Hi. constructor. }
  destruct (Nat.lt_ge_cases j (length (nth i w []))) as [Hj|Hj].
  - apply (proj1 (Forall_forall _ _) Hrow). apply nth_In. exact Hj.
  - rewrite nth_overflow by exact Hj. reflexivity.
Qed.

Lemma utility_bounded (w : list (list Z)) (s : HashedLocalVersus.t) (move : pos)
    (factor : Z) :
  bounded_weights w -> factor = 1 \/ factor = -1 ->
  Z.abs (AI.utility w s move factor) < 25000.
Proof.
  intros Hw Hf. unfold AI.utility. destruct (AI.check_if_terminal s).
  - pose proof (terminal_utility_range s). destruct Hf as [-> | ->]; lia.
  - apply weight_bounded. exact Hw.
Qed.

(** X13 -- with weights below 25000 in magnitude, the move passed as
    [check_move_first] heads the list that [sort_actions] returns. *)
Theorem sort_actions_first_move (w : list (list Z)) (tbl : list (list Z))
    (s : HashedLocalVersus.t) (m : pos) (factor : Z) (player : colour) :
  bounded_weights w ->
  factor = 1 \/ factor = -1 ->
  hashed_sound tbl s ->
  In m (keys (moves_of (HashedLocalVersus.possible_moves s) player)) ->
  exists rest,
    AI.sort_actions w (keys (moves_of (HashedLocalVersus.possible_moves s) player)) s
      (Some m) factor player =
    Ok ((fst (HashedLocalVersus.place m player s), m) :: rest).
Proof.
  intros Hw Hf Hs Hm. rewrite (sort_actions_ok w tbl s _ _ _ Hs).
  set (key := fun x : HashedLocalVersus.t * pos =>
                AI.is_move (Some m) (snd x) * 50000 + AI.utility w (fst x) (snd x) factor).
  set (boards := map (fun a => (fst (HashedLocalVersus.place a player s), a))
                   (keys (moves_of (HashedLocalVersus.possible_moves s) player))).
  pose proof (sorted_reverse_head key boards) as Hhead.
  pose proof (sorted_reverse_perm key boards) as Hperm.
  assert (In (fst (HashedLocalVersus.place m player s), m) boards) as Hin.
  { unfold boards. apply in_map_iff. exists m. split; [reflexivity|exact Hm]. }
  destruct (sorted_reverse key boards) as [|[nb a] rest] eqn:Hsorted.
  - apply Permutation_nil in Hperm. rewrite Hperm in Hin. destruct Hin.
  - exists rest. f_equal. f_equal.
    assert (In (nb, a) boards) as Hh.
    { apply (Permutation_in _ Hperm). left. reflexivity. }
    apply in_map_iff in Hh. destruct Hh as [a' [Heq Ha']].
    injection Heq as Hnb Ha. subst a'.
    cbn [head_largest] in Hhead.
    specialize (Hhead (fst (HashedLocalVersus.place m player s), m)).
    assert (In (fst (HashedLocalVersus.place m player s), m) ((nb, a) :: rest)) as Hin'.
    { apply (Permutation_in _ (Permutation_sym Hperm)). exact Hin. }
    specialize (Hhead Hin'). unfold key in Hhead. cbn [fst snd AI.is_move] in Hhead.
    rewrite pos_eqb_refl in Hhead.
    pose proof (utility_bounded w (fst (HashedLocalVersus.place m player s)) m factor Hw Hf).
    pose proof (utility_bounded w nb a factor Hw Hf).
    destruct (pos_eqb a m) eqn:Ham.
    + apply pos_eqb_eq in Ham. subst a. rewrite <- Hnb. reflexivity.
    + lia.
Qed.

Lemma lookup_miss (s : HashedLocalVersus.t) (alpha beta : num) (initial : bool)
    (lookahead : nat) (d : AI.search_dict) :
  AI.tt_get d (HashedLocalVersus.board_state s) = None ->
  AI.lookup s alpha beta initial lookahead d = inr (alpha, beta, None).
Proof. intros H. unfold AI.lookup. rewrite H. reflexivity. Qed.

(** What a call returns at a leaf of the search. *)
Lemma minimax_leaf (fl : Q -> Q) (lr rl : list pos) (w : list (list Z))
    (lookahead : nat) (s : HashedLocalVersus.t) (alpha beta : num)
    (maximising_player initial : bool) (d : AI.search_dict) :
  AI.tt_get d (HashedLocalVersus.board_state s) = None ->
  AI.check_if_terminal s = true \/ lookahead = 0%nat ->
  AI.minimax fl lr rl w lookahead s alpha beta maximising_player initial d =
  match AI.plain_minimax fl lr rl 0 s maximising_player with
  | Ok v => Ok (AI.Scalar v, d)
  | Raise e => Raise e
  end.
Proof.
  intros Hmiss Hleaf.
  destruct lookahead as [|n]; cbn [AI.minimax AI.plain_minimax];
    rewrite (lookup_miss _ _ _ _ _ _ Hmiss).
  - destruct (AI.check_if_terminal s); [reflexivity|].
    destruct (AI.heuristic_utility fl lr rl s); reflexivity.
  - destruct Hleaf as [Ht|Hn]; [|discriminate Hn]. rewrite Ht. reflexivity.
Qed.

(** X14 -- at a leaf (a terminal position, or [lookahead = 0]) that the table
    does not answer, [minimax] returns the bare leaf value and leaves the
    table as it is, also when [initial] is set; [mtdf], which unpacks a pair,
    fails there with [TypeError]. *)
Theorem mtdf_on_leaf (fl : Q -> Q) (lr rl : list pos) (w : list (list Z))
    (fuel lookahead : nat) (s : HashedLocalVersus.t) (first_guess alpha beta : num)
    (maximising_player initial : bool) (v : num) (d : AI.search_dict) :
  AI.tt_get d (HashedLocalVersus.board_state s) = None ->
  AI.check_if_terminal s = true \/ lookahead = 0%nat ->
  leaf_value fl lr rl s = Ok v ->
  AI.minimax fl lr rl w lookahead s alpha beta maximising_player initial d =
    Ok (AI.Scalar v, d) /\
  AI.mtdf fl lr rl w (S fuel) s first_guess lookahead d = Some (Raise TypeError).
Proof.
  unfold leaf_value. intros Hmiss Hleaf Hv. split.
  - rewrite (minimax_leaf fl lr rl w lookahead s _ _ _ _ d Hmiss Hleaf).
    change (AI.plain_minimax fl lr rl 0 s maximising_player)
      with (AI.plain_minimax fl lr rl 0 s true).
    rewrite Hv. reflexivity.
  - unfold AI.mtdf. cbn [AI.mtdf_loop num_ltb].
    rewrite (minimax_leaf fl lr rl w lookahead s _ _ true true d Hmiss Hleaf), Hv.
    reflexivity.
Qed.

Lemma num_leb_refl (a : num) : num_leb a a = true.
Proof.
  unfold num_leb. destruct a as [|v|]; cbn [num_ltb negb]; try reflexivity.
  rewrite negb_involutive. apply Qle_bool_iff. apply Qle_refl.
Qed.

Lemma num_leb_ltb_trans (c a b : num) :
  num_leb c a = true -> num_ltb a b = true -> num_leb c b = true.
Proof.
  unfold num_leb.
  destruct a as [|x|], b as [|y|], c as [|z|]; cbn [num_ltb negb];
    try reflexivity; try discriminate.
  rewrite !negb_involutive, negb_true_iff. intros H1 H2.
  apply Qle_bool_iff in H1. apply Qle_bool_iff.
  destruct (Qlt_le_dec (value x) (value y)) as [Hlt|Hle].
  - apply Qlt_le_weak. eapply Qle_lt_trans; eassumption.
  - apply Qle_bool_iff in Hle. congruence.
Qed.

Lemma heuristic_utility_total (fl : Q -> Q) (lr rl : list pos) (s : HashedLocalVersus.t) :
  HashedLocalVersus.possible_moves s =
    board_change (HashedLocalVersus.board (HashedLocalVersus.board_state s)) ->
  AI.check_if_terminal s = false ->
  exists h, AI.heuristic_utility fl lr rl s = Ok h.
Proof.
  intros Hpm Hterm.
  assert (~ (moves_W (HashedLocalVersus.possible_moves s) = [] /\
             moves_B (HashedLocalVersus.possible_moves s) = [])) as Hsome.
  { intros Hboth. apply (check_if_terminal_index s Hpm) in Hboth. congruence. }
  destruct (some_move_counts s Hpm Hsome) as (Hw & Hk & Hmoves).
  destruct (corner_capture_ok fl s) as [corner Hc].
  destruct (stability_ok fl lr rl s) as [stability Hs].
  unfold AI.heuristic_utility.
  rewrite heuristic_piece_count_counts.
  rewrite py_div_ok by lia.
  unfold AI.heuristic_mobility. rewrite py_div_ok by lia.
  rewrite Hc, Hs. eauto.
Qed.

(** The value of a position at depth 0 is a finite number. *)
Lemma static_value_total (fl : Q -> Q) (lr rl : list pos) (tbl : list (list Z))
    (s : HashedLocalVersus.t) (m : bool) :
  hashed_sound tbl s ->
  exists h, AI.plain_minimax fl lr rl 0 s m = Ok (Fin h).
Proof.
  intros (_ & _ & Hpm). cbn [AI.plain_minimax].
  destruct (AI.check_if_terminal s) eqn:Hterm.
  - eexists. reflexivity.
  - destruct (heuristic_utility_total fl lr rl s Hpm Hterm) as [h ->]. eauto.
Qed.

Lemma num_max_finite (a b : num) : a <> PosInf -> b <> PosInf -> num_max a b <> PosInf.
Proof. intros Ha Hb. unfold num_max. destruct (num_ltb a b); assumption. Qed.

Lemma num_leb_PosInf (a : num) : a <> PosInf -> num_leb PosInf a = false.
Proof. intros Ha. destruct a; [reflexivity|reflexivity|congruence]. Qed.

(** X15 -- the one-ply search of the easy level ([minimax] with lookahead 1,
    the full window and an empty table, as [ai_play] calls it): when White
    can move it returns a legal move of White whose successor has the
    largest leaf value of all successors, with that value, and records the
    pair in the table as an exact entry of depth 1. *)
Theorem easy_search_picks_best (fl : Q -> Q) (lr rl : list pos) (w : list (list Z))
    (tbl : list (list Z)) (s : HashedLocalVersus.t) :
  hashed_sound tbl s ->
  moves_W (HashedLocalVersus.possible_moves s) <> [] ->
  exists v a,
    AI.minimax fl lr rl w 1 s NegInf PosInf true true [] =
      Ok (AI.Pair v a, [(HashedLocalVersus.board_state s, (v, 1, 1%nat, a))]) /\
    In a (keys (moves_W (HashedLocalVersus.possible_moves s))) /\
    leaf_value fl lr rl (fst (HashedLocalVersus.place a W s)) = Ok v /\
    forall a', In a' (keys (moves_W (HashedLocalVersus.possible_moves s))) ->
      exists v',
        leaf_value fl lr rl (fst (HashedLocalVersus.place a' W s)) = Ok v' /\
        num_leb v' v = true.
Proof.
  unfold leaf_value. intros Hs Hmoves.
  assert (AI.check_if_terminal s = false) as Hterm.
  { destruct Hs as (_ & _ & Hpm).
    destruct (AI.check_if_terminal s) eqn:Ht; [|reflexivity].
    apply (check_if_terminal_index s Hpm) in Ht. tauto. }
  change 1%nat with (S 0). generalize (eq_refl 0%nat).
  generalize 0%nat at 1 3 4 as n. intros n Hn.
  cbn [AI.minimax]. rewrite lookup_miss by reflexivity. rewrite Hterm.
  pose proof (sort_actions_ok w tbl s None 1 W Hs) as Hsort.
  cbn [moves_of] in Hsort. rewrite Hsort. clear Hsort.
  set (actions := keys (moves_W (HashedLocalVersus.possible_moves s))).
  set (sorted := sorted_reverse _ _).
  match goal with
  | |- context [?f sorted NegInf NegInf None []] => set (loop := f)
  end.
  assert (forall nb a, In (nb, a) sorted ->
            In a actions /\ nb = fst (HashedLocalVersus.place a W s) /\
            hashed_sound tbl nb) as Hgood.
  { intros nb a Hin. unfold sorted in Hin.
    apply (Permutation_in _ (sorted_reverse_perm _ _)) in Hin.
    apply in_map_iff in Hin. destruct Hin as [a' [Heq Ha']].
    injection Heq as Hnb Ha. subst a'. split; [exact Ha'|]. split; [congruence|].
    destruct Hs as (Hwt & Hc & Hpm). subst nb.
    destruct (HashedFacts.place_legal tbl a W s Hwt Hc Hpm Ha') as (_ & Hc' & Hpm').
    split; [exact Hwt|]. split; assumption. }
  assert (forall a, In a actions -> In (fst (HashedLocalVersus.place a W s), a) sorted)
    as Hall.
  { intros a Ha. unfold sorted.
    apply (Permutation_in _ (Permutation_sym (sorted_reverse_perm _ _))).
    apply in_map_iff. exists a. split; [reflexivity|exact Ha]. }
  set (Inv := fun (score : num) (action : option pos)
                  (seen : list (HashedLocalVersus.t * pos)) =>
    (seen = [] /\ score = NegInf /\ action = None) \/
    (exists nbx x h, action = Some x /\ In (nbx, x) seen /\ score = Fin h /\
       AI.plain_minimax fl lr rl 0 nbx true = Ok score /\
       forall nb' a', In (nb', a') seen ->
         exists v', AI.plain_minimax fl lr rl 0 nb' true = Ok v' /\
                    num_leb v' score = true)).
  assert (forall l seen score a action,
            (forall x, In x l -> In x sorted) ->
            a <> PosInf -> Inv score action seen ->
            exists score' action',
              loop l score a action [] = Ok (score', action', []) /\
              Inv score' action' (seen ++ l)) as Hloop.
  { induction l as [|[nb pa] l IH]; intros seen score a action Hsub Ha Hinv.
    - exists score, action. rewrite app_nil_r. split; [reflexivity|exact Hinv].
    - cbn [loop]. fold loop.
      destruct (Hgood nb pa (Hsub _ (or_introl eq_refl))) as (Hpa & Hnb & Hsnb).
      rewrite (minimax_leaf fl lr rl w n nb) by (reflexivity || (right; exact Hn)).
      change (AI.plain_minimax fl lr rl 0 nb
                (length (moves_B (HashedLocalVersus.possible_moves nb)) =? 0)%nat)
        with (AI.plain_minimax fl lr rl 0 nb true).
      destruct (static_value_total fl lr rl tbl nb true Hsnb) as [h Hh]. rewrite Hh.
      assert (score <> PosInf) as Hscore.
      { destruct Hinv as [(_ & -> & _)|(? & ? & ? & _ & _ & -> & _)]; discriminate. }
      assert (num_max score (Fin h) <> PosInf) as Hmax.
      { apply num_max_finite; [exact Hscore|discriminate]. }
      rewrite num_leb_PosInf by (apply num_max_finite; assumption).
      destruct (IH (seen ++ [(nb, pa)]) (num_max score (Fin h))
                  (num_max a (num_max score (Fin h)))
                  (if num_ltb score (Fin h) then Some pa else action))
        as (score' & action' & Hrun & Hinv').
      + intros x Hx. apply Hsub. right. exact Hx.
      + apply num_max_finite; assumption.
      + right. unfold num_max.
        destruct (num_ltb score (Fin h)) eqn:Hlt.
        * exists nb, pa, h. split; [reflexivity|].
          split; [apply in_or_app; right; left; reflexivity|].
          split; [reflexivity|]. split; [exact Hh|].
          intros nb' a' Hin'. apply in_app_or in Hin'. destruct Hin' as [Hin'|[Heq|[]]].
          -- destruct Hinv as [(-> & _)|(nbx & x & h0 & _ & _ & _ & _ & Hle)];
               [destruct Hin'|].
             destruct (Hle nb' a' Hin') as (v' & Hv' & Hle').
             exists v'. split; [exact Hv'|].
             apply (num_leb_ltb_trans v' score (Fin h)); assumption.
          -- injection Heq as <- <-. exists (Fin h). split; [exact Hh|apply num_leb_refl].
        * destruct Hinv as [(_ & -> & _)|(nbx & x & h0 & Hact & Hx & Hsc & Hval & Hle)];
            [discriminate Hlt|].
          exists nbx, x, h0. split; [exact Hact|].
          split; [apply in_or_app; left; exact Hx|].
          split; [exact Hsc|]. split; [exact Hval|].
          intros nb' a' Hin'. apply in_app_or in Hin'. destruct Hin' as [Hin'|[Heq|[]]].
          -- apply (Hle nb' a'). exact Hin'.
          -- injection Heq as <- <-. exists (Fin h). split; [exact Hh|].
             unfold num_leb. rewrite Hlt. reflexivity.
      + exists score', action'. rewrite <- app_assoc in Hinv'. cbn [app] in Hinv'.
        split; [exact Hrun|exact Hinv']. }
  destruct (Hloop sorted [] NegInf NegInf None) as (score & action & Hrun & Hinv).
  { intros x Hx. exact Hx. }
  { discriminate. }
  { left. auto. }
  rewrite Hrun. cbn [app] in Hinv.
  destruct Hinv as [(Hnil & _)|(nbx & x & h & -> & Hx & -> & Hval & Hle)].
  - exfalso. destruct actions as [|a0 rest] eqn:Hact.
    + unfold actions, keys in Hact. apply map_eq_nil in Hact. contradiction.
    + specialize (Hall a0 (or_introl eq_refl)). rewrite Hnil in Hall. destruct Hall.
  - exists (Fin h), x. split; [reflexivity|].
    destruct (Hgood nbx x Hx) as (Hxa & Hnbx & _). subst nbx.
    split; [exact Hxa|]. split; [exact Hval|].
    intros a' Ha'. apply (Hle _ a'). apply Hall. exact Ha'.
Qed.

(** ** The text of a record *)

Lemma digit_char (a : ascii) (k : Z) :
  digit_of a = Some k ->
  is_space a = false /\ Ascii.eqb a "," = false /\
  Ascii.eqb a "+" = false /\ Ascii.eqb a "-" = false /\ Ascii.eqb a "_" = false.
Proof.
  unfold digit_of. destruct ((48 <=? code a) && (code a <=? 57)) eqn:Hd; [|discriminate].
  intros _. apply andb_true_iff in Hd. destruct Hd as [H1 H2].
  apply Z.leb_le in H1, H2.
  assert (forall b : ascii, code b < 48 \/ 57 < code b -> Ascii.eqb a b = false) as Hne.
  { intros b Hb. destruct (Ascii.eqb a b) eqn:E; [|reflexivity].
    apply Ascii.eqb_eq in E. subst b. lia. }
  split; [|repeat split; apply Hne; vm_compute; intuition congruence].
  unfold is_space.
  destruct (Z.leb_spec 9 (code a)); destruct (Z.leb_spec (code a) 13);
    destruct (Z.eqb_spec (code a) 32); destruct (Z.eqb_spec (code a) 133);
    destruct (Z.eqb_spec (code a) 160); cbn [andb orb]; try reflexivity; lia.
Qed.

Lemma digits_are_digits (d : Decimal.uint) :
  Forall (fun a => exists k, digit_of a = Some k) (digits d).
Proof.
  unfold digits. induction d; cbn [NilEmpty.string_of_uint list_ascii_of_string];
    constructor; try exact IHd; eexists; reflexivity.
Qed.

Lemma parse_digits_numeral (d : Decimal.uint) :
  forall acc after_digit rest,
  parse_digits acc after_digit (digits d ++ rest) =
  parse_digits (uint_value d acc) (after_digit || negb (is_nil d)) rest.
Proof.
  unfold digits.
  induction d; intros acc after_digit rest;
    cbn [NilEmpty.string_of_uint list_ascii_of_string app uint_value is_nil negb];
    try (rewrite orb_false_r; reflexivity);
    cbn [parse_digits]; rewrite orb_true_r;
    match goal with
    | |- context [digit_of ?a] =>
        let v := eval vm_compute in (digit_of a) in
        change (digit_of a) with v; cbv iota beta
    end;
    rewrite IHd; cbn [orb];
    match goal with
    | |- parse_digits (uint_value _ ?x) _ _ = parse_digits (uint_value _ ?y) _ _ =>
        replace x with y by (cbn; lia)
    end; reflexivity.
Qed.

Lemma uint_value_acc (d : Decimal.uint) :
  forall acc : positive, uint_value d (Z.pos acc) = Z.pos (Pos.of_uint_acc d acc).
Proof.
  induction d; intros acc; cbn [uint_value Pos.of_uint_acc]; try reflexivity;
    rewrite <- IHd; f_equal; lia.
Qed.

Lemma uint_value_of_uint (d : Decimal.uint) : uint_value d 0 = Z.of_N (Pos.of_uint d).
Proof.
  induction d; cbn [uint_value Pos.of_uint]; try reflexivity;
    try (rewrite <- IHd; reflexivity);
    cbn [Z.of_N]; rewrite <- uint_value_acc; reflexivity.
Qed.

Lemma to_uint_not_nil (p : positive) : is_nil (Pos.to_uint p) = false.
Proof.
  destruct (Pos.to_uint p) eqn:E; try reflexivity.
  pose proof (DecimalPos.Unsigned.of_to p) as H. rewrite E in H. discriminate H.
Qed.

Lemma string_of_uint_not_nil (d : Decimal.uint) :
  is_nil d = false -> NilZero.string_of_uint d = NilEmpty.string_of_uint d.
Proof. destruct d; [discriminate|..]; reflexivity. Qed.

(** [str(z)] is an optional minus sign followed by the digits of [|z|]. *)
Lemma py_str_shape (z : Z) :
  exists d, is_nil d = false /\
    ((0 <= z /\ py_str z = digits d /\ uint_value d 0 = z) \/
     (z < 0 /\ py_str z = "-"%char :: digits d /\ uint_value d 0 = - z)).
Proof.
  unfold py_str, digits. destruct z as [|p|p]; cbn [Z.to_int NilZero.string_of_int].
  - exists (Decimal.D0 Decimal.Nil). split; [reflexivity|]. left.
    split; [lia|]. split; reflexivity.
  - exists (Pos.to_uint p). split; [apply to_uint_not_nil|]. left.
    split; [lia|]. rewrite string_of_uint_not_nil by apply to_uint_not_nil.
    split; [reflexivity|].
    rewrite uint_value_of_uint, DecimalPos.Unsigned.of_to. reflexivity.
  - exists (Pos.to_uint p). split; [apply to_uint_not_nil|]. right.
    split; [lia|]. rewrite string_of_uint_not_nil by apply to_uint_not_nil.
    split; [reflexivity|].
    rewrite uint_value_of_uint, DecimalPos.Unsigned.of_to. reflexivity.
Qed.

Lemma lstrip_no_space (s : str) : no_space s -> lstrip s = s.
Proof. intros H. destruct H as [|a r Ha _]; [reflexivity|]. cbn [lstrip]. rewrite Ha. reflexivity. Qed.

Lemma strip_no_space (s : str) : no_space s -> strip s = s.
Proof.
  intros H. unfold strip. rewrite (lstrip_no_space s H).
  rewrite lstrip_no_space by (apply Forall_rev; exact H). apply rev_involutive.
Qed.

Lemma strip_trailing (s : str) (a : ascii) :
  no_space s -> is_space a = true -> strip (s ++ [a]) = s.
Proof.
  intros H Ha. unfold strip.
  assert (lstrip (s ++ [a]) = s ++ [a] \/ s = []) as [-> | ->].
  { destruct H as [|b r Hb _]; [right; reflexivity|left].
    cbn [app lstrip]. rewrite Hb. reflexivity. }
  - rewrite rev_app_distr. cbn [rev app lstrip]. rewrite Ha.
    rewrite lstrip_no_space by (apply Forall_rev; exact H). apply rev_involutive.
  - cbn [app lstrip]. rewrite Ha. reflexivity.
Qed.

Lemma digits_no_space (d : Decimal.uint) : no_space (digits d).
Proof.
  eapply Forall_impl; [|apply digits_are_digits].
  intros a [k Hk]. apply (digit_char a k Hk).
Qed.

Lemma py_str_no_space (z : Z) : no_space (py_str z).
Proof.
  destruct (py_str_shape z) as (d & _ & [(_ & -> & _)|(_ & -> & _)]).
  - apply digits_no_space.
  - constructor; [reflexivity|apply digits_no_space].
Qed.

Lemma py_str_no_comma (z : Z) : Forall (fun a => Ascii.eqb a "," = false) (py_str z).
Proof.
  destruct (py_str_shape z) as (d & _ & [(_ & -> & _)|(_ & -> & _)]).
  - eapply Forall_impl; [|apply digits_are_digits].
    intros a [k Hk]. apply (digit_char a k Hk).
  - constructor; [reflexivity|].
    eapply Forall_impl; [|apply digits_are_digits].
    intros a [k Hk]. apply (digit_char a k Hk).
Qed.

Lemma parse_numeral (d : Decimal.uint) :
  is_nil d = false -> parse_digits 0 false (digits d) = Some (uint_value d 0).
Proof.
  intros Hd. rewrite <- (app_nil_r (digits d)), parse_digits_numeral, Hd. reflexivity.
Qed.

Lemma py_int_stripped (s : str) (z : Z) :
  (exists d, is_nil d = false /\
     ((0 <= z /\ s = digits d /\ uint_value d 0 = z) \/
      (z < 0 /\ s = "-"%char :: digits d /\ uint_value d 0 = - z))) ->
  match s with
  | a :: r =>
      if Ascii.eqb a "+" then parse_digits 0 false r
      else if Ascii.eqb a "-" then option_map Z.opp (parse_digits 0 false r)
      else parse_digits 0 false (a :: r)
  | [] => None
  end = Some z.
Proof.
  intros (d & Hd & [(Hz & -> & Hv)|(Hz & -> & Hv)]).
  - pose proof (parse_numeral d Hd) as Hp. pose proof (digits_are_digits d) as Hall.
    destruct (digits d) as [|a r] eqn:E.
    + cbn [parse_digits] in Hp. discriminate Hp.
    + inversion Hall as [|? ? [k Hk] _].
      destruct (digit_char a k Hk) as (_ & _ & -> & -> & _). rewrite Hp, Hv. reflexivity.
  - change (Ascii.eqb "-" "+") with false. change (Ascii.eqb "-" "-") with true.
    cbv iota. rewrite (parse_numeral d Hd), Hv. cbn [option_map]. f_equal. lia.
Qed.

(** [int(str(z)) == z], also with a trailing newline. *)
Lemma py_int_py_str (z : Z) :
  py_int (py_str z) = Some z /\ py_int (py_str z ++ ["010"%char]) = Some z.
Proof.
  unfold py_int.
  rewrite strip_no_space by apply py_str_no_space.
  rewrite strip_trailing by (apply py_str_no_space || reflexivity).
  split; apply py_int_stripped, py_str_shape.
Qed.

Lemma py_split_no_sep (sep : ascii) (s : str) :
  Forall (fun a => Ascii.eqb a sep = false) s -> py_split sep s = [s].
Proof.
  induction 1 as [|a r Ha _ IH]; [reflexivity|].
  cbn [py_split]. rewrite Ha, IH. reflexivity.
Qed.

Lemma py_split_at_sep (sep : ascii) (s r : str) :
  Forall (fun a => Ascii.eqb a sep = false) s ->
  py_split sep (s ++ sep :: r) = s :: py_split sep r.
Proof.
  induction 1 as [|a s' Ha _ IH]; cbn [app py_split].
  - rewrite Ascii.eqb_refl. reflexivity.
  - rewrite Ha, IH. reflexivity.
Qed.

Lemma save_line_parses (x y : Z) :
  get_pos_from_file (save_line (x, y)) = Done (x, y).
Proof.
  unfold get_pos_from_file, save_line. cbn [fst snd app].
  rewrite py_split_at_sep by apply py_str_no_comma.
  rewrite py_split_no_sep.
  - cbn [nth]. destruct (py_int_py_str x) as [-> _].
    destruct (py_int_py_str y) as [_ ->]. reflexivity.
  - apply Forall_app. split; [apply py_str_no_comma|]. constructor; [reflexivity|constructor].
Qed.

(** X16 -- the line that [save] writes for an instruction is read back by
    [get_pos_from_file] as that instruction. *)
Theorem saved_line_read_back (x y : Z) :
  get_pos_from_file (save_line (x, y)) = Done (x, y).
Proof. exact (save_line_parses x y). Qed.

(** X17 -- a line without a comma fails: with [ValueError] if it is not an
    integer, with [IndexError] if it is; and the fields after the second one
    are ignored. *)
Theorem get_pos_from_file_fields (f0 f1 rest : str) :
  no_comma f0 -> no_comma f1 ->
  get_pos_from_file f0 =
    match py_int f0 with
    | Some _ => Failed (Exn IndexError)
    | None => Failed ValueError
    end /\
  get_pos_from_file (f0 ++ ","%char :: f1 ++ ","%char :: rest) =
    get_pos_from_file (f0 ++ ","%char :: f1).
Proof.
  intros H0 H1. unfold get_pos_from_file. split.
  - rewrite (py_split_no_sep _ _ H0). cbn [nth]. destruct (py_int f0); reflexivity.
  - rewrite !(py_split_at_sep _ f0) by exact H0.
    rewrite (py_split_at_sep _ f1) by exact H1. rewrite (py_split_no_sep _ _ H1).
    cbn [nth]. destruct (py_int f0); [|reflexivity].
    destruct (py_split ","%char rest); reflexivity.
Qed.

(** ** The browser of saved games *)

Lemma show_line_in_range (line : Z) (s : SavedGamesLoader.t) :
  0 <= line < Z.of_nat (length (SavedGamesLoader.previous_states s)) ->
  exists b c,
    nth_error (SavedGamesLoader.previous_states s) (Z.to_nat line) = Some (b, c) /\
    SavedGamesLoader.show_line line s =
    ({| SavedGamesLoader.game :=
          {| Othello.board := b; Othello.possible_moves := board_change b |};
        SavedGamesLoader.seek_amount := SavedGamesLoader.seek_amount s;
        SavedGamesLoader.current_line := line;
        SavedGamesLoader.commands := SavedGamesLoader.commands s;
        SavedGamesLoader.max_line := SavedGamesLoader.max_line s;
        SavedGamesLoader.previous_states := SavedGamesLoader.previous_states s;
        SavedGamesLoader.self_colour := c |}, None).
Proof.
  intros Hl. unfold SavedGamesLoader.show_line, py_index.
  destruct (Z.leb_spec 0 line); [|lia].
  destruct (Z.ltb_spec line (Z.of_nat (length (SavedGamesLoader.previous_states s))));
    [|lia].
  cbn [andb].
  destruct (nth_error (SavedGamesLoader.previous_states s) (Z.to_nat line))
    as [[b c]|] eqn:Hn.
  - exists b, c. split; [reflexivity|].
    rewrite (nth_error_nth _ _ _ Hn). reflexivity.
  - apply nth_error_None in Hn. lia.
Qed.

(** X18 -- a browser that holds one snapshot per line number: a step forwards
    below the last line, or backwards above line 0, raises nothing, moves
    the current line by one, shows the snapshot of the new line with its
    move index recomputed, and leaves the browser as well-formed; at the
    last line a step forwards, and at line 0 a step backwards, raises
    [BoardError] and changes nothing.  So browsing never leaves the range of
    the snapshots. *)
Theorem browsing_stays_in_range (s : SavedGamesLoader.t) :
  browsable s ->
  (SavedGamesLoader.current_line s < SavedGamesLoader.max_line s ->
     let r := SavedGamesLoader.line_load_forwards s in
     snd r = None /\ browsable (fst r) /\ shows_current (fst r) /\
     SavedGamesLoader.current_line (fst r) = SavedGamesLoader.current_line s + 1) /\
  (SavedGamesLoader.current_line s = SavedGamesLoader.max_line s ->
     SavedGamesLoader.line_load_forwards s = (s, Some (Exn BoardError))) /\
  (0 < SavedGamesLoader.current_line s ->
     let r := SavedGamesLoader.line_load_backwards s in
     snd r = None /\ browsable (fst r) /\ shows_current (fst r) /\
     SavedGamesLoader.current_line (fst r) = SavedGamesLoader.current_line s - 1) /\
  (SavedGamesLoader.current_line s = 0 ->
     SavedGamesLoader.line_load_backwards s = (s, Some (Exn BoardError))).
Proof.
  intros [Hcl Hlen]. split; [|split; [|split]].
  - intros Hlt. unfold SavedGamesLoader.line_load_forwards.
    destruct (Z.ltb_spec (SavedGamesLoader.current_line s) (SavedGamesLoader.max_line s));
      [|lia].
    destruct (show_line_in_range (SavedGamesLoader.current_line s + 1) s)
      as (b & c & Hn & ->); [lia|].
    cbn [fst snd]. split; [reflexivity|]. split; [|split].
    + split; cbn [SavedGamesLoader.current_line SavedGamesLoader.max_line
                  SavedGamesLoader.previous_states]; lia.
    + split; cbn [SavedGamesLoader.current_line SavedGamesLoader.previous_states
                  SavedGamesLoader.game SavedGamesLoader.self_colour
                  Othello.board Othello.possible_moves]; [exact Hn|reflexivity].
    + reflexivity.
  - intros Heq. unfold SavedGamesLoader.line_load_forwards.
    destruct (Z.ltb_spec (SavedGamesLoader.current_line s) (SavedGamesLoader.max_line s));
      [lia|reflexivity].
  - intros Hgt. unfold SavedGamesLoader.line_load_backwards.
    destruct (Z.ltb_spec 0 (SavedGamesLoader.current_line s)); [|lia].
    destruct (show_line_in_range (SavedGamesLoader.current_line s - 1) s)
      as (b & c & Hn & ->); [lia|].
    cbn [fst snd]. split; [reflexivity|]. split; [|split].
    + split; cbn [SavedGamesLoader.current_line SavedGamesLoader.max_line
                  SavedGamesLoader.previous_states]; lia.
    + split; cbn [SavedGamesLoader.current_line SavedGamesLoader.previous_states
                  SavedGamesLoader.game SavedGamesLoader.self_colour
                  Othello.board Othello.possible_moves]; [exact Hn|reflexivity].
    + reflexivity.
  - intros Heq. unfold SavedGamesLoader.line_load_backwards.
    destruct (Z.ltb_spec 0 (SavedGamesLoader.current_line s)); [lia|reflexivity].
Qed.

(** X19 -- a step backwards followed by a step forwards restores the browser
    exactly. *)
Theorem browse_back_and_forth (s : SavedGamesLoader.t) :
  browsable s -> shows_current s ->
  0 < SavedGamesLoader.current_line s ->
  SavedGamesLoader.line_load_forwards
    (fst (SavedGamesLoader.line_load_backwards s)) = (s, None).
Proof.
  intros [Hcl Hlen] [Hshown Hpm] Hgt.
  unfold SavedGamesLoader.line_load_backwards.
  destruct (Z.ltb_spec 0 (SavedGamesLoader.current_line s)); [|lia].
  destruct (show_line_in_range (SavedGamesLoader.current_line s - 1) s)
    as (b & c & Hn & ->); [lia|].
  cbn [fst]. unfold SavedGamesLoader.line_load_forwards.
  cbn [SavedGamesLoader.current_line SavedGamesLoader.max_line].
  destruct (Z.ltb_spec (SavedGamesLoader.current_line s - 1) (SavedGamesLoader.max_line s));
    [|lia].
  match goal with
  | |- SavedGamesLoader.show_line ?l ?s1 = _ =>
      destruct (show_line_in_range l s1) as (b' & c' & Hn' & ->)
  end.
  { cbn [SavedGamesLoader.previous_states]. lia. }
  cbn [SavedGamesLoader.previous_states SavedGamesLoader.seek_amount
       SavedGamesLoader.commands SavedGamesLoader.max_line] in *.
  replace (SavedGamesLoader.current_line s - 1 + 1) with (SavedGamesLoader.current_line s)
    in * by lia.
  rewrite Hshown in Hn'. injection Hn' as <- <-.
  destruct s as [[gb gpm] sa cl cm ml ps sc].
  cbn [SavedGamesLoader.game SavedGamesLoader.seek_amount SavedGamesLoader.current_line
       SavedGamesLoader.commands SavedGamesLoader.max_line SavedGamesLoader.previous_states
       SavedGamesLoader.self_colour Othello.board Othello.possible_moves] in *.
  subst gpm. reflexivity.
Qed.

Lemma py_split_not_nil (sep : ascii) (s : str) : py_split sep s <> [].
Proof.
  destruct s as [|a r]; cbn [py_split]; [discriminate|].
  destruct (Ascii.eqb a sep); [discriminate|].
  destruct (py_split sep r); discriminate.
Qed.

Lemma py_split_singleton (sep : ascii) (s h : str) :
  py_split sep s = [h] -> Forall (fun a => Ascii.eqb a sep = false) s.
Proof.
  revert h. induction s as [|a r IH]; intros h Hs; [constructor|].
  cbn [py_split] in Hs. destruct (Ascii.eqb a sep) eqn:Ha.
  - exfalso. injection Hs as _ Hr. exact (py_split_not_nil sep r Hr).
  - destruct (py_split sep r) as [|h' t] eqn:Hr; [exfalso; exact (py_split_not_nil sep r Hr)|].
    injection Hs as _ Ht. subst t. constructor; [exact Ha|]. apply (IH h'). reflexivity.
Qed.

(** Reading a line fails with [ValueError], or with [IndexError] when the
    line has no comma. *)
Lemma get_pos_from_file_failed (line : str) (e : raised) :
  get_pos_from_file line = Failed e ->
  e = ValueError \/ (e = Exn IndexError /\ no_comma line).
Proof.
  unfold get_pos_from_file.
  destruct (py_int (nth 0 (py_split "," line) [])); [|intros H; injection H as <-; auto].
  destruct (py_split "," line) as [|f0 [|f1 rest]] eqn:Hs.
  - intros H. injection H as <-. exfalso. exact (py_split_not_nil _ _ Hs).
  - intros H. injection H as <-. right. split; [reflexivity|].
    apply (py_split_singleton _ _ _ Hs).
  - destruct (py_int f1); [discriminate|]. intros H; injection H as <-; auto.
Qed.

Lemma replay_sound (p : pos) (c : colour) (g : Othello.t) :
  sound g ->
  snd (Othello.can_be_placed p c g) = true ->
  snd (Othello.place (fst (Othello.can_be_placed p c g)) c g) = None /\
  sound (fst (Othello.place (fst (Othello.can_be_placed p c g)) c g)) /\
  pieces (Othello.board (fst (Othello.place (fst (Othello.can_be_placed p c g)) c g))) E =
    pieces (Othello.board g) E - 1 /\
  cell_at (Othello.board (fst (Othello.place (fst (Othello.can_be_placed p c g)) c g)))
    (fst p) (snd p) = Piece c.
Proof.
  intros Hs Hcan. rewrite can_be_placed_pos.
  apply can_be_placed_spec in Hcan. destruct Hcan as [Hp Hin].
  destruct (place_legal_cells p c g Hs Hin) as (Hn & Hs' & _ & Hcells).
  destruct (place_legal_counts p c g Hs Hin) as (n & _ & HE & _).
  split; [exact Hn|]. split; [exact Hs'|]. split; [exact HE|].
  apply (Hcells p Hp). left. reflexivity.
Qed.

Lemma load_loop_spec (lines : list str) :
  forall (g : Othello.end_game_iterator) (line_count : Z) (s : SavedGamesLoader.t),
  sound (SavedGamesLoader.game s) ->
  Othello.at_ g <> Othello.Finished ->
  let r := SavedGamesLoader.load_loop lines g line_count s in
  sound (SavedGamesLoader.game (fst r)) /\
  SavedGamesLoader.seek_amount (fst r) = SavedGamesLoader.seek_amount s /\
  SavedGamesLoader.max_line (fst r) = SavedGamesLoader.max_line s /\
  SavedGamesLoader.commands (fst r) = SavedGamesLoader.commands s /\
  SavedGamesLoader.current_line (fst r) = SavedGamesLoader.current_line s /\
  (snd r = None \/ snd r = Some (Exn BoardError) \/ snd r = Some ValueError \/
   (snd r = Some (Exn IndexError) /\ Exists no_comma lines)) /\
  exists extra,
    SavedGamesLoader.previous_states (fst r) = SavedGamesLoader.previous_states s ++ extra /\
    (length extra <= length lines)%nat /\
    (extra = [] -> SavedGamesLoader.self_colour (fst r) = SavedGamesLoader.self_colour s) /\
    (snd r = None ->
       (length extra = length lines /\
        pieces (Othello.board (SavedGamesLoader.game (fst r))) E =
          pieces (Othello.board (SavedGamesLoader.game s)) E - Z.of_nat (length extra)) \/
       (line_count <= SavedGamesLoader.seek_amount s
          < line_count + Z.of_nat (length lines)) \/
       (moves_W (Othello.possible_moves (SavedGamesLoader.game (fst r))) = [] /\
        moves_B (Othello.possible_moves (SavedGamesLoader.game (fst r))) = [])).
Proof.
  induction lines as [|line rest IH]; intros g line_count s Hs Hg r.
  - subst r. cbn [SavedGamesLoader.load_loop fst snd].
    do 5 (split; [solve [auto]|]). split; [left; reflexivity|].
    exists []. rewrite app_nil_r. split; [reflexivity|]. split; [cbn [length]; lia|].
    split; [reflexivity|]. intros _. left. cbn [length]. split; [reflexivity|lia].
  - subst r. cbn [SavedGamesLoader.load_loop].
    destruct (Othello.next g (Othello.possible_moves (SavedGamesLoader.game s)))
      as [[c|] g'] eqn:Hnext.
    + cbv zeta.
      destruct (Z.eqb_spec line_count (SavedGamesLoader.seek_amount s)) as [Hseek|Hseek].
      * cbn [fst snd SavedGamesLoader.game SavedGamesLoader.seek_amount
             SavedGamesLoader.max_line SavedGamesLoader.commands
             SavedGamesLoader.current_line SavedGamesLoader.previous_states
             SavedGamesLoader.self_colour].
        do 5 (split; [solve [auto]|]). split; [left; reflexivity|].
        eexists. split; [reflexivity|]. split; [cbn [length]; lia|].
        split; [discriminate|]. intros _. right. left. cbn [length]. lia.
      * destruct (get_pos_from_file line) as [p|e] eqn:Hpos.
        -- cbn [SavedGamesLoader.game].
           destruct (snd (Othello.can_be_placed p c (SavedGamesLoader.game s))) eqn:Hcan;
             cbn [negb].
           ++ destruct (replay_sound p c (SavedGamesLoader.game s) Hs Hcan)
                as (Hn & Hs' & HE & _).
              destruct (Othello.place (fst (Othello.can_be_placed p c
                          (SavedGamesLoader.game s))) c (SavedGamesLoader.game s))
                as [gm e1].
              cbn [fst snd] in Hn, Hs', HE. subst e1.
              match goal with
              | |- context [SavedGamesLoader.load_loop rest g' ?lc ?s1] =>
                  assert (Othello.at_ g' <> Othello.Finished) as Hg'
                    by (pose proof (next_yields_mover g
                          (Othello.possible_moves (SavedGamesLoader.game s)) c) as Hy;
                        rewrite Hnext in Hy; apply Hy; reflexivity);
                  specialize (IH g' lc s1 Hs' Hg'); cbv zeta in IH;
                  destruct (SavedGamesLoader.load_loop rest g' lc s1) as [s2 e2]
              end.
              cbn [fst snd SavedGamesLoader.with_game SavedGamesLoader.game
                   SavedGamesLoader.seek_amount SavedGamesLoader.max_line
                   SavedGamesLoader.commands SavedGamesLoader.current_line
                   SavedGamesLoader.previous_states SavedGamesLoader.self_colour] in *.
              destruct IH as (Hs2 & H1 & H2 & H3 & H4 & He & extra & Hps & Hlen & _ & Hend).
              do 5 (split; [solve [auto]|]). split.
              { destruct He as [He|[He|[He|[He Hex]]]]; auto.
                right. right. right. split; [exact He|]. apply Exists_cons_tl. exact Hex. }
              exists ((Othello.board (SavedGamesLoader.game s), c) :: extra).
              split; [rewrite Hps, <- app_assoc; reflexivity|].
              split; [cbn [length]; lia|]. split; [discriminate|].
              intros He2. destruct (Hend He2) as [[Hl HE2]|[Hbr|Hover]].
              ** left. cbn [length]. split; [lia|]. rewrite HE2, HE.
                 rewrite Nat2Z.inj_succ. lia.
              ** right. left. cbn [length]. lia.
              ** right. right. exact Hover.
           ++ cbn [fst snd SavedGamesLoader.game SavedGamesLoader.seek_amount
                   SavedGamesLoader.max_line SavedGamesLoader.commands
                   SavedGamesLoader.current_line SavedGamesLoader.previous_states
                   SavedGamesLoader.self_colour].
              do 5 (split; [solve [auto]|]). split; [right; left; reflexivity|].
              eexists. split; [reflexivity|]. split; [cbn [length]; lia|].
              split; [discriminate|]. discriminate.
        -- cbn [fst snd SavedGamesLoader.game SavedGamesLoader.seek_amount
                SavedGamesLoader.max_line SavedGamesLoader.commands
                SavedGamesLoader.current_line SavedGamesLoader.previous_states
                SavedGamesLoader.self_colour].
           do 5 (split; [solve [auto]|]). split.
           { destruct (get_pos_from_file_failed line e Hpos) as [->|[-> Hnc]]; auto.
             right. right. right. split; [reflexivity|]. apply Exists_cons_hd. exact Hnc. }
           eexists. split; [reflexivity|]. split; [cbn [length]; lia|].
           split; [discriminate|]. discriminate.
    + cbn [fst snd].
      do 5 (split; [solve [auto]|]). split; [left; reflexivity|].
      exists []. rewrite app_nil_r. split; [reflexivity|]. split; [cbn [length]; lia|].
      split; [reflexivity|]. intros _. right. right.
      assert (fst (Othello.next g (Othello.possible_moves (SavedGamesLoader.game s))) = None)
        as Hnone by (rewrite Hnext; reflexivity).
      apply (next_spec g (Othello.possible_moves (SavedGamesLoader.game s)));
        [exact Hg|exact Hnone].
Qed.

Lemma sound_start : sound (Othello.init (Some Othello.start_board)).
Proof. split; [exact wf_start_board|reflexivity]. Qed.

Lemma load_fresh (file : list str) (seek : Z) :
  let r := SavedGamesLoader.load file (SavedGamesLoader.init seek) in
  sound (SavedGamesLoader.game (fst r)) /\
  (snd r = None \/ snd r = Some (Exn BoardError) \/ snd r = Some ValueError \/
   (snd r = Some (Exn IndexError) /\ Exists no_comma file)) /\
  (snd r = None -> Z.of_nat (length file) <= seek ->
     (browsable (fst r) /\ shows_current (fst r) /\
      SavedGamesLoader.current_line (fst r) = Z.of_nat (length file) /\
      pieces (Othello.board (SavedGamesLoader.game (fst r))) E =
        60 - Z.of_nat (length file)) \/
     (moves_W (Othello.possible_moves (SavedGamesLoader.game (fst r))) = [] /\
      moves_B (Othello.possible_moves (SavedGamesLoader.game (fst r))) = [])).
Proof.
  intros r. subst r. unfold SavedGamesLoader.load.
  cbn [SavedGamesLoader.init SavedGamesLoader.commands SavedGamesLoader.game
       SavedGamesLoader.seek_amount SavedGamesLoader.current_line
       SavedGamesLoader.max_line SavedGamesLoader.previous_states
       SavedGamesLoader.self_colour FLIP_RULE].
  match goal with
  | |- context [SavedGamesLoader.load_loop file ?g 0 ?s0] =>
      pose proof (load_loop_spec file g 0 s0 sound_start) as Hloop;
      cbv zeta in Hloop;
      destruct (SavedGamesLoader.load_loop file g 0 s0) as [s1 e]
  end.
  destruct Hloop as (Hs1 & Hseek & Hmax & Hcmd & Hcur & He & extra & Hps & Hlen & _ & Hend).
  { discriminate. }
  cbn [fst snd SavedGamesLoader.game SavedGamesLoader.seek_amount
       SavedGamesLoader.max_line SavedGamesLoader.commands SavedGamesLoader.current_line
       SavedGamesLoader.previous_states SavedGamesLoader.self_colour] in *.
  destruct e as [e|].
  - cbn [fst snd]. split; [exact Hs1|]. split; [exact He|]. discriminate.
  - cbn [fst snd SavedGamesLoader.game]. split; [exact Hs1|]. split; [left; reflexivity|].
    intros _ Hfile.
    destruct (Hend eq_refl) as [[Hall HE]|[Hbr|Hover]].
    + left. split; [|split; [|split]].
      * split; cbn [SavedGamesLoader.current_line SavedGamesLoader.max_line
                    SavedGamesLoader.previous_states].
        -- rewrite Hmax. lia.
        -- rewrite Hps, Hmax, length_app. cbn [length app]. lia.
      * split; cbn [SavedGamesLoader.current_line SavedGamesLoader.previous_states
                    SavedGamesLoader.game SavedGamesLoader.self_colour].
        -- rewrite Hps, Hmax. cbn [app]. rewrite Nat2Z.id, <- Hall.
           rewrite nth_error_app2 by lia. rewrite Nat.sub_diag. reflexivity.
        -- apply Hs1.
      * cbn [SavedGamesLoader.current_line]. exact Hmax.
      * rewrite HE, Hall. reflexivity.
    + exfalso. lia.
    + right. exact Hover.
Qed.

(** X20 -- [SavedGamesLoader.load] on a fresh browser, whatever the record:
    the game object stays in step with its grid; the only exceptions are
    [BoardError], [ValueError] and, for a record with a line without a comma,
    [IndexError]; and a load that succeeds with [seek_amount] at least the
    number of lines either leaves a browser with one snapshot per line
    number, at its last line, showing the final grid with one empty cell
    less per line, or has stopped early because the game was over. *)
Theorem load_fresh_browser (file : list str) (seek : Z) :
  let r := SavedGamesLoader.load file (SavedGamesLoader.init seek) in
  sound (SavedGamesLoader.game (fst r)) /\
  (snd r = None \/ snd r = Some (Exn BoardError) \/ snd r = Some ValueError \/
   (snd r = Some (Exn IndexError) /\ Exists no_comma file)) /\
  (snd r = None -> Z.of_nat (length file) <= seek ->
     (browsable (fst r) /\ shows_current (fst r) /\
      SavedGamesLoader.current_line (fst r) = Z.of_nat (length file) /\
      pieces (Othello.board (SavedGamesLoader.game (fst r))) E =
        60 - Z.of_nat (length file)) \/
     (moves_W (Othello.possible_moves (SavedGamesLoader.game (fst r))) = [] /\
      moves_B (Othello.possible_moves (SavedGamesLoader.game (fst r))) = [])).
Proof. exact (load_fresh file seek). Qed.

(** X21 -- if every line of every record holds a comma, [load_othello] lets
    no exception escape and puts one message per record on the queue, in
    order: the loaded browser, tagged [Loader] exactly when its [load]
    succeeded and [Fail] otherwise. *)
Theorem load_othello_answers_all (games : list (list str)) :
  Forall (Forall (fun line => ~ no_comma line)) games ->
  snd (load_othello games) = None /\
  length (fst (load_othello games)) = length games /\
  forall i file, nth_error games i = Some file ->
    exists tag,
      nth_error (fst (load_othello games)) i =
        Some (tag, fst (SavedGamesLoader.load file (SavedGamesLoader.init 64))) /\
      (tag = IO_Loader <-> snd (SavedGamesLoader.load file (SavedGamesLoader.init 64)) = None).
Proof.
  induction 1 as [|file rest Hfile _ IH]; cbn [load_othello].
  - split; [reflexivity|]. split; [reflexivity|]. intros [|i] f H; discriminate H.
  - pose proof (load_fresh file 64) as Hl. cbv zeta in Hl.
    destruct Hl as (_ & He & _).
    destruct (SavedGamesLoader.load file (SavedGamesLoader.init 64)) as [loaded e]
      eqn:Hload.
    cbn [fst snd] in *.
    destruct IH as (IH1 & IH2 & IH3).
    destruct (load_othello rest) as [queue e'] eqn:Hrest. cbn [fst snd] in *.
    destruct He as [->|[->|[->|[-> Hex]]]].
    + cbn [fst snd length]. split; [exact IH1|]. split; [lia|].
      intros [|i] f Hf; cbn [nth_error] in *.
      * injection Hf as <-. rewrite Hload. exists IO_Loader.
        split; [reflexivity|]. split; reflexivity.
      * apply IH3. exact Hf.
    + cbn [fst snd length]. split; [exact IH1|]. split; [lia|].
      intros [|i] f Hf; cbn [nth_error] in *.
      * injection Hf as <-. rewrite Hload. exists IO_Fail.
        split; [reflexivity|]. split; discriminate.
      * apply IH3. exact Hf.
    + cbn [fst snd length]. split; [exact IH1|]. split; [lia|].
      intros [|i] f Hf; cbn [nth_error] in *.
      * injection Hf as <-. rewrite Hload. exists IO_Fail.
        split; [reflexivity|]. split; discriminate.
      * apply IH3. exact Hf.
    + exfalso. apply Exists_exists in Hex. destruct Hex as [line [Hin Hnc]].
      apply (proj1 (Forall_forall _ _) Hfile line Hin). exact Hnc.
Qed.

(** ** Resuming a saved game *)

Lemma resume_loop_spec (commands : list str) :
  forall (g : Othello.end_game_iterator) (count : Z) (s : LoadLocalVersus.t),
  sound (LoadLocalVersus.game s) ->
  Othello.at_ g <> Othello.Finished ->
  let r := LoadLocalVersus.load_loop commands g count s in
  sound (LoadLocalVersus.game (fst r)) /\
  LoadLocalVersus.line_count (fst r) = LoadLocalVersus.line_count s /\
  (snd r = None \/ snd r = Some (Exn BoardError) \/ snd r = Some ValueError \/
   (snd r = Some (Exn IndexError) /\ Exists no_comma commands)) /\
  exists ps,
    LoadLocalVersus.saved (fst r) = LoadLocalVersus.saved s ++ map save_line ps /\
    (length ps <= length commands)%nat /\
    Forall2 (fun line p => get_pos_from_file line = Done p)
      (firstn (length ps) commands) ps /\
    pieces (Othello.board (LoadLocalVersus.game (fst r))) E =
      pieces (Othello.board (LoadLocalVersus.game s)) E - Z.of_nat (length ps) /\
    (snd r = None ->
       (length ps = length commands /\
        ~ (count <= LoadLocalVersus.line_count s < count + Z.of_nat (length commands)) /\
        (ps = [] -> fst r = s) /\
        (forall front p, ps = front ++ [p] ->
           cell_at (Othello.board (LoadLocalVersus.game (fst r))) (fst p) (snd p) =
           Piece (LoadLocalVersus.playing_colour (fst r)))) \/
       (count + Z.of_nat (length ps) = LoadLocalVersus.line_count s /\
        (length ps < length commands)%nat /\
        moves_of (Othello.possible_moves (LoadLocalVersus.game (fst r)))
          (LoadLocalVersus.playing_colour (fst r)) <> []) \/
       (moves_W (Othello.possible_moves (LoadLocalVersus.game (fst r))) = [] /\
        moves_B (Othello.possible_moves (LoadLocalVersus.game (fst r))) = [])).
Proof.
  induction commands as [|line rest IH]; intros g count s Hs Hg r.
  - subst r. cbn [LoadLocalVersus.load_loop fst snd].
    do 2 (split; [solve [auto]|]). split; [left; reflexivity|].
    exists []. cbn [map length firstn]. rewrite app_nil_r.
    split; [reflexivity|]. split; [lia|]. split; [constructor|]. split; [lia|].
    intros _. left. split; [reflexivity|]. split; [lia|]. split; [reflexivity|].
    intros [|f0 fr] q H; discriminate H.
  - subst r. cbn [LoadLocalVersus.load_loop].
    destruct (Othello.next g (Othello.possible_moves (LoadLocalVersus.game s)))
      as [[c|] g'] eqn:Hnext.
    + cbv zeta.
      pose proof (next_yields_mover g (Othello.possible_moves (LoadLocalVersus.game s)) c)
        as Hy.
      rewrite Hnext in Hy. destruct (Hy eq_refl) as (Hcmoves & _ & Hg').
      destruct (Z.eqb_spec count (LoadLocalVersus.line_count s)) as [Hcut|Hcut].
      * cbn [fst snd LoadLocalVersus.game LoadLocalVersus.line_count
             LoadLocalVersus.saved LoadLocalVersus.playing_colour].
        do 2 (split; [solve [auto]|]). split; [left; reflexivity|].
        exists []. cbn [map length firstn]. rewrite app_nil_r.
        split; [reflexivity|]. split; [lia|]. split; [constructor|]. split; [lia|].
        intros _. right. left. split; [lia|]. split; [lia|exact Hcmoves].
      * destruct (get_pos_from_file line) as [p|e] eqn:Hpos.
        -- destruct (snd (Othello.can_be_placed p c (LoadLocalVersus.game s))) eqn:Hcan;
             cbn [negb].
           ++ destruct (replay_sound p c (LoadLocalVersus.game s) Hs Hcan)
                as (Hn & Hs' & HE & Hcell).
              rewrite can_be_placed_pos in *.
              destruct (Othello.place p c (LoadLocalVersus.game s)) as [gm e1].
              cbn [fst snd] in Hn, Hs', HE, Hcell. subst e1.
              match goal with
              | |- context [LoadLocalVersus.load_loop rest g' ?lc ?s1] =>
                  specialize (IH g' lc s1 Hs' Hg'); cbv zeta in IH;
                  destruct (LoadLocalVersus.load_loop rest g' lc s1) as [s2 e2]
              end.
              cbn [fst snd LoadLocalVersus.game LoadLocalVersus.line_count
                   LoadLocalVersus.saved LoadLocalVersus.playing_colour] in *.
              destruct IH as (Hs2 & Hlc & He & ps & Hsaved & Hlen & Hparse & HE2 & Hend).
              do 2 (split; [solve [auto]|]). split.
              { destruct He as [He|[He|[He|[He Hex]]]]; auto.
                right. right. right. split; [exact He|]. apply Exists_cons_tl. exact Hex. }
              exists (p :: ps). cbn [map length firstn].
              split; [rewrite Hsaved, <- app_assoc; reflexivity|].
              split; [lia|]. split; [constructor; assumption|].
              split; [rewrite HE2, HE, Nat2Z.inj_succ; lia|].
              intros He2.
              destruct (Hend He2) as [(Hall & Hnocut & Hnil & Hlast)|[(Hc & Hlt & Hm)|Hover]].
              ** left. split; [lia|]. split; [rewrite Nat2Z.inj_succ; lia|].
                 split; [discriminate|].
                 intros front q Hq. destruct ps as [|p1 ps'].
                 --- destruct front as [|? [|? ?]]; try discriminate Hq.
                     injection Hq as <-. rewrite (Hnil eq_refl).
                     exact Hcell.
                 --- destruct front as [|f0 front']; [discriminate Hq|].
                     injection Hq as _ Hq. apply (Hlast front' q Hq).
              ** right. left. split; [rewrite Nat2Z.inj_succ; lia|]. split; [lia|exact Hm].
              ** right. right. exact Hover.
           ++ cbn [fst snd LoadLocalVersus.game LoadLocalVersus.line_count
                   LoadLocalVersus.saved LoadLocalVersus.playing_colour].
              do 2 (split; [solve [auto]|]). split; [right; left; reflexivity|].
              exists []. cbn [map length firstn]. rewrite app_nil_r.
              split; [reflexivity|]. split; [lia|]. split; [constructor|]. split; [lia|].
              discriminate.
        -- cbn [fst snd LoadLocalVersus.game LoadLocalVersus.line_count
                LoadLocalVersus.saved LoadLocalVersus.playing_colour].
           do 2 (split; [solve [auto]|]). split.
           { destruct (get_pos_from_file_failed line e Hpos) as [->|[-> Hnc]]; auto.
             right. right. right. split; [reflexivity|]. apply Exists_cons_hd. exact Hnc. }
           exists []. cbn [map length firstn]. rewrite app_nil_r.
           split; [reflexivity|]. split; [lia|]. split; [constructor|]. split; [lia|].
           discriminate.
    + cbn [fst snd].
      do 2 (split; [solve [auto]|]). split; [left; reflexivity|].
      exists []. cbn [map length firstn]. rewrite app_nil_r.
      split; [reflexivity|]. split; [lia|]. split; [constructor|]. split; [lia|].
      intros _. right. right.
      assert (fst (Othello.next g (Othello.possible_moves (LoadLocalVersus.game s))) = None)
        as Hnone by (rewrite Hnext; reflexivity).
      apply (next_spec g (Othello.possible_moves (LoadLocalVersus.game s)));
        [exact Hg|exact Hnone].
Qed.

Lemma saved_lines_read_back (ps : list pos) :
  Forall2 (fun line p => get_pos_from_file line = Done p) (map save_line ps) ps.
Proof.
  induction ps as [|[x y] ps IH]; cbn [map]; constructor; [|exact IH].
  apply save_line_parses.
Qed.

(** X22 -- [LoadLocalVersus.load] with a [line_count] outside the lines of the
    record, when it succeeds: unless the game was over before the record
    ended, every line was read and replayed, the new record written by
    [save] reads back as the same moves, each line filled one empty cell,
    and [playing_colour] is the opponent of the piece placed last (of the
    first colour if the record is empty). *)
Theorem resume_after_full_record (commands : list str) (s : LoadLocalVersus.t) :
  sound (LoadLocalVersus.game s) ->
  LoadLocalVersus.line_count s < 0 \/
    Z.of_nat (length commands) <= LoadLocalVersus.line_count s ->
  snd (LoadLocalVersus.load commands s) = None ->
  let s' := fst (LoadLocalVersus.load commands s) in
  (exists ps,
     Forall2 (fun line p => get_pos_from_file line = Done p) commands ps /\
     LoadLocalVersus.saved s' = LoadLocalVersus.saved s ++ map save_line ps /\
     Forall2 (fun line p => get_pos_from_file line = Done p) (map save_line ps) ps /\
     pieces (Othello.board (LoadLocalVersus.game s')) E =
       pieces (Othello.board (LoadLocalVersus.game s)) E - Z.of_nat (length commands) /\
     (commands = [] ->
        LoadLocalVersus.playing_colour s' = FLIP_RULE (LoadLocalVersus.playing_colour s)) /\
     (forall front p, ps = front ++ [p] ->
        cell_at (Othello.board (LoadLocalVersus.game s')) (fst p) (snd p) =
        Piece (FLIP_RULE (LoadLocalVersus.playing_colour s')))) \/
  (moves_W (Othello.possible_moves (LoadLocalVersus.game s')) = [] /\
   moves_B (Othello.possible_moves (LoadLocalVersus.game s')) = []).
Proof.
  intros Hs Hlimit. unfold LoadLocalVersus.load.
  pose proof (resume_loop_spec commands
                (Othello.end_game_iterator_start (LoadLocalVersus.playing_colour s)) 0 s Hs)
    as Hloop.
  cbv zeta in Hloop.
  destruct (LoadLocalVersus.load_loop commands
              (Othello.end_game_iterator_start (LoadLocalVersus.playing_colour s)) 0 s)
    as [s1 [e|]]; cbn [fst snd] in *; [discriminate|].
  destruct Hloop as (Hs1 & Hlc & _ & ps & Hsaved & Hlen & Hparse & HE & Hend).
  { discriminate. }
  intros _. cbn [LoadLocalVersus.game LoadLocalVersus.saved LoadLocalVersus.playing_colour].
  destruct (Hend eq_refl) as [(Hall & _ & Hnil & Hlast)|[(Hc & Hlt & _)|Hover]].
  - left. exists ps. rewrite Hall, firstn_all in Hparse.
    split; [exact Hparse|]. split; [exact Hsaved|]. split; [apply saved_lines_read_back|].
    split; [rewrite HE, Hall; reflexivity|]. split.
    + intros Hnone. subst commands. destruct ps; [|discriminate Hall].
      rewrite (Hnil eq_refl). reflexivity.
    + intros front p Hp. rewrite FLIP_RULE_involutive. apply (Hlast front p Hp).
  - exfalso. lia.
  - right. exact Hover.
Qed.

(** X23 -- [LoadLocalVersus.load] with [line_count] inside the record: when it
    succeeds and the game was not over before, [line_count] lines were
    replayed and the turn sequence took a colour [c] that can move for the
    next line; [playing_colour] is left as the opponent of [c], so the loop of
    [play] asks that opponent first whenever it can move. *)
Theorem resume_after_cut_record (commands : list str) (s : LoadLocalVersus.t) :
  sound (LoadLocalVersus.game s) ->
  0 <= LoadLocalVersus.line_count s < Z.of_nat (length commands) ->
  snd (LoadLocalVersus.load commands s) = None ->
  let s' := fst (LoadLocalVersus.load commands s) in
  (exists c,
     LoadLocalVersus.playing_colour s' = FLIP_RULE c /\
     moves_of (Othello.possible_moves (LoadLocalVersus.game s')) c <> [] /\
     pieces (Othello.board (LoadLocalVersus.game s')) E =
       pieces (Othello.board (LoadLocalVersus.game s)) E - LoadLocalVersus.line_count s /\
     (moves_of (Othello.possible_moves (LoadLocalVersus.game s')) (FLIP_RULE c) <> [] ->
        LoadLocalVersus.first_turn s' = Some (FLIP_RULE c))) \/
  (moves_W (Othello.possible_moves (LoadLocalVersus.game s')) = [] /\
   moves_B (Othello.possible_moves (LoadLocalVersus.game s')) = []).
Proof.
  intros Hs Hlimit. unfold LoadLocalVersus.load.
  pose proof (resume_loop_spec commands
                (Othello.end_game_iterator_start (LoadLocalVersus.playing_colour s)) 0 s Hs)
    as Hloop.
  cbv zeta in Hloop.
  destruct (LoadLocalVersus.load_loop commands
              (Othello.end_game_iterator_start (LoadLocalVersus.playing_colour s)) 0 s)
    as [s1 [e|]]; cbn [fst snd] in *; [discriminate|].
  destruct Hloop as (Hs1 & Hlc & _ & ps & Hsaved & Hlen & Hparse & HE & Hend).
  { discriminate. }
  intros _. cbn [LoadLocalVersus.game LoadLocalVersus.saved LoadLocalVersus.playing_colour].
  destruct (Hend eq_refl) as [(Hall & Hnocut & _)|[(Hc & Hlt & Hm)|Hover]].
  - exfalso. lia.
  - left. exists (LoadLocalVersus.playing_colour s1).
    split; [reflexivity|]. split; [exact Hm|]. split; [lia|].
    intros Hother. unfold LoadLocalVersus.first_turn.
    cbn [LoadLocalVersus.game LoadLocalVersus.playing_colour].
    apply (next_spec (Othello.end_game_iterator_start
                        (FLIP_RULE (LoadLocalVersus.playing_colour s1)))
             (Othello.possible_moves (LoadLocalVersus.game s1))).
    + discriminate.
    + exact Hother.
  - right. exact Hover.
Qed.

(** ** The stability scan *)

Lemma in_emit_line (line : list pos) :
  forall position y x k,
  In (y, x, k) (fst (AI.emit_line line position)) -> In (y, x) line.
Proof.
  induction line as [|[y0 x0] line IH]; intros position y x k Hin; cbn [AI.emit_line] in Hin.
  - destruct Hin.
  - destruct (AI.emit_line line 0) as [l p'] eqn:He. cbn [fst] in Hin.
    destruct Hin as [Heq|Hin].
    + injection Heq as <- <- _. left. reflexivity.
    + right. apply (IH 0 y x k). rewrite He. exact Hin.
Qed.

Lemma in_emit_lines (lines : list (list pos)) :
  forall position y x k,
  In (y, x, k) (AI.emit_lines lines position) ->
  exists line, In line lines /\ In (y, x) line.
Proof.
  induction lines as [|line lines IH]; intros position y x k Hin; cbn [AI.emit_lines] in Hin.
  - destruct Hin.
  - destruct (AI.emit_line line (if position =? 0 then 1 else position)) as [l p'] eqn:He.
    apply in_app_or in Hin. destruct Hin as [Hin|Hin].
    + exists line. split; [left; reflexivity|].
      apply (in_emit_line line (if position =? 0 then 1 else position) y x k).
      rewrite He. exact Hin.
    + destruct (IH p' y x k Hin) as [line' [Hl Hc]]. exists line'. split; [right|]; assumption.
Qed.

Lemma in_walk (n : nat) :
  forall y x dx q, In q (AI.walk n y x dx) ->
  exists i, 0 <= i < Z.of_nat n /\ q = (y + i, x + i * dx).
Proof.
  induction n as [|n IH]; intros y x dx q Hin; cbn [AI.walk] in Hin; [destruct Hin|].
  destruct Hin as [<-|Hin].
  - exists 0. split; [lia|]. f_equal; lia.
  - destruct (IH _ _ _ _ Hin) as [i [Hi ->]]. exists (i + 1). split; [lia|]. f_equal; lia.
Qed.

(** X24 -- if the diagonals start at non-negative cells (those running to the
    left at columns below 8), every cell that [stability_iterator] yields
    lies on the 8x8 grid. *)
Theorem stability_iterator_on_grid (lr rl : list pos) (y x position : Z) :
  Forall (fun start => 0 <= fst start /\ 0 <= snd start) lr ->
  Forall (fun start => 0 <= fst start /\ snd start < 8) rl ->
  In (y, x, position) (AI.stability_iterator lr rl) ->
  0 <= y < 8 /\ 0 <= x < 8.
Proof.
  intros Hlr Hrl Hin. unfold AI.stability_iterator in Hin.
  apply in_app_or in Hin.
  destruct Hin as [Hin|Hin];
    [|apply in_app_or in Hin; destruct Hin as [Hin|Hin];
      [|apply in_app_or in Hin; destruct Hin as [Hin|Hin]]];
    apply in_emit_lines in Hin; destruct Hin as [line [Hline Hc]];
    apply in_map_iff in Hline; destruct Hline as [z [<- Hz]].
  - apply in_map_iff in Hc. destruct Hc as [x' [Heq Hx']]. injection Heq as <- <-.
    apply in_range_list in Hz, Hx'. unfold BOARD_SIZE in *. lia.
  - apply in_map_iff in Hc. destruct Hc as [y' [Heq Hy']]. injection Heq as <- <-.
    apply in_range_list in Hz, Hy'. unfold BOARD_SIZE in *. lia.
  - pose proof (proj1 (Forall_forall _ _) Hlr z Hz) as [Hy0 Hx0].
    destruct z as [y0 x0]. cbn [fst snd AI.left_right_line] in *.
    apply in_walk in Hc. destruct Hc as [i [Hi Heq]]. injection Heq as -> ->.
    unfold BOARD_SIZE in *. lia.
  - pose proof (proj1 (Forall_forall _ _) Hrl z Hz) as [Hy0 Hx0].
    destruct z as [y0 x0]. cbn [fst snd AI.right_left_line] in *.
    apply in_walk in Hc. destruct Hc as [i [Hi Heq]]. injection Heq as -> ->.
    unfold BOARD_SIZE in *. lia.
Qed.

(** ** The verdict of the text front end *)

(** X25 -- [Text.evaluate_winner] on a game object in step with its grid:
    [BoardError] as long as a colour can move; once neither can, the line
    printed declares a tie with the common count when the two colours hold
    the same number of cells, and otherwise names the colour that holds more
    as the winner, each colour with its count. *)
Theorem evaluate_winner_verdict (s : Othello.t) :
  sound s ->
  let w := pieces (Othello.board s) (Piece W) in
  let b := pieces (Othello.board s) (Piece B) in
  (~ (moves_W (Othello.possible_moves s) = [] /\ moves_B (Othello.possible_moves s) = []) ->
     Text.evaluate_winner s = Failed (Exn BoardError)) /\
  (moves_W (Othello.possible_moves s) = [] /\ moves_B (Othello.possible_moves s) = [] ->
     (w = b ->
        Text.evaluate_winner s =
        Done (text "The game ended in a try. You both had: " ++ py_str w
              ++ text " pieces." ++ ["010"%char])) /\
     (b < w ->
        Text.evaluate_winner s =
        Done (text "W has won, with " ++ py_str w ++ text " pieces. B lost, with "
              ++ py_str b ++ text " pieces." ++ ["010"%char])) /\
     (w < b ->
        Text.evaluate_winner s =
        Done (text "B has won, with " ++ py_str b ++ text " pieces. W lost, with "
              ++ py_str w ++ text " pieces." ++ ["010"%char]))).
Proof.
  intros [Hwf Hpm] w b.
  pose proof (next_spec (Othello.end_game_iterator_start B) (Othello.possible_moves s))
    as Hnext.
  destruct Hnext as (_ & _ & Hnone); [discriminate|].
  unfold Text.evaluate_winner. split.
  - intros Hsome.
    destruct (fst (Othello.next (Othello.end_game_iterator_start B)
                     (Othello.possible_moves s))) as [c|]; [reflexivity|].
    exfalso. apply Hsome. apply Hnone. reflexivity.
  - intros Hover. apply Hnone in Hover. rewrite Hover.
    rewrite sorted_counts_spec.
    rewrite (white_count_pieces _ Hwf), (black_count_pieces _ Hwf). fold w b.
    destruct (Z.ltb_spec w b) as [Hlt|Hge]; cbn [nth fst snd Text.cell_str].
    + destruct (Z.eqb_spec b w) as [Heq|Hne]; [lia|].
      split; [lia|]. split; [lia|]. intros _. reflexivity.
    + destruct (Z.eqb_spec w b) as [Heq|Hne].
      * split; [|split; lia]. intros _. unfold text. cbn [String.list_ascii_of_string app].
        reflexivity.
      * split; [lia|]. split; [|lia]. intros _. reflexivity.
Qed.

(** ** Witnesses of the further properties *)

Lemma hashed_sound_opening : hashed_sound example_table opening.
Proof.
  split; [exact wf_example_table|]. split; [|reflexivity].
  apply get_hash_version_consistent. exact wf_start_board.
Qed.

(** Witness for X1: Black's opening move [(2, 3)]. *)
Lemma place_flips_captured_witness :
  sound (Othello.init None) /\
  In (2, 3) (keys (moves_of (Othello.possible_moves (Othello.init None)) B)) /\
  snd (Othello.place (2, 3) B (Othello.init None)) = None /\
  cell_at (Othello.board (fst (Othello.place (2, 3) B (Othello.init None)))) 2 3 = Piece B.
Proof.
  assert (In (2, 3) (keys (moves_of (Othello.possible_moves (Othello.init None)) B))) as Hin
    by (vm_compute; auto).
  split; [exact sound_init|]. split; [exact Hin|].
  destruct (place_flips_captured (2, 3) B (Othello.init None) sound_init Hin)
    as (Hnone & _ & _ & Hcells).
  split; [exact Hnone|].
  apply (Hcells (2, 3)); [cbn [fst snd]; lia|]. left. reflexivity.
Defined.

(** Witness for X2: Black's opening move [(2, 3)]. *)
Lemma place_counts_witness :
  sound (Othello.init None) /\
  exists n, 1 <= n /\
    pieces (Othello.board (fst (Othello.place (2, 3) B (Othello.init None)))) E =
      pieces (Othello.board (Othello.init None)) E - 1 /\
    pieces (Othello.board (fst (Othello.place (2, 3) B (Othello.init None)))) (Piece B) =
      pieces (Othello.board (Othello.init None)) (Piece B) + 1 + n /\
    pieces (Othello.board (fst (Othello.place (2, 3) B (Othello.init None))))
      (Piece (FLIP_RULE B)) =
      pieces (Othello.board (Othello.init None)) (Piece (FLIP_RULE B)) - n.
Proof.
  split; [exact sound_init|].
  apply (place_counts (2, 3) B (Othello.init None) sound_init).
  vm_compute. auto.
Defined.

(** Witness for X3: the opening position. *)
Lemma hashed_place_refines_place_witness :
  wf_table (HashedLocalVersus.table opening) /\
  unhashed (fst (HashedLocalVersus.place (2, 3) B opening)) =
    fst (Othello.place (2, 3) B (unhashed opening)).
Proof.
  split; [exact wf_example_table|].
  apply (hashed_place_refines_place (2, 3) B opening wf_example_table).
  cbn [fst snd]. lia.
Defined.

(** Witness for X4: the opening position. *)
Lemma incremental_hash_commutes_witness :
  wf_table example_table /\ sound (Othello.init None) /\
  HashedLocalVersus.place (2, 3) B
    (HashedLocalVersus.get_hash_version example_table (Othello.init None)) =
  (HashedLocalVersus.get_hash_version example_table
     (fst (Othello.place (2, 3) B (Othello.init None))), None).
Proof.
  split; [exact wf_example_table|]. split; [exact sound_init|].
  apply (incremental_hash_commutes example_table (2, 3) B (Othello.init None)
           wf_example_table sound_init).
  vm_compute. auto.
Defined.

(** Witness for X5: the white piece on [(3, 3)] of the opening position. *)
Lemma flip_undoes_flip_witness :
  wf_board (HashedLocalVersus.board (HashedLocalVersus.board_state opening)) /\
  HashedLocalVersus.flip (3, 3) (fst (HashedLocalVersus.flip (3, 3) opening)) =
    (opening, None).
Proof.
  split; [exact wf_start_board|].
  apply (flip_undoes_flip (3, 3) opening wf_start_board).
  - cbn [fst snd]. lia.
  - vm_compute. discriminate.
Defined.

(** Witness for X7: the nine moves of [double_turn_game]. *)
Lemma load_only_board_error_witness :
  sound (Othello.init None) /\
  let '(colours, g', (s', e)) :=
    Othello.load double_turn_game (Othello.end_game_iterator_start B) (Othello.init None) in
  (e = None \/ e = Some BoardError) /\ sound s'.
Proof.
  split; [exact sound_init|].
  pose proof (load_only_board_error double_turn_game (Othello.end_game_iterator_start B)
                (Othello.init None) sound_init) as H.
  destruct (Othello.load double_turn_game (Othello.end_game_iterator_start B)
              (Othello.init None)) as [[colours g'] [s' e]].
  destruct H as (He & Hs & _). split; assumption.
Defined.

(** Witness for X8: the opening position is not over. *)
Lemma game_over_iff_terminal_witness :
  sound (Othello.init None) /\
  (fst (Othello.next (Othello.end_game_iterator_start B)
          (Othello.possible_moves (Othello.init None))) = None <->
   AI.check_if_terminal opening = true).
Proof.
  split; [exact sound_init|].
  apply (game_over_iff_terminal example_table (Othello.end_game_iterator_start B)
           (Othello.init None) sound_init).
  discriminate.
Defined.

(** Witness for X9: the opening position holds two pieces of each colour. *)
Lemma count_pieces_total_witness :
  wf_board Othello.start_board /\
  Othello.count_pieces Othello.start_board =
    [(Piece W, pieces Othello.start_board (Piece W));
     (Piece B, pieces Othello.start_board (Piece B));
     (E, pieces Othello.start_board E)] /\
  pieces Othello.start_board (Piece W) + pieces Othello.start_board (Piece B)
    + pieces Othello.start_board E = 64.
Proof.
  split; [exact wf_start_board|].
  apply (count_pieces_total Othello.start_board wf_start_board).
Defined.

Lemma bounded_positional_weight : bounded_weights positional_weight.
Proof. repeat constructor. Qed.

(** Witness for X12: Black's moves in the opening position. *)
Lemma sort_actions_permutation_witness :
  hashed_sound example_table opening /\
  exists boards,
    AI.sort_actions positional_weight
      (keys (moves_of (HashedLocalVersus.possible_moves opening) B)) opening None (-1) B =
      Ok boards /\
    Permutation (map snd boards)
      (keys (moves_of (HashedLocalVersus.possible_moves opening) B)).
Proof.
  split; [exact hashed_sound_opening|].
  destruct (sort_actions_permutation positional_weight example_table opening None (-1) B
              hashed_sound_opening) as (boards & Hsort & Hperm & _).
  exists boards. split; assumption.
Defined.

(** Witness for X13: Black's move [(4, 5)] asked first in the opening position. *)
Lemma sort_actions_first_move_witness :
  bounded_weights positional_weight /\
  hashed_sound example_table opening /\
  exists rest,
    AI.sort_actions positional_weight
      (keys (moves_of (HashedLocalVersus.possible_moves opening) B)) opening
      (Some (4, 5)) (-1) B =
    Ok ((fst (HashedLocalVersus.place (4, 5) B opening), (4, 5)) :: rest).
Proof.
  split; [exact bounded_positional_weight|]. split; [exact hashed_sound_opening|].
  apply (sort_actions_first_move positional_weight example_table opening (4, 5) (-1) B
           bounded_positional_weight (or_intror eq_refl) hashed_sound_opening).
  vm_compute. auto.
Defined.

(** Witness for X14: the finished game [full_position], searched to depth 3. *)
Lemma mtdf_on_leaf_witness :
  AI.check_if_terminal full_position = true /\
  leaf_value exact [] [] full_position = Ok (of_int 87) /\
  AI.minimax exact [] [] zero_weight 3 full_position NegInf PosInf true true [] =
    Ok (AI.Scalar (of_int 87), []) /\
  AI.mtdf exact [] [] zero_weight 1 full_position (of_int 0) 3 [] = Some (Raise TypeError).
Proof.
  split; [reflexivity|]. split; [reflexivity|].
  apply (mtdf_on_leaf exact [] [] zero_weight 0 3 full_position (of_int 0) NegInf PosInf
           true true (of_int 87) [] eq_refl (or_introl eq_refl) eq_refl).
Defined.

(** Witness for X15: White to move after Black's opening move [(2, 3)]. *)
Lemma easy_search_picks_best_witness :
  hashed_sound example_table after_first_move /\
  moves_W (HashedLocalVersus.possible_moves after_first_move) <> [] /\
  exists v a,
    AI.minimax exact [] [] positional_weight 1 after_first_move NegInf PosInf true true [] =
      Ok (AI.Pair v a,
          [(HashedLocalVersus.board_state after_first_move, (v, 1, 1%nat, a))]) /\
    In a (keys (moves_W (HashedLocalVersus.possible_moves after_first_move))).
Proof.
  assert (hashed_sound example_table after_first_move) as Hs.
  { destruct hashed_sound_opening as (Hwt & Hc & Hpm).
    destruct (HashedFacts.place_legal example_table (2, 3) B opening Hwt Hc Hpm)
      as (_ & Hc' & Hpm'); [vm_compute; auto|].
    split; [exact Hwt|]. split; assumption. }
  assert (moves_W (HashedLocalVersus.possible_moves after_first_move) <> []) as Hm
    by (vm_compute; discriminate).
  split; [exact Hs|]. split; [exact Hm|].
  destruct (easy_search_picks_best exact [] [] positional_weight example_table
              after_first_move Hs Hm) as (v & a & Hrun & Ha & _).
  exists v, a. split; assumption.
Defined.

(** Witness for X17: the line ["34"] and the line ["3,4,5"]. *)
Lemma get_pos_from_file_fields_witness :
  no_comma (text "34") /\ no_comma (text "4") /\
  get_pos_from_file (text "34") = Failed (Exn IndexError) /\
  get_pos_from_file (text "34,4,5") = get_pos_from_file (text "34,4").
Proof.
  assert (no_comma (text "34")) as H0 by (repeat constructor).
  assert (no_comma (text "4")) as H1 by (repeat constructor).
  split; [exact H0|]. split; [exact H1|].
  exact (get_pos_from_file_fields (text "34") (text "4") (text "5") H0 H1).
Defined.

Lemma browsable_short_browser : browsable short_browser.
Proof. vm_compute. repeat split; congruence. Qed.

Lemma shows_current_short_browser : shows_current short_browser.
Proof. vm_compute. split; reflexivity. Qed.

(** Witness for X18: the browser of [short_record], at its last line 2. *)
Lemma browsing_stays_in_range_witness :
  browsable short_browser /\
  SavedGamesLoader.line_load_forwards short_browser = (short_browser, Some (Exn BoardError)) /\
  snd (SavedGamesLoader.line_load_backwards short_browser) = None /\
  SavedGamesLoader.current_line (fst (SavedGamesLoader.line_load_backwards short_browser)) = 1.
Proof.
  split; [exact browsable_short_browser|].
  destruct (browsing_stays_in_range short_browser browsable_short_browser)
    as (_ & Hend & Hback & _).
  split; [apply Hend; reflexivity|].
  destruct (Hback eq_refl) as (Hn & _ & _ & Hl). split; [exact Hn|exact Hl].
Defined.

(** Witness for X19: the browser of [short_record]. *)
Lemma browse_back_and_forth_witness :
  browsable short_browser /\ shows_current short_browser /\
  SavedGamesLoader.line_load_forwards
    (fst (SavedGamesLoader.line_load_backwards short_browser)) = (short_browser, None).
Proof.
  split; [exact browsable_short_browser|]. split; [exact shows_current_short_browser|].
  apply (browse_back_and_forth short_browser browsable_short_browser
           shows_current_short_browser).
  reflexivity.
Defined.

Lemma short_record_commas : Forall (fun line => ~ no_comma line) short_record.
Proof.
  apply Forall_cons; [|apply Forall_cons; [|apply Forall_nil]]; intros H;
    pose proof (proj1 (Forall_forall _ _) H ","%char) as Hc;
    assert (Ascii.eqb "," "," = false) as Hf by (apply Hc; vm_compute; auto);
    discriminate Hf.
Qed.

(** Witness for X21: two copies of [short_record]. *)
Lemma load_othello_answers_all_witness :
  Forall (Forall (fun line => ~ no_comma line)) [short_record; short_record] /\
  snd (load_othello [short_record; short_record]) = None /\
  length (fst (load_othello [short_record; short_record])) = 2%nat.
Proof.
  assert (Forall (Forall (fun line => ~ no_comma line)) [short_record; short_record]) as H
    by (apply Forall_cons; [exact short_record_commas|];
        apply Forall_cons; [exact short_record_commas|apply Forall_nil]).
  split; [exact H|].
  destruct (load_othello_answers_all [short_record; short_record] H) as (Hn & Hl & _).
  split; [exact Hn|exact Hl].
Defined.

(** Witness for X22: [short_record] resumed in full. *)
Lemma resume_after_full_record_witness :
  sound (LoadLocalVersus.game (LoadLocalVersus.init 2)) /\
  snd (LoadLocalVersus.load short_record (LoadLocalVersus.init 2)) = None /\
  LoadLocalVersus.playing_colour
    (fst (LoadLocalVersus.load short_record (LoadLocalVersus.init 2))) = B /\
  ((exists ps,
      Forall2 (fun line p => get_pos_from_file line = Done p) short_record ps /\
      LoadLocalVersus.saved (fst (LoadLocalVersus.load short_record (LoadLocalVersus.init 2)))
        = LoadLocalVersus.saved (LoadLocalVersus.init 2) ++ map save_line ps) \/
   (moves_W (Othello.possible_moves (LoadLocalVersus.game
       (fst (LoadLocalVersus.load short_record (LoadLocalVersus.init 2))))) = [] /\
    moves_B (Othello.possible_moves (LoadLocalVersus.game
       (fst (LoadLocalVersus.load short_record (LoadLocalVersus.init 2))))) = [])).
Proof.
  split; [exact sound_init|]. split; [reflexivity|]. split; [reflexivity|].
  pose proof (resume_after_full_record short_record (LoadLocalVersus.init 2) sound_init
                (or_intror (Z.le_refl 2)) eq_refl) as H.
  cbv zeta in H. destruct H as [(ps & Hparse & Hsaved & _)|Hover].
  - left. exists ps. split; assumption.
  - right. exact Hover.
Defined.

(** Witness for X23: [short_record] resumed after its first line: Black has
    moved, White is due, and Black is asked again. *)
Lemma resume_after_cut_record_witness :
  sound (LoadLocalVersus.game (LoadLocalVersus.init 1)) /\
  snd (LoadLocalVersus.load short_record (LoadLocalVersus.init 1)) = None /\
  LoadLocalVersus.playing_colour
    (fst (LoadLocalVersus.load short_record (LoadLocalVersus.init 1))) = B /\
  LoadLocalVersus.first_turn
    (fst (LoadLocalVersus.load short_record (LoadLocalVersus.init 1))) = Some B /\
  ((exists c,
      LoadLocalVersus.playing_colour
        (fst (LoadLocalVersus.load short_record (LoadLocalVersus.init 1))) = FLIP_RULE c /\
      moves_of (Othello.possible_moves (LoadLocalVersus.game
        (fst (LoadLocalVersus.load short_record (LoadLocalVersus.init 1))))) c <> []) \/
   (moves_W (Othello.possible_moves (LoadLocalVersus.game
       (fst (LoadLocalVersus.load short_record (LoadLocalVersus.init 1))))) = [] /\
    moves_B (Othello.possible_moves (LoadLocalVersus.game
       (fst (LoadLocalVersus.load short_record (LoadLocalVersus.init 1))))) = [])).
Proof.
  split; [exact sound_init|]. split; [reflexivity|]. split; [reflexivity|].
  split; [reflexivity|].
  assert (0 <= LoadLocalVersus.line_count (LoadLocalVersus.init 1)
            < Z.of_nat (length short_record)) as Hcut
    by (cbn [LoadLocalVersus.line_count LoadLocalVersus.init length short_record]; lia).
  pose proof (resume_after_cut_record short_record (LoadLocalVersus.init 1) sound_init
                Hcut eq_refl) as H.
  cbv zeta in H. destruct H as [(c & Hc & Hm & _)|Hover].
  - left. exists c. split; [exact Hc|exact Hm].
  - right. exact Hover.
Defined.

(** Witness for X24: the main diagonals. *)
Lemma stability_iterator_on_grid_witness :
  In (7, 7, 0) (AI.stability_iterator [(0, 0)] [(0, 7)]) /\
  (0 <= 7 < 8 /\ 0 <= 7 < 8).
Proof.
  assert (In (7, 7, 0) (AI.stability_iterator [(0, 0)] [(0, 7)])) as Hin
    by (vm_compute; tauto).
  split; [exact Hin|].
  refine (stability_iterator_on_grid [(0, 0)] [(0, 7)] 7 7 0 _ _ Hin).
  - apply Forall_cons; [cbn [fst snd]; lia|apply Forall_nil].
  - apply Forall_cons; [cbn [fst snd]; lia|apply Forall_nil].
Defined.

Lemma sound_full_board : sound (Othello.init (Some full_board_33_31)).
Proof. split; [exact wf_full_board_33_31|reflexivity]. Qed.

(** Witness for X25: the full board with 33 White and 31 Black cells. *)
Lemma evaluate_winner_verdict_witness :
  sound (Othello.init (Some full_board_33_31)) /\
  Text.evaluate_winner (Othello.init (Some full_board_33_31)) =
    Done (text "W has won, with 33 pieces. B lost, with 31 pieces." ++ ["010"%char]).
Proof.
  split; [exact sound_full_board|].
  pose proof (evaluate_winner_verdict (Othello.init (Some full_board_33_31))
                sound_full_board) as H.
  cbv zeta in H. destruct H as (_ & Hover).
  destruct (Hover (conj eq_refl eq_refl)) as (_ & Hwin & _).
  apply Hwin. reflexivity.
Defined.
